(** * QR Master Pro: payload encoder, folio codec, validation loop, export

    A shallow embedding of the generator component (the payload effect,
    [formatDateTimeForICS], [utf8ToBase64], the standard validation effect,
    [handleBatchExport]) and of the folio page ([base64ToUtf8] and the decode
    memo), together with the platform functions they call
    ([encodeURIComponent], [unescape], [btoa], [atob], [escape],
    [decodeURIComponent], [JSON.stringify], [JSON.parse]).  Further on:
    the route check of [App] with [URLSearchParams], the render test of the
    folio page, the table [QR_CODE_TYPES] with the form handlers
    ([handleTypeChange], [handleInputChange], [addLink], [removeLink],
    [renderInputs]), [blobToBase64], and the upload and repair handlers of
    the scanner.

    A JavaScript string is the list of its UTF-16 code units, each a [Z] in
    [0, 65536).  A thrown exception is the [Throw] case of [result]. *)

From Stdlib Require Import ZArith Lia String Ascii List Bool.
From stdpp Require Import base option list gmap strings.

Set Warnings "-register-all".

Local Open Scope Z_scope.

(** ** JavaScript values used by the components *)

Module Js.

(** Values the modelled code can throw: the built-in errors, whose message
    is worded by the engine, [new Error(message)], and a thrown or rejected
    value that is not an [Error] instance. *)
Inductive exn :=
| URIError
| InvalidCharacterError
| SyntaxError
| TypeError
| Error (message : string)
| NotAnError.

Inductive result (A : Type) :=
| Ok (a : A)
| Throw (e : exn).
Arguments Ok {A} a.
Arguments Throw {A} e.

Definition bind {A B} (m : result A) (k : A -> result B) : result B :=
  match m with
  | Ok a => k a
  | Throw e => Throw e
  end.

Definition rmap {A B} (f : A -> B) (m : result A) : result B :=
  match m with
  | Ok a => Ok (f a)
  | Throw e => Throw e
  end.

(** [try { m } catch (e) { h e }] *)
Definition try_catch {A} (m : result A) (h : exn -> result A) : result A :=
  match m with
  | Ok a => Ok a
  | Throw e => h e
  end.

(** A string literal of the source, as code units. *)
Definition lit (s : string) : list Z :=
  (fun a => Z.of_N (N_of_ascii a)) <$> list_ascii_of_string s.

Definition in_range (lo c hi : Z) : bool := (lo <=? c) && (c <=? hi).

Definition is_digit (c : Z) : bool := in_range 48 c 57.
Definition is_upper (c : Z) : bool := in_range 65 c 90.
Definition is_lower (c : Z) : bool := in_range 97 c 122.
Definition is_alnum (c : Z) : bool := is_digit c || is_upper c || is_lower c.

Definition is_high_surrogate (c : Z) : bool := in_range 0xD800 c 0xDBFF.
Definition is_low_surrogate (c : Z) : bool := in_range 0xDC00 c 0xDFFF.
Definition is_surrogate (c : Z) : bool := in_range 0xD800 c 0xDFFF.

(** Membership of a code unit in a set written as a literal. *)
Definition one_of (set : list Z) (c : Z) : bool :=
  existsb (Z.eqb c) set.

(** The code point of a surrogate pair, and back. *)
Definition pair_code_point (hi lo : Z) : Z :=
  (hi - 0xD800) * 0x400 + (lo - 0xDC00) + 0x10000.

Definition utf16_encode (cp : Z) : list Z :=
  if cp <? 0x10000 then [cp]
  else [0xD800 + (cp - 0x10000) / 0x400; 0xDC00 + (cp - 0x10000) mod 0x400].

(** ToBoolean on a value that is a string or [undefined]. *)
Definition truthy (v : option (list Z)) : bool :=
  match v with
  | Some (_ :: _) => true
  | _ => false
  end.

(** [v || d] on a value that is a string or [undefined]. *)
Definition or_else (v : option (list Z)) (d : list Z) : list Z :=
  match v with
  | Some (c :: s) => c :: s
  | _ => d
  end.

(** Strict equality of two strings. *)
Definition str_eqb (a b : list Z) : bool := bool_decide (a = b).

(** [s.replace(/[class]/g, '')]: every code unit of the class is deleted. *)
Definition replace_class_empty (class : Z -> bool) (s : list Z) : list Z :=
  flat_map (fun c => if class c then [] else [c]) s.

(** [s.split(sep)] for a one-character separator. *)
Fixpoint split (sep : Z) (s : list Z) : list (list Z) :=
  match s with
  | [] => [[]]
  | c :: r =>
      if c =? sep then [] :: split sep r
      else match split sep r with
           | p :: ps => (c :: p) :: ps
           | [] => [[c]]
           end
  end.

(** Hexadecimal digits. *)
Definition hex_val (c : Z) : option Z :=
  if is_digit c then Some (c - 48)
  else if in_range 65 c 70 then Some (c - 55)
  else if in_range 97 c 102 then Some (c - 87)
  else None.

Definition hex_upper (d : Z) : Z := if d <? 10 then 48 + d else 55 + d.
Definition hex_lower (d : Z) : Z := if d <? 10 then 48 + d else 87 + d.

Definition hex2 (a b : Z) : option Z :=
  match hex_val a, hex_val b with
  | Some x, Some y => Some (16 * x + y)
  | _, _ => None
  end.

Definition hex4 (a b c d : Z) : option Z :=
  match hex2 a b, hex2 c d with
  | Some x, Some y => Some (256 * x + y)
  | _, _ => None
  end.

End Js.

Import Js.

(** ** URI coding functions of the global object *)

Module Uri.

(** The UTF-8 octets of a code point. *)
Definition utf8_octets (cp : Z) : list Z :=
  if cp <? 0x80 then [cp]
  else if cp <? 0x800 then [0xC0 + cp / 64; 0x80 + cp mod 64]
  else if cp <? 0x10000 then
    [0xE0 + cp / 4096; 0x80 + (cp / 64) mod 64; 0x80 + cp mod 64]
  else
    [0xF0 + cp / 262144; 0x80 + (cp / 4096) mod 64;
     0x80 + (cp / 64) mod 64; 0x80 + cp mod 64].

(** ["%XX"] for one octet, upper-case digits. *)
Definition percent (b : Z) : list Z :=
  [37; hex_upper (b / 16); hex_upper (b mod 16)].

(** uriUnreserved: letters, digits and [-_.!~*'()]. *)
Definition uri_unreserved (c : Z) : bool :=
  is_alnum c || one_of [45; 95; 46; 33; 126; 42; 39; 40; 41] c.

(** [encodeURIComponent(s)]: a code unit outside the unreserved set is
    replaced by the percent-escaped UTF-8 octets of its code point; an
    unpaired surrogate throws. *)
Fixpoint encodeURIComponent (s : list Z) : result (list Z) :=
  match s with
  | [] => Ok []
  | c :: r =>
      if uri_unreserved c then rmap (cons c) (encodeURIComponent r)
      else if is_high_surrogate c then
        match r with
        | d :: r' =>
            if is_low_surrogate d then
              rmap (app (flat_map percent (utf8_octets (pair_code_point c d))))
                   (encodeURIComponent r')
            else Throw URIError
        | [] => Throw URIError
        end
      else if is_low_surrogate c then Throw URIError
      else rmap (app (flat_map percent (utf8_octets c))) (encodeURIComponent r)
  end.

(** [unescape(s)]: ["%uXXXX"] and ["%XX"] become the code unit they name;
    a ["%"] followed by anything else stays. *)
Fixpoint unescape (s : list Z) : list Z :=
  match s with
  | [] => []
  | c :: r =>
      if c =? 37 then
        let two :=
          match r with
          | a :: b :: r2 =>
              match hex2 a b with
              | Some v => v :: unescape r2
              | None => c :: unescape r
              end
          | _ => c :: unescape r
          end in
        match r with
        | u :: a :: b :: x :: y :: r5 =>
            if u =? 117 then
              match hex4 a b x y with
              | Some v => v :: unescape r5
              | None => two
              end
            else two
        | _ => two
        end
      else c :: unescape r
  end.

(** The set [escape] leaves alone: letters, digits and [@*_+-./]. *)
Definition escape_unescaped (c : Z) : bool :=
  is_alnum c || one_of [64; 42; 95; 43; 45; 46; 47] c.

(** [escape(s)] *)
Definition escape (s : list Z) : list Z :=
  flat_map (fun c =>
    if escape_unescaped c then [c]
    else if c <? 256 then percent c
    else [37; 117; hex_upper (c / 4096); hex_upper ((c / 256) mod 16);
          hex_upper ((c / 16) mod 16); hex_upper (c mod 16)]) s.

(** A ["%XX"] group that must be a UTF-8 continuation octet. *)
Definition continuation (p a b : Z) : option Z :=
  if p =? 37 then
    match hex2 a b with
    | Some v => if in_range 0x80 v 0xBF then Some (v - 0x80) else None
    | None => None
    end
  else None.

Definition decoded2 (b : Z) (c1 : option Z) : option Z :=
  match c1 with
  | Some x =>
      let cp := (b - 0xC0) * 64 + x in
      if 0x80 <=? cp then Some cp else None
  | None => None
  end.

Definition decoded3 (b : Z) (c1 c2 : option Z) : option Z :=
  match c1, c2 with
  | Some x, Some y =>
      let cp := (b - 0xE0) * 4096 + x * 64 + y in
      if (0x800 <=? cp) && negb (is_surrogate cp) then Some cp else None
  | _, _ => None
  end.

Definition decoded4 (b : Z) (c1 c2 c3 : option Z) : option Z :=
  match c1, c2, c3 with
  | Some x, Some y, Some z =>
      let cp := (b - 0xF0) * 262144 + x * 4096 + y * 64 + z in
      if in_range 0x10000 cp 0x10FFFF then Some cp else None
  | _, _, _ => None
  end.

(** [decodeURIComponent(s)]: every ["%XX"] run must spell the UTF-8
    encoding of one code point, which is put back as UTF-16; anything
    else throws. *)
Fixpoint decodeURIComponent (s : list Z) : result (list Z) :=
  match s with
  | [] => Ok []
  | c :: r =>
      if negb (c =? 37) then rmap (cons c) (decodeURIComponent r)
      else
        match r with
        | a :: b :: r1 =>
            match hex2 a b with
            | None => Throw URIError
            | Some B =>
                if B <? 0x80 then rmap (cons B) (decodeURIComponent r1)
                else if B <? 0xC0 then Throw URIError
                else if B <? 0xE0 then
                  match r1 with
                  | p1 :: a1 :: b1 :: r2 =>
                      match decoded2 B (continuation p1 a1 b1) with
                      | Some cp =>
                          rmap (app (utf16_encode cp)) (decodeURIComponent r2)
                      | None => Throw URIError
                      end
                  | _ => Throw URIError
                  end
                else if B <? 0xF0 then
                  match r1 with
                  | p1 :: a1 :: b1 :: p2 :: a2 :: b2 :: r3 =>
                      match decoded3 B (continuation p1 a1 b1)
                                       (continuation p2 a2 b2) with
                      | Some cp =>
                          rmap (app (utf16_encode cp)) (decodeURIComponent r3)
                      | None => Throw URIError
                      end
                  | _ => Throw URIError
                  end
                else if B <? 0xF8 then
                  match r1 with
                  | p1 :: a1 :: b1 :: p2 :: a2 :: b2 :: p3 :: a3 :: b3 :: r4 =>
                      match decoded4 B (continuation p1 a1 b1)
                                       (continuation p2 a2 b2)
                                       (continuation p3 a3 b3) with
                      | Some cp =>
                          rmap (app (utf16_encode cp)) (decodeURIComponent r4)
                      | None => Throw URIError
                      end
                  | _ => Throw URIError
                  end
                else Throw URIError
            end
        | _ => Throw URIError
        end
  end.

End Uri.

(** ** Base64 functions of the window object *)

Module Base64.

Definition b64_char (i : Z) : Z :=
  if i <? 26 then 65 + i
  else if i <? 52 then 97 + (i - 26)
  else if i <? 62 then 48 + (i - 52)
  else if i =? 62 then 43
  else 47.

Definition b64_index (c : Z) : option Z :=
  if is_upper c then Some (c - 65)
  else if is_lower c then Some (c - 71)
  else if is_digit c then Some (c + 4)
  else if c =? 43 then Some 62
  else if c =? 47 then Some 63
  else None.

Fixpoint b64_encode (l : list Z) : list Z :=
  match l with
  | [] => []
  | a :: r =>
      match r with
      | [] => [b64_char (a / 4); b64_char ((a mod 4) * 16); 61; 61]
      | b :: r' =>
          match r' with
          | [] =>
              [b64_char (a / 4); b64_char ((a mod 4) * 16 + b / 16);
               b64_char ((b mod 16) * 4); 61]
          | c :: r'' =>
              b64_char (a / 4) :: b64_char ((a mod 4) * 16 + b / 16)
              :: b64_char ((b mod 16) * 4 + c / 64) :: b64_char (c mod 64)
              :: b64_encode r''
          end
      end
  end.

(** [btoa(s)]: every code unit must be at most 0xFF. *)
Definition btoa (s : list Z) : result (list Z) :=
  if forallb (fun c => c <=? 255) s then Ok (b64_encode s)
  else Throw InvalidCharacterError.

Definition ascii_whitespace (c : Z) : bool := one_of [9; 10; 12; 13; 32] c.

(** When the length is a multiple of four, one or two trailing ["="] are
    removed. *)
Definition strip_padding (s : list Z) : list Z :=
  if Z.of_nat (length s) mod 4 =? 0 then
    match rev s with
    | x :: r =>
        if x =? 61 then
          match r with
          | y :: r' => if y =? 61 then rev r' else rev r
          | [] => rev r
          end
        else s
    | [] => s
    end
  else s.

(** Four characters give three octets; a final group of three gives two
    and one of two gives one (the spare bits are dropped); a final single
    character, or a character outside the alphabet, is a failure. *)
Fixpoint b64_decode (s : list Z) : option (list Z) :=
  match s with
  | [] => Some []
  | a :: r =>
      match r with
      | [] => None
      | b :: r' =>
          match b64_index a, b64_index b with
          | Some x, Some y =>
              match r' with
              | [] => Some [x * 4 + y / 16]
              | c :: r'' =>
                  match b64_index c with
                  | Some z =>
                      match r'' with
                      | [] => Some [x * 4 + y / 16; (y mod 16) * 16 + z / 4]
                      | d :: r''' =>
                          match b64_index d, b64_decode r''' with
                          | Some w, Some out =>
                              Some (x * 4 + y / 16 :: (y mod 16) * 16 + z / 4
                                    :: (z mod 4) * 64 + w :: out)
                          | _, _ => None
                          end
                      end
                  | None => None
                  end
              end
          | _, _ => None
          end
      end
  end.

(** [atob(s)]: the forgiving base64 decoding. *)
Definition atob (s : list Z) : result (list Z) :=
  let data := filter (fun c => ascii_whitespace c = false) s in
  match b64_decode (strip_padding data) with
  | Some out => Ok out
  | None => Throw InvalidCharacterError
  end.

End Base64.

(** ** The JSON object *)

Module Json.

Inductive value :=
| JNull
| JBool (b : bool)
| JNumber (lexeme : list Z)
| JString (s : list Z)
| JArray (items : list value)
| JObject (members : list (list Z * value)).

(** *** JSON.stringify *)

Definition unicode_escape (c : Z) : list Z :=
  [92; 117; hex_lower (c / 4096); hex_lower ((c / 256) mod 16);
   hex_lower ((c / 16) mod 16); hex_lower (c mod 16)].

(** QuoteJSONString without the enclosing quotes: the short escapes,
    [\uXXXX] for the other control characters and for unpaired
    surrogates, everything else as it is. *)
Fixpoint quote_chars (s : list Z) : list Z :=
  match s with
  | [] => []
  | c :: r =>
      if c =? 8 then 92 :: 98 :: quote_chars r
      else if c =? 9 then 92 :: 116 :: quote_chars r
      else if c =? 10 then 92 :: 110 :: quote_chars r
      else if c =? 12 then 92 :: 102 :: quote_chars r
      else if c =? 13 then 92 :: 114 :: quote_chars r
      else if c =? 34 then 92 :: 34 :: quote_chars r
      else if c =? 92 then 92 :: 92 :: quote_chars r
      else if c <? 32 then unicode_escape c ++ quote_chars r
      else if is_high_surrogate c then
        match r with
        | d :: r' =>
            if is_low_surrogate d then c :: d :: quote_chars r'
            else unicode_escape c ++ quote_chars r
        | [] => unicode_escape c
        end
      else if is_low_surrogate c then unicode_escape c ++ quote_chars r
      else c :: quote_chars r
  end.

Definition quote (s : list Z) : list Z := 34 :: quote_chars s ++ [34].

Fixpoint join (sep : list Z) (parts : list (list Z)) : list Z :=
  match parts with
  | [] => []
  | p :: rest =>
      match rest with
      | [] => p
      | _ :: _ => p ++ sep ++ join sep rest
      end
  end.

(** SerializeJSONProperty on a string or [undefined]. *)
Definition stringify_string (v : option (list Z)) : option (list Z) :=
  quote <$> v.

(** SerializeJSONObject with no indentation, on the already serialized
    own properties in their order; a property whose value serializes to
    [undefined] is left out. *)
Definition stringify_object (props : list (list Z * option (list Z)))
  : list Z :=
  [123] ++
  join [44] (omap (fun kv => match snd kv with
                             | Some text => Some (quote (fst kv) ++ 58 :: text)
                             | None => None
                             end) props) ++
  [125].

(** SerializeJSONArray with no indentation, on the serialized elements. *)
Definition stringify_array (items : list (list Z)) : list Z :=
  [91] ++ join [44] items ++ [93].

(** *** JSON.parse *)

Definition json_whitespace (c : Z) : bool := one_of [9; 10; 13; 32] c.

Fixpoint skip_ws (s : list Z) : list Z :=
  match s with
  | [] => []
  | c :: r => if json_whitespace c then skip_ws r else s
  end.

Definition escape_char (e : Z) : option Z :=
  if e =? 34 then Some 34
  else if e =? 92 then Some 92
  else if e =? 47 then Some 47
  else if e =? 98 then Some 8
  else if e =? 102 then Some 12
  else if e =? 110 then Some 10
  else if e =? 114 then Some 13
  else if e =? 116 then Some 9
  else None.

Definition push (c : Z) (p : option (list Z * list Z))
  : option (list Z * list Z) :=
  match p with
  | Some (str, rest) => Some (c :: str, rest)
  | None => None
  end.

(** The characters of a string after its opening quote, up to and
    including the closing quote. *)
Fixpoint parse_string (s : list Z) : option (list Z * list Z) :=
  match s with
  | [] => None
  | c :: r =>
      if c =? 34 then Some ([], r)
      else if c =? 92 then
        match r with
        | [] => None
        | e :: r1 =>
            if e =? 117 then
              match r1 with
              | a :: b :: x :: y :: r5 =>
                  match hex4 a b x y with
                  | Some v => push v (parse_string r5)
                  | None => None
                  end
              | _ => None
              end
            else
              match escape_char e with
              | Some v => push v (parse_string r1)
              | None => None
              end
        end
      else if c <? 32 then None
      else push c (parse_string r)
  end.

Fixpoint span_digits (s : list Z) : list Z * list Z :=
  match s with
  | [] => ([], [])
  | c :: r =>
      if is_digit c then
        let '(ds, rest) := span_digits r in (c :: ds, rest)
      else ([], s)
  end.

Fixpoint strip_prefix (p s : list Z) : option (list Z) :=
  match p with
  | [] => Some s
  | a :: p' =>
      match s with
      | [] => None
      | b :: s' => if a =? b then strip_prefix p' s' else None
      end
  end.

(** A number: optional minus, integer part without leading zeros,
    optional fraction, optional exponent.  The value is kept as the text
    that was read. *)
Definition number_sign (s : list Z) : list Z * list Z :=
  match s with
  | c :: r => if c =? 45 then ([45], r) else ([], s)
  | [] => ([], s)
  end.

Definition number_int (s : list Z) : option (list Z * list Z) :=
  match s with
  | [] => None
  | d :: r =>
      if d =? 48 then Some ([48], r)
      else if in_range 49 d 57 then
        let '(ds, rest) := span_digits r in Some (d :: ds, rest)
      else None
  end.

Definition number_frac (s : list Z) : option (list Z * list Z) :=
  match s with
  | c :: r =>
      if c =? 46 then
        match span_digits r with
        | ([], _) => None
        | (ds, rest) => Some (46 :: ds, rest)
        end
      else Some ([], s)
  | [] => Some ([], s)
  end.

Definition number_exp (s : list Z) : option (list Z * list Z) :=
  match s with
  | c :: r =>
      if one_of [101; 69] c then
        let '(esign, r') :=
          match r with
          | g :: r' => if one_of [43; 45] g then ([g], r') else ([], r)
          | [] => ([], r)
          end in
        match span_digits r' with
        | ([], _) => None
        | (ds, rest) => Some (c :: esign ++ ds, rest)
        end
      else Some ([], s)
  | [] => Some ([], s)
  end.

Definition parse_number (s : list Z) : option (list Z * list Z) :=
  let '(sign, s1) := number_sign s in
  match number_int s1 with
  | None => None
  | Some (int, s2) =>
      match number_frac s2 with
      | None => None
      | Some (frac, s3) =>
          match number_exp s3 with
          | None => None
          | Some (exp, s4) => Some (sign ++ int ++ frac ++ exp, s4)
          end
      end
  end.

(** The elements of an array after the first has been found to exist,
    up to and including the closing bracket. *)
Fixpoint parse_elements (pv : list Z -> option (value * list Z))
    (fuel : nat) (s : list Z) : option (list value * list Z) :=
  match fuel with
  | O => None
  | S fuel' =>
      match pv s with
      | None => None
      | Some (v, r) =>
          match skip_ws r with
          | [] => None
          | d :: r' =>
              if d =? 44 then
                match parse_elements pv fuel' r' with
                | Some (vs, rest) => Some (v :: vs, rest)
                | None => None
                end
              else if d =? 93 then Some ([v], r')
              else None
          end
      end
  end.

(** The members of an object, up to and including the closing brace. *)
Fixpoint parse_members (pv : list Z -> option (value * list Z))
    (fuel : nat) (s : list Z) : option (list (list Z * value) * list Z) :=
  match fuel with
  | O => None
  | S fuel' =>
      match skip_ws s with
      | [] => None
      | q :: r =>
          if q =? 34 then
            match parse_string r with
            | None => None
            | Some (key, r1) =>
                match skip_ws r1 with
                | [] => None
                | colon :: r2 =>
                    if colon =? 58 then
                      match pv r2 with
                      | None => None
                      | Some (v, r3) =>
                          match skip_ws r3 with
                          | [] => None
                          | d :: r4 =>
                              if d =? 44 then
                                match parse_members pv fuel' r4 with
                                | Some (ms, rest) => Some ((key, v) :: ms, rest)
                                | None => None
                                end
                              else if d =? 125 then Some ([(key, v)], r4)
                              else None
                          end
                      end
                    else None
                end
            end
          else None
      end
  end.

Fixpoint parse_value (fuel : nat) (s : list Z) : option (value * list Z) :=
  match fuel with
  | O => None
  | S fuel' =>
      match skip_ws s with
      | [] => None
      | c :: r =>
          if c =? 34 then
            match parse_string r with
            | Some (str, rest) => Some (JString str, rest)
            | None => None
            end
          else if c =? 91 then
            match skip_ws r with
            | [] => None
            | d :: r' =>
                if d =? 93 then Some (JArray [], r')
                else
                  match parse_elements (parse_value fuel') fuel' (d :: r') with
                  | Some (vs, rest) => Some (JArray vs, rest)
                  | None => None
                  end
            end
          else if c =? 123 then
            match skip_ws r with
            | [] => None
            | d :: r' =>
                if d =? 125 then Some (JObject [], r')
                else
                  match parse_members (parse_value fuel') fuel' (d :: r') with
                  | Some (ms, rest) => Some (JObject ms, rest)
                  | None => None
                  end
            end
          else if c =? 116 then
            match strip_prefix (lit "rue") r with
            | Some rest => Some (JBool true, rest)
            | None => None
            end
          else if c =? 102 then
            match strip_prefix (lit "alse") r with
            | Some rest => Some (JBool false, rest)
            | None => None
            end
          else if c =? 110 then
            match strip_prefix (lit "ull") r with
            | Some rest => Some (JNull, rest)
            | None => None
            end
          else
            match parse_number (c :: r) with
            | Some (lexeme, rest) => Some (JNumber lexeme, rest)
            | None => None
            end
      end
  end.

(** [JSON.parse(text)]: one value, then nothing but white space.  Every
    nested value and every element takes at least one character, so the
    length of the text bounds the recursion. *)
Definition parse (text : list Z) : result value :=
  match parse_value (S (length text)) text with
  | Some (v, rest) =>
      match skip_ws rest with
      | [] => Ok v
      | _ :: _ => Throw SyntaxError
      end
  | None => Throw SyntaxError
  end.

(** *** Reading parsed values *)

(** The value of own property [k]: with a repeated key the last member
    wins; [None] is [undefined]. *)
Fixpoint lookup_member (k : list Z) (ms : list (list Z * value))
  : option value :=
  match ms with
  | [] => None
  | (k', v) :: rest =>
      match lookup_member k rest with
      | Some later => Some later
      | None => if str_eqb k k' then Some v else None
      end
  end.

(** [v.k] for a property name that no prototype defines. *)
Definition get (k : list Z) (v : value) : option value :=
  match v with
  | JObject ms => lookup_member k ms
  | _ => None
  end.

(** [Object.keys(v).length]: [null] throws; numbers and booleans have no
    own keys; a string and an array have one per index; an object has its
    distinct member names. *)
Definition keys_length (v : value) : result nat :=
  match v with
  | JNull => Throw TypeError
  | JBool _ | JNumber _ => Ok 0%nat
  | JString s => Ok (length s)
  | JArray items => Ok (length items)
  | JObject ms => Ok (length (remove_dups (fst <$> ms)))
  end.

End Json.

(** ** The generator component *)

Module QrGenerator.

Inductive QrCodeType :=
| URL | Text | WiFi | Email | SMS | Geo | VCard | Event | WhatsApp | LinkFolio.

(** One entry of [qrData.links]. *)
Record Link := { link_title : list Z; link_url : list Z }.

(** [qrData]: the string fields by field id, and the [links] array of the
    link folio form; a missing entry is [undefined]. *)
Record QrData := {
  qr_fields : gmap string (list Z);
  qr_links : option (list Link)
}.

(** The object literal [{ profileImageUrl, name, title, links }]. *)
Record FolioData := {
  profileImageUrl : option (list Z);
  name : option (list Z);
  title : option (list Z);
  links : list Link
}.

(** What [setError] shows: the message of a caught error, or a literal. *)
Inductive ErrorText :=
| MessageOf (e : exn)
| Literal (s : string).

(** [e instanceof Error ? e.message : fallback] *)
Definition message_or (fallback : string) (e : exn) : ErrorText :=
  match e with
  | NotAnError => Literal fallback
  | Error m => Literal m
  | _ => MessageOf e
  end.

Inductive Status := Idle | Success | Failed.

Definition formatDateTimeForICS (dateTime : option (list Z)) : list Z :=
  match dateTime with
  | Some (c :: s) =>
      match split 46 (replace_class_empty (one_of [45; 58]) (c :: s)) with
      | first :: _ => first ++ lit "Z"
      | [] => lit "undefinedZ"
      end
  | _ => []
  end.

Definition utf8ToBase64 (str : list Z) : result (list Z) :=
  try_catch
    (bind (Uri.encodeURIComponent str) (fun e => Base64.btoa (Uri.unescape e)))
    (fun _ => Throw (Error
       "Could not encode data for QR code. Please check for unsupported characters.")).

(** [JSON.stringify] on a link and on the folio object: own properties in
    the order of the literal, [undefined] ones left out. *)
Definition stringify_link (l : Link) : list Z :=
  Json.stringify_object
    [(lit "title", Json.stringify_string (Some (link_title l)));
     (lit "url", Json.stringify_string (Some (link_url l)))].

Definition stringify_folio (d : FolioData) : list Z :=
  Json.stringify_object
    [(lit "profileImageUrl", Json.stringify_string (profileImageUrl d));
     (lit "name", Json.stringify_string (name d));
     (lit "title", Json.stringify_string (title d));
     (lit "links", Some (Json.stringify_array (stringify_link <$> links d)))].

Definition valid_link (l : Link) : bool :=
  truthy (Some (link_title l)) && truthy (Some (link_url l)).

(** The first four statements of the link folio case: the folio object
    of the valid links, its JSON text, and the base64 of that text. *)
Definition folio_data (qrData : QrData) : FolioData :=
  let validLinks := List.filter valid_link (default [] (qr_links qrData)) in
  {| profileImageUrl := qr_fields qrData !! "profileImageUrl";
     name := qr_fields qrData !! "name";
     title := qr_fields qrData !! "title";
     links := validLinks |}.

Definition folio_token (qrData : QrData) : result (list Z) :=
  let jsonString := stringify_folio (folio_data qrData) in
  utf8ToBase64 jsonString.

Definition newline : list Z := [10].

(** The body of the [try] block of the payload effect, up to the value
    it computes; [href] is [window.location.href]. *)
Definition encode (href : list Z) (qrType : QrCodeType) (qrData : QrData)
  : result (list Z) :=
  let field (id : string) := qr_fields qrData !! id in
  match qrType with
  | URL => Ok (or_else (field "url") [])
  | Text => Ok (or_else (field "text") [])
  | WiFi =>
      let enc := or_else (field "encryption") (lit "WPA") in
      let wifiString :=
        lit "WIFI:S:" ++ or_else (field "ssid") [] ++ lit ";T:" ++ enc ++ lit ";" in
      let wifiString :=
        if negb (str_eqb enc (lit "nopass")) && truthy (field "password")
        then wifiString ++ lit "P:" ++ default [] (field "password") ++ lit ";"
        else wifiString in
      Ok (wifiString ++ lit ";")
  | Email =>
      bind (Uri.encodeURIComponent (or_else (field "subject") [])) (fun subject =>
      bind (Uri.encodeURIComponent (or_else (field "body") [])) (fun body =>
      Ok (lit "mailto:" ++ or_else (field "email") [] ++ lit "?subject=" ++ subject
          ++ lit "&body=" ++ body)))
  | SMS =>
      bind (Uri.encodeURIComponent (or_else (field "message") [])) (fun message =>
      Ok (lit "smsto:" ++ or_else (field "phone") [] ++ lit ":" ++ message))
  | Geo =>
      Ok (lit "geo:" ++ or_else (field "latitude") [] ++ lit ","
          ++ or_else (field "longitude") [])
  | VCard =>
      Ok (lit "BEGIN:VCARD" ++ newline
          ++ lit "VERSION:3.0" ++ newline
          ++ lit "N:" ++ or_else (field "lastName") [] ++ lit ";"
          ++ or_else (field "firstName") [] ++ newline
          ++ lit "FN:" ++ or_else (field "firstName") [] ++ lit " "
          ++ or_else (field "lastName") [] ++ newline
          ++ lit "ORG:" ++ or_else (field "organization") [] ++ newline
          ++ lit "TITLE:" ++ or_else (field "title") [] ++ newline
          ++ lit "TEL;TYPE=WORK,VOICE:" ++ or_else (field "phone") [] ++ newline
          ++ lit "EMAIL:" ++ or_else (field "email") [] ++ newline
          ++ lit "URL:" ++ or_else (field "website") [] ++ newline
          ++ lit "END:VCARD")
  | Event =>
      Ok (lit "BEGIN:VEVENT" ++ newline
          ++ lit "SUMMARY:" ++ or_else (field "summary") [] ++ newline
          ++ lit "LOCATION:" ++ or_else (field "location") [] ++ newline
          ++ lit "DTSTART:" ++ formatDateTimeForICS (field "dtstart") ++ newline
          ++ lit "DTEND:" ++ formatDateTimeForICS (field "dtend") ++ newline
          ++ lit "DESCRIPTION:" ++ or_else (field "description") [] ++ newline
          ++ lit "END:VEVENT")
  | WhatsApp =>
      let cleanPhone :=
        replace_class_empty (fun c => negb (is_digit c)) (or_else (field "phone") []) in
      let waUrl := lit "https://wa.me/" ++ cleanPhone in
      if truthy (field "message") then
        bind (Uri.encodeURIComponent (default [] (field "message"))) (fun message =>
        Ok (waUrl ++ lit "?text=" ++ message))
      else Ok waUrl
  | LinkFolio =>
      bind (folio_token qrData) (fun base64String =>
      let baseAppUrl :=
        match split 63 href with
        | first :: _ => first
        | [] => lit "undefined"
        end in
      bind (Uri.encodeURIComponent base64String) (fun token =>
      Ok (baseAppUrl ++ lit "?folio=" ++ token)))
  end.

(** The component state the effects and handlers below read and write. *)
Record State := {
  qrType : QrCodeType;
  qrData : QrData;
  qrValue : list Z;
  error : option ErrorText;
  aiQrImage : option (list Z);
  validationStatus : Status
}.

Definition set_error (e : option ErrorText) (st : State) : State :=
  {| qrType := qrType st; qrData := qrData st; qrValue := qrValue st;
     error := e; aiQrImage := aiQrImage st;
     validationStatus := validationStatus st |}.

(** [setQrValue(current => { if (current !== value) { setAiQrImage(null);
    setValidationStatus('idle') } return value })] *)
Definition set_qr_value_resetting (value : list Z) (st : State) : State :=
  if str_eqb (qrValue st) value then st
  else
    {| qrType := qrType st; qrData := qrData st; qrValue := value;
       error := error st; aiQrImage := None; validationStatus := Idle |}.

Definition clear_qr_value (st : State) : State :=
  {| qrType := qrType st; qrData := qrData st; qrValue := [];
     error := error st; aiQrImage := aiQrImage st;
     validationStatus := validationStatus st |}.

(** ToBoolean on the [error] state: [null] and the empty text are false. *)
Definition shown (e : option ErrorText) : bool :=
  match e with
  | None => false
  | Some (Literal s) => negb (String.eqb s "")
  | Some (MessageOf _) => true
  end.

(** The payload effect, run when [qrData] or [qrType] changes. *)
Definition payload_effect (href : list Z) (st : State) : State :=
  match encode href (qrType st) (qrData st) with
  | Ok value =>
      let st1 := if shown (error st) then set_error None st else st in
      set_qr_value_resetting value st1
  | Throw e =>
      clear_qr_value
        (set_error
           (Some (message_or "An unknown error occurred while generating QR value." e))
           st)
  end.

End QrGenerator.

(** ** The folio page *)

Module FolioPage.

Definition base64ToUtf8 (str : list Z) : result (list Z) :=
  try_catch
    (bind (Base64.atob str) (fun bin => Uri.decodeURIComponent (Uri.escape bin)))
    (fun _ => Ok (lit "{}")).

(** The [try] block of the memo. *)
Definition parse_folio (encodedData : list Z) : result Json.value :=
  bind (base64ToUtf8 encodedData) (fun decodedString =>
  bind (Json.parse decodedString) (fun parsedData =>
  bind (Json.keys_length parsedData) (fun keys =>
  if (keys =? 0)%nat && (0 <? length encodedData)%nat
  then Throw (Error "Parsed data is empty but encoded data exists.")
  else Ok parsedData))).

(** The value of [data]: [None] is [null]. *)
Definition data (encodedData : list Z) : option Json.value :=
  if negb (truthy (Some encodedData)) then None
  else
    match parse_folio encodedData with
    | Ok parsedData => Some parsedData
    | Throw _ => None
    end.

End FolioPage.

(** ** The validation effect of the standard code *)

Module Validation.

Import QrGenerator.

(** What the timer callback meets when it runs: no canvas under the
    container (or no container), no 2d context, an exception from
    [getImageData] or [jsQR], or the result of [jsQR] ([None] is [null],
    [Some d] a code whose [data] is [d]). *)
Inductive Capture :=
| NoCanvas
| NoContext
| CaptureThrows
| Scanned (code : option (list Z)).

(** [qrValue] is the payload of the last committed render.  [timers]
    holds the pending timeouts by id, each with the [qrValue] its callback
    closed over; [cleanup] is the timeout the last effect run returned a
    [clearTimeout] for.  [effects_due] says that a render in which
    [qrValue] or [qrStyleOptions] changed has been committed and that its
    passive effects have not run yet: React runs them in a later task
    than the commit, so a timeout can come due in between. *)
Record Loop := {
  qrValue : list Z;
  instance : bool;
  standardQrValidationStatus : Status;
  timers : gmap nat (list Z);
  next_timer : nat;
  cleanup : option nat;
  effects_due : bool
}.

(** The body of the timeout callback. *)
Definition validation_callback (qrValue : list Z) (c : Capture) : Status :=
  match c with
  | NoCanvas => Failed
  | NoContext => Failed
  | CaptureThrows => Failed
  | Scanned (Some d) => if str_eqb d qrValue then Success else Failed
  | Scanned None => Failed
  end.

Definition run_cleanup (st : Loop) : Loop :=
  match cleanup st with
  | Some id =>
      {| qrValue := qrValue st; instance := instance st;
         standardQrValidationStatus := standardQrValidationStatus st;
         timers := delete id (timers st); next_timer := next_timer st;
         cleanup := None; effects_due := effects_due st |}
  | None => st
  end.

Definition validation_effect (st : Loop) : Loop :=
  if negb (truthy (Some (qrValue st))) || negb (instance st) then
    {| qrValue := qrValue st; instance := instance st;
       standardQrValidationStatus := Idle;
       timers := timers st; next_timer := next_timer st; cleanup := None;
       effects_due := effects_due st |}
  else
    let validationTimeout := next_timer st in
    {| qrValue := qrValue st; instance := instance st;
       standardQrValidationStatus := standardQrValidationStatus st;
       timers := <[validationTimeout := qrValue st]> (timers st);
       next_timer := S validationTimeout;
       cleanup := Some validationTimeout;
       effects_due := effects_due st |}.

(** A render with [value] as [qrValue] is committed, with a change of
    [qrValue] or [qrStyleOptions]. *)
Definition commit (value : list Z) (st : Loop) : Loop :=
  {| qrValue := value; instance := instance st;
     standardQrValidationStatus := standardQrValidationStatus st;
     timers := timers st; next_timer := next_timer st; cleanup := cleanup st;
     effects_due := true |}.

(** The passive effects of the committed render, when they are due: the
    cleanup of the last effect run, then the effect, which reads the
    [qrValue] of that render. *)
Definition flush (st : Loop) : Loop :=
  if effects_due st then
    let st' := validation_effect (run_cleanup st) in
    {| qrValue := qrValue st'; instance := instance st';
       standardQrValidationStatus := standardQrValidationStatus st';
       timers := timers st'; next_timer := next_timer st';
       cleanup := cleanup st'; effects_due := false |}
  else st.

(** What happens to the loop: a render is committed, the passive effects
    of the committed render run, or a timeout comes due. *)
Inductive Event :=
| Commit (value : list Z)
| Flush
| TimerFires (id : nat) (c : Capture).

(** React runs the passive effects that are still due before it renders
    again, so a commit comes after them; a timeout that is still pending
    runs its callback, whether or not effects are due. *)
Definition step (st : Loop) (ev : Event) : Loop :=
  match ev with
  | Commit value => commit value (flush st)
  | Flush => flush st
  | TimerFires id c =>
      match timers st !! id with
      | Some captured =>
          {| qrValue := qrValue st; instance := instance st;
             standardQrValidationStatus := validation_callback captured c;
             timers := delete id (timers st); next_timer := next_timer st;
             cleanup := cleanup st; effects_due := effects_due st |}
      | None => st
      end
  end.

Definition run (st : Loop) (evs : list Event) : Loop := foldl step st evs.

(** The loop after the first render and its effects. *)
Definition mount (instance : bool) : Loop :=
  flush
    {| qrValue := lit "https://ai.google.dev"; instance := instance;
       standardQrValidationStatus := Idle; timers := ∅; next_timer := 0%nat;
       cleanup := None; effects_due := true |}.

End Validation.

(** ** The batch export *)

Module ExportPipeline.

Import QrGenerator.

Inductive Stage := StagePng | StageSvg | StageAi | StageCompress.

(** What the awaited calls of one export settle to: [getRawData('png')],
    [getRawData('svg')], [(await fetch(aiQrImage)).blob()] and
    [zip.generateAsync] on the files added so far.  [Ok None] is a
    resolved [null]. *)
Record Capabilities := {
  raw_png : result (option (list Z));
  raw_svg : result (option (list Z));
  fetched_ai : result (option (list Z));
  generateAsync : list (string * list Z) -> result (list Z)
}.

(** The observable course of one export: every [setError] and
    [setExportProgress] call in order, the awaited calls made, the files
    of the [JSZip] object, the downloads started, [isExporting], and
    whether the closing timeout has been set. *)
Record Run := {
  error_calls : list (option ErrorText);
  progress_calls : list (Z * string);
  invoked : list Stage;
  zip : list (string * list Z);
  downloads : list (string * list Z);
  isExporting : bool;
  reset_pending : bool
}.

Definition start : Run :=
  {| error_calls := []; progress_calls := []; invoked := []; zip := [];
     downloads := []; isExporting := false; reset_pending := false |}.

(** State and exceptions of the handler body. *)
Definition M (A : Type) : Type := Run -> Run * result A.

Definition ret {A} (a : A) : M A := fun r => (r, Ok a).

Definition bindM {A B} (m : M A) (k : A -> M B) : M B :=
  fun r => match m r with
           | (r', Ok a) => k a r'
           | (r', Throw e) => (r', Throw e)
           end.

Definition catch {A} (m : M A) (h : exn -> M A) : M A :=
  fun r => match m r with
           | (r', Ok a) => (r', Ok a)
           | (r', Throw e) => h e r'
           end.

Definition finally {A} (m : M A) (f : M unit) : M A :=
  fun r => match m r with
           | (r', res) =>
               match f r' with
               | (r'', Ok _) => (r'', res)
               | (r'', Throw e) => (r'', Throw e)
               end
           end.

#[local] Instance M_ret : MRet M := @ret.
#[local] Instance M_bind : MBind M := fun A B k m => bindM m k.

Definition setError (e : option ErrorText) : M unit := fun r =>
  ({| error_calls := error_calls r ++ [e]; progress_calls := progress_calls r;
      invoked := invoked r; zip := zip r; downloads := downloads r;
      isExporting := isExporting r; reset_pending := reset_pending r |}, Ok tt).

Definition setExportProgress (percentage : Z) (message : string) : M unit :=
  fun r =>
  ({| error_calls := error_calls r;
      progress_calls := progress_calls r ++ [(percentage, message)];
      invoked := invoked r; zip := zip r; downloads := downloads r;
      isExporting := isExporting r; reset_pending := reset_pending r |}, Ok tt).

Definition setIsExporting (b : bool) : M unit := fun r =>
  ({| error_calls := error_calls r; progress_calls := progress_calls r;
      invoked := invoked r; zip := zip r; downloads := downloads r;
      isExporting := b; reset_pending := reset_pending r |}, Ok tt).

(** [await] of a call belonging to stage [s]. *)
Definition await {A} (s : Stage) (settled : result A) : M A := fun r =>
  ({| error_calls := error_calls r; progress_calls := progress_calls r;
      invoked := invoked r ++ [s]; zip := zip r; downloads := downloads r;
      isExporting := isExporting r; reset_pending := reset_pending r |}, settled).

(** [zip.file(name, blob)]: the entry of that name is set. *)
Definition zip_file (name : string) (blob : list Z) : M unit := fun r =>
  ({| error_calls := error_calls r; progress_calls := progress_calls r;
      invoked := invoked r;
      zip := List.filter (fun f => negb (String.eqb (fst f) name)) (zip r)
             ++ [(name, blob)];
      downloads := downloads r;
      isExporting := isExporting r; reset_pending := reset_pending r |}, Ok tt).

Definition downloadUrl (content : list Z) (fileName : string) : M unit :=
  fun r =>
  ({| error_calls := error_calls r; progress_calls := progress_calls r;
      invoked := invoked r; zip := zip r;
      downloads := downloads r ++ [(fileName, content)];
      isExporting := isExporting r; reset_pending := reset_pending r |}, Ok tt).

(** [setTimeout(() => { setIsExporting(false); setExportProgress(null) }, 2000)] *)
Definition schedule_reset : M unit := fun r =>
  ({| error_calls := error_calls r; progress_calls := progress_calls r;
      invoked := invoked r; zip := zip r; downloads := downloads r;
      isExporting := isExporting r; reset_pending := true |}, Ok tt).

(** [const zip = new JSZip()] *)
Definition new_zip : M unit := fun r =>
  ({| error_calls := error_calls r; progress_calls := progress_calls r;
      invoked := invoked r; zip := []; downloads := downloads r;
      isExporting := isExporting r; reset_pending := reset_pending r |}, Ok tt).

Definition get_zip : M (list (string * list Z)) := fun r => (r, Ok (zip r)).

Definition add_if_present (name : string) (blob : option (list Z)) : M unit :=
  match blob with
  | Some b => zip_file name b
  | None => ret tt
  end.

(** The handler; the 200 ms pauses between the steps do nothing but
    wait.  [qrValue], [instance] and [aiQrImage] are the values of the
    render the handler belongs to. *)
Definition handleBatchExport (qrValue : list Z) (instance : bool)
    (aiQrImage : option (list Z)) (cap : Capabilities) : M unit :=
  if negb (truthy (Some qrValue)) || negb instance then
    setError (Some (Literal "Please generate a QR code first."))
  else
    setIsExporting true ;;
    setError None ;;
    setExportProgress 0 "Starting export..." ;;
    new_zip ;;
    finally
      (catch
         (setExportProgress 10 "Adding standard-qr.png..." ;;
          pngBlob ← await StagePng (raw_png cap) ;
          add_if_present "standard-qr.png" pngBlob ;;
          setExportProgress 30 "Adding standard-qr.svg..." ;;
          svgBlob ← await StageSvg (raw_svg cap) ;
          add_if_present "standard-qr.svg" svgBlob ;;
          (if truthy aiQrImage then
             setExportProgress 60 "Adding ai-art-qr.png..." ;;
             aiBlob ← await StageAi (fetched_ai cap) ;
             add_if_present "ai-art-qr.png" aiBlob
           else mret tt) ;;
          setExportProgress 90 "Compressing files..." ;;
          files ← get_zip ;
          content ← await StageCompress (generateAsync cap files) ;
          setExportProgress 100 "Download starting..." ;;
          downloadUrl content "qr-master-pro-export.zip")
         (fun err => setError (Some (message_or "Failed to create ZIP file." err))))
      schedule_reset.

(** The files of the archive once the stages before compression have
    resolved: a stage that resolved to [null] adds nothing. *)
Definition files_of (blobs : list (string * option (list Z)))
  : list (string * list Z) :=
  omap (fun nb => match snd nb with
                  | Some b => Some (fst nb, b)
                  | None => None
                  end) blobs.

(** The stage whose awaited call is the first to reject, with the value
    it rejected with; the overlay stage only runs when an overlay image
    exists. *)
Definition first_failure (aiQrImage : option (list Z)) (cap : Capabilities)
  : option (Stage * exn) :=
  let compress files :=
    match generateAsync cap (files_of files) with
    | Throw e => Some (StageCompress, e)
    | Ok _ => None
    end in
  match raw_png cap with
  | Throw e => Some (StagePng, e)
  | Ok pngBlob =>
      match raw_svg cap with
      | Throw e => Some (StageSvg, e)
      | Ok svgBlob =>
          if truthy aiQrImage then
            match fetched_ai cap with
            | Throw e => Some (StageAi, e)
            | Ok aiBlob =>
                compress [("standard-qr.png"%string, pngBlob);
                          ("standard-qr.svg"%string, svgBlob);
                          ("ai-art-qr.png"%string, aiBlob)]
            end
          else
            compress [("standard-qr.png"%string, pngBlob);
                      ("standard-qr.svg"%string, svgBlob)]
      end
  end.

(** The artifact a stage adds to the archive, if it adds one. *)
Definition artifact_of (s : Stage) : option string :=
  match s with
  | StagePng => Some "standard-qr.png"%string
  | StageSvg => Some "standard-qr.svg"%string
  | StageAi => Some "ai-art-qr.png"%string
  | StageCompress => None
  end.

Definition stage_index (s : Stage) : nat :=
  match s with
  | StagePng => 0
  | StageSvg => 1
  | StageAi => 2
  | StageCompress => 3
  end.

End ExportPipeline.

(** ** URLSearchParams *)

Module UrlSearch.

(** The UTF-8 encoding of a string taken as a USVString: an unpaired
    surrogate is encoded as U+FFFD. *)
Fixpoint utf8_encode (s : list Z) : list Z :=
  match s with
  | [] => []
  | c :: r =>
      if is_high_surrogate c then
        match r with
        | d :: r' =>
            if is_low_surrogate d then
              Uri.utf8_octets (pair_code_point c d) ++ utf8_encode r'
            else Uri.utf8_octets 0xFFFD ++ utf8_encode r
        | [] => Uri.utf8_octets 0xFFFD
        end
      else if is_low_surrogate c then Uri.utf8_octets 0xFFFD ++ utf8_encode r
      else Uri.utf8_octets c ++ utf8_encode r
  end.

(** Percent-decoding of a byte sequence: a ["%"] not followed by two
    hexadecimal digits stays. *)
Fixpoint percent_decode (bytes : list Z) : list Z :=
  match bytes with
  | [] => []
  | b :: r =>
      if b =? 37 then
        match r with
        | x :: y :: r' =>
            match hex2 x y with
            | Some v => v :: percent_decode r'
            | None => b :: percent_decode r
            end
        | _ => b :: percent_decode r
        end
      else b :: percent_decode r
  end.

(** The state of the UTF-8 decoder. *)
Record Decoder := {
  code_point : Z;
  bytes_seen : Z;
  bytes_needed : Z;
  lower_boundary : Z;
  upper_boundary : Z
}.

Definition initial : Decoder :=
  {| code_point := 0; bytes_seen := 0; bytes_needed := 0;
     lower_boundary := 0x80; upper_boundary := 0xBF |}.

(** A byte met while no sequence is open: the code points emitted and the
    decoder after it. *)
Definition lead (byte : Z) : list Z * Decoder :=
  if in_range 0x00 byte 0x7F then ([byte], initial)
  else if in_range 0xC2 byte 0xDF then
    ([], {| code_point := Z.land byte 0x1F; bytes_seen := 0; bytes_needed := 1;
            lower_boundary := 0x80; upper_boundary := 0xBF |})
  else if in_range 0xE0 byte 0xEF then
    ([], {| code_point := Z.land byte 0xF; bytes_seen := 0; bytes_needed := 2;
            lower_boundary := if byte =? 0xE0 then 0xA0 else 0x80;
            upper_boundary := if byte =? 0xED then 0x9F else 0xBF |})
  else if in_range 0xF0 byte 0xF4 then
    ([], {| code_point := Z.land byte 0x7; bytes_seen := 0; bytes_needed := 3;
            lower_boundary := if byte =? 0xF0 then 0x90 else 0x80;
            upper_boundary := if byte =? 0xF4 then 0x8F else 0xBF |})
  else ([0xFFFD], initial).

(** The decoder with replacement: a byte that cannot continue the open
    sequence ends it with U+FFFD and is read again as a first byte; an
    unfinished sequence at the end gives U+FFFD. *)
Fixpoint utf8_decode (d : Decoder) (bytes : list Z) : list Z :=
  match bytes with
  | [] => if bytes_needed d =? 0 then [] else [0xFFFD]
  | byte :: r =>
      if bytes_needed d =? 0 then
        let (out, d') := lead byte in out ++ utf8_decode d' r
      else if negb (in_range (lower_boundary d) byte (upper_boundary d)) then
        let (out, d') := lead byte in 0xFFFD :: out ++ utf8_decode d' r
      else
        let cp := Z.lor (Z.shiftl (code_point d) 6) (Z.land byte 0x3F) in
        if bytes_seen d + 1 =? bytes_needed d then cp :: utf8_decode initial r
        else
          utf8_decode
            {| code_point := cp; bytes_seen := bytes_seen d + 1;
               bytes_needed := bytes_needed d;
               lower_boundary := 0x80; upper_boundary := 0xBF |} r
  end.

(** UTF-8 decode without BOM, as a string. *)
Definition utf8_decode_without_BOM (bytes : list Z) : list Z :=
  flat_map utf16_encode (utf8_decode initial bytes).

(** The name up to the first ["="] and the value after it. *)
Fixpoint split_pair (bytes : list Z) : list Z * list Z :=
  match bytes with
  | [] => ([], [])
  | b :: r =>
      if b =? 61 then ([], r)
      else let (name, value) := split_pair r in (b :: name, value)
  end.

Definition plus_to_space (bytes : list Z) : list Z :=
  (fun b => if b =? 43 then 32 else b) <$> bytes.

Definition decode_component (bytes : list Z) : list Z :=
  utf8_decode_without_BOM (percent_decode (plus_to_space bytes)).

(** The application/x-www-form-urlencoded parser. *)
Definition parse_urlencoded (input : list Z) : list (list Z * list Z) :=
  omap (fun bytes =>
          match bytes with
          | [] => None
          | _ :: _ =>
              let (name, value) := split_pair bytes in
              Some (decode_component name, decode_component value)
          end)
       (split 38 input).

(** [new URLSearchParams(init)] for a string. *)
Definition URLSearchParams (init : list Z) : list (list Z * list Z) :=
  let init :=
    match init with
    | c :: r => if c =? 63 then r else init
    | [] => init
    end in
  parse_urlencoded (utf8_encode init).

(** [params.get(name)]: the value of the first pair of that name;
    [None] is [null]. *)
Definition get (name : list Z) (params : list (list Z * list Z))
  : option (list Z) :=
  snd <$> List.find (fun p => str_eqb (fst p) name) params.

End UrlSearch.

(** ** The query of the page address *)

Module Location.

(** The part of a string before the first [sep], and the part after it
    ([None] when there is none). *)
Fixpoint up_to (sep : Z) (s : list Z) : list Z :=
  match s with
  | [] => []
  | c :: r => if c =? sep then [] else c :: up_to sep r
  end.

Fixpoint from_first (sep : Z) (s : list Z) : option (list Z) :=
  match s with
  | [] => None
  | c :: r => if c =? sep then Some r else from_first sep r
  end.

(** What the URL parser removes from its input: leading and trailing C0
    controls and spaces, and every ASCII tab or newline. *)
Definition c0_control_or_space (c : Z) : bool := in_range 0x00 c 0x20.

Definition tab_or_newline (c : Z) : bool := one_of [9; 10; 13] c.

Fixpoint drop_leading (s : list Z) : list Z :=
  match s with
  | [] => []
  | c :: r => if c0_control_or_space c then drop_leading r else s
  end.

Definition trim (s : list Z) : list Z := rev (drop_leading (rev (drop_leading s))).

(** The special-query percent-encode set: C0 controls, space, the double
    quote, [#], [<], [>], the apostrophe and everything above [~]. *)
Definition in_query_set (cp : Z) : bool :=
  (cp <=? 0x20) || (0x7E <? cp) || one_of [0x22; 0x23; 0x3C; 0x3E; 0x27] cp.

(** The query as the parser keeps it: the code points of the set are
    replaced by their percent-encoded UTF-8 octets, an unpaired surrogate
    by those of U+FFFD. *)
Fixpoint encode_query (s : list Z) : list Z :=
  match s with
  | [] => []
  | c :: r =>
      if is_high_surrogate c then
        match r with
        | d :: r' =>
            if is_low_surrogate d then
              flat_map Uri.percent (Uri.utf8_octets (pair_code_point c d))
              ++ encode_query r'
            else flat_map Uri.percent (Uri.utf8_octets 0xFFFD) ++ encode_query r
        | [] => flat_map Uri.percent (Uri.utf8_octets 0xFFFD)
        end
      else if is_low_surrogate c then
        flat_map Uri.percent (Uri.utf8_octets 0xFFFD) ++ encode_query r
      else if in_query_set c then
        flat_map Uri.percent (Uri.utf8_octets c) ++ encode_query r
      else c :: encode_query r
  end.

(** [window.location.search] of a page opened at [url], an address with
    a special scheme (http, https, file) that the URL parser accepts: the
    fragment starts at the first ["#"], the query at the first ["?"] before
    it; [search] is the empty string for no query or an empty one, and
    ["?"] followed by the query otherwise. *)
Definition search (url : list Z) : list Z :=
  let input := List.filter (fun c => negb (tab_or_newline c)) (trim url) in
  match from_first 63 (up_to 35 input) with
  | Some (c :: query) => 63 :: encode_query (c :: query)
  | _ => []
  end.

End Location.

(** ** The application shell *)

Module AppShell.

Inductive Screen :=
| FolioScreen (encodedData : list Z)
| MainScreen.

(** The route check of [App]; [search] is [window.location.search]. *)
Definition App (search : list Z) : Screen :=
  let urlParams := UrlSearch.URLSearchParams search in
  let folioData := UrlSearch.get (lit "folio") urlParams in
  match folioData with
  | Some (c :: s) => FolioScreen (c :: s)
  | _ => MainScreen
  end.

(** The screen of a page opened at [url]. *)
Definition opened (url : list Z) : Screen := App (Location.search url).

End AppShell.

(** ** What the folio page renders *)

Module FolioRender.

Import Json.

Section Render.

(** ToBoolean of a parsed number, by its lexeme. *)
Variable number_truthy : list Z -> bool.

Definition value_truthy (v : value) : bool :=
  match v with
  | JNull => false
  | JBool b => b
  | JNumber lexeme => number_truthy lexeme
  | JString s => truthy (Some s)
  | JArray _ | JObject _ => true
  end.

(** [!data || Object.keys(data).length === 0]: whether the page shows the
    invalid-link screen. *)
Definition invalid_link (encodedData : list Z) : bool :=
  match FolioPage.data encodedData with
  | None => true
  | Some data =>
      negb (value_truthy data)
      || match keys_length data with
         | Ok keys => (keys =? 0)%nat
         | Throw _ => false
         end
  end.

End Render.

End FolioRender.

(** ** The table of code kinds *)

Module Constants.

Import QrGenerator.

#[global] Instance QrCodeType_eq_dec : EqDecision QrCodeType.
Proof. solve_decision. Defined.

Record QrFieldOption := { option_value : string; option_label : string }.

Record QrField := mkField {
  field_id : string;
  field_label : string;
  field_placeholder : option string;
  field_type : string;
  field_options : option (list QrFieldOption);
  field_optional : option bool
}.

Record QrCodeTypeInfo := {
  info_value : QrCodeType;
  info_label : string;
  info_fields : list QrField
}.

Definition QR_CODE_TYPES : list QrCodeTypeInfo :=
  [ {| info_value := URL; info_label := "Website URL";
       info_fields :=
         [ mkField "url" "URL" (Some "https://example.com") "text" None None ] |};
    {| info_value := LinkFolio; info_label := "Link Folio (Profile Page)";
       info_fields :=
         [ mkField "profileImageUrl" "Profile Image URL"
             (Some "https://example.com/image.png") "url" None None;
           mkField "name" "Name" (Some "John Doe") "text" None None;
           mkField "title" "Title / Bio"
             (Some "Software Engineer | Cat Enthusiast") "text" None None ] |};
    {| info_value := Text; info_label := "Plain Text";
       info_fields :=
         [ mkField "text" "Text" (Some "Enter your text here") "text" None None ] |};
    {| info_value := WiFi; info_label := "WiFi Network";
       info_fields :=
         [ mkField "ssid" "Network Name (SSID)" (Some "MyWiFiNetwork") "text"
             None None;
           mkField "password" "Password" (Some "YourPassword") "text" None None;
           mkField "encryption" "Encryption" None "select"
             (Some [ {| option_value := "WPA"; option_label := "WPA/WPA2" |};
                     {| option_value := "WEP"; option_label := "WEP" |};
                     {| option_value := "nopass";
                        option_label := "No Encryption" |} ])
             None ] |};
    {| info_value := Email; info_label := "Email";
       info_fields :=
         [ mkField "email" "To Email" (Some "recipient@example.com") "email"
             None None;
           mkField "subject" "Subject" (Some "Email Subject") "text" None None;
           mkField "body" "Body" (Some "Email body text") "textarea" None
             (Some true) ] |};
    {| info_value := SMS; info_label := "SMS";
       info_fields :=
         [ mkField "phone" "Phone Number" (Some "+11234567890") "tel" None None;
           mkField "message" "Message" (Some "Your SMS message") "textarea"
             None None ] |};
    {| info_value := Geo; info_label := "Geo Location";
       info_fields :=
         [ mkField "latitude" "Latitude" (Some "34.052235") "number" None None;
           mkField "longitude" "Longitude" (Some "-118.243683") "number"
             None None ] |};
    {| info_value := VCard; info_label := "Contact Card (vCard)";
       info_fields :=
         [ mkField "firstName" "First Name" (Some "John") "text" None None;
           mkField "lastName" "Last Name" (Some "Doe") "text" None None;
           mkField "phone" "Phone" (Some "+15551234567") "tel" None None;
           mkField "email" "Email" (Some "john.doe@example.com") "email"
             None None;
           mkField "organization" "Organization" (Some "ACME Inc.") "text" None
             (Some true);
           mkField "title" "Title" (Some "Software Engineer") "text" None
             (Some true);
           mkField "website" "Website" (Some "https://example.com") "url" None
             (Some true) ] |};
    {| info_value := Event; info_label := "Calendar Event";
       info_fields :=
         [ mkField "summary" "Event Title" (Some "Team Meeting") "text"
             None None;
           mkField "dtstart" "Start Time" None "datetime-local" None None;
           mkField "dtend" "End Time" None "datetime-local" None None;
           mkField "location" "Location" (Some "Conference Room 1") "text" None
             (Some true);
           mkField "description" "Description"
             (Some "Discuss project milestones") "textarea" None (Some true) ] |};
    {| info_value := WhatsApp; info_label := "WhatsApp Chat";
       info_fields :=
         [ mkField "phone" "Phone Number (International format)"
             (Some "15551234567") "tel" None None;
           mkField "message" "Pre-filled Message" (Some "Hello!") "textarea"
             None (Some true) ] |} ].

(** ToBoolean of [field.optional]. *)
Definition is_optional (field : QrField) : bool :=
  default false (field_optional field).

(** [QR_CODE_TYPES.find(t => t.value === qrType)] *)
Definition type_info (qrType : QrCodeType) : option QrCodeTypeInfo :=
  List.find (fun t => bool_decide (info_value t = qrType)) QR_CODE_TYPES.

End Constants.

(** ** The handlers of the generator form *)

Module FormHandlers.

Import QrGenerator Constants.

(** The form: the state the payload effect works on, and whether the
    advanced fields are unfolded. *)
Record Form := { state : State; showAdvanced : bool }.

(** The updater of [handleInputChange]; [field] is the id of a field of
    the table. *)
Definition handleInputChange (field : string) (value : list Z) (prev : QrData)
  : QrData :=
  {| qr_fields := <[field := value]> (qr_fields prev);
     qr_links := qr_links prev |}.

(** The value [handleTypeChange] gives a field; [options[0].value] on an
    empty array of options throws. *)
Definition default_value (field : QrField) : result (list Z) :=
  if String.eqb (field_id field) "url" then Ok (lit "https://ai.google.dev")
  else if String.eqb (field_type field) "select" then
    match field_options field with
    | Some (first :: _) => Ok (lit (option_value first))
    | Some [] => Throw TypeError
    | None => Ok []
    end
  else Ok [].

Fixpoint default_entries (fields : list QrField)
  : result (list (string * list Z)) :=
  match fields with
  | [] => Ok []
  | field :: rest =>
      bind (default_value field) (fun value =>
      rmap (cons (field_id field, value)) (default_entries rest))
  end.

(** [Object.fromEntries]: a later entry of the same key wins. *)
Definition fromEntries (entries : list (string * list Z))
  : gmap string (list Z) :=
  foldl (fun obj entry => <[fst entry := snd entry]> obj) ∅ entries.

Definition defaultData (newType : QrCodeType) : result QrData :=
  if bool_decide (newType = LinkFolio) then
    Ok {| qr_fields :=
            <["profileImageUrl" := []]> (<["name" := []]> (<["title" := []]> ∅));
          qr_links :=
            Some [ {| link_title := lit "Website"; link_url := lit "https://" |} ] |}
  else
    match type_info newType with
    | Some typeInfo =>
        rmap (fun entries => {| qr_fields := fromEntries entries; qr_links := None |})
             (default_entries (info_fields typeInfo))
    | None => Ok {| qr_fields := ∅; qr_links := None |}
    end.

Definition with_type_and_data (newType : QrCodeType) (data : QrData) (st : State)
  : State :=
  {| qrType := newType; qrData := data; qrValue := qrValue st;
     error := error st; aiQrImage := aiQrImage st;
     validationStatus := validationStatus st |}.

(** [handleTypeChange]: were the default data to throw, the two setters
    before it would still have run. *)
Definition handleTypeChange (newType : QrCodeType) (form : Form) : Form :=
  {| state :=
       match defaultData newType with
       | Ok data => with_type_and_data newType data (state form)
       | Throw _ => with_type_and_data newType (qrData (state form)) (state form)
       end;
     showAdvanced := false |}.

(** [addLink] and [removeLink]: [qrData] is the data of the render the
    handler belongs to, [prev] the data the updater is given; [index] is
    the position of a rendered row. *)
Definition addLink (qrData prev : QrData) : QrData :=
  let newLinks :=
    default [] (qr_links qrData) ++ [ {| link_title := []; link_url := [] |} ] in
  {| qr_fields := qr_fields prev; qr_links := Some newLinks |}.

Definition removeLink (index : nat) (qrData prev : QrData) : QrData :=
  let newLinks := delete index (default [] (qr_links qrData)) in
  {| qr_fields := qr_fields prev; qr_links := Some newLinks |}.

(** The fields [renderInputs] hands to [renderField], in the order they
    are rendered; [None] is the [null] of an unknown kind. *)
Definition visibleFields (qrType : QrCodeType) (qrData : QrData)
    (typeInfo : QrCodeTypeInfo) : list QrField :=
  if bool_decide (qrType = WiFi)
     && bool_decide (qr_fields qrData !! "encryption" = Some (lit "nopass"))
  then List.filter (fun field => negb (String.eqb (field_id field) "password"))
                   (info_fields typeInfo)
  else info_fields typeInfo.

Definition renderInputs (qrType : QrCodeType) (qrData : QrData)
    (showAdvanced : bool) : option (list QrField) :=
  match type_info qrType with
  | None => None
  | Some typeInfo =>
      if bool_decide (qrType = LinkFolio) then Some (info_fields typeInfo)
      else
        let visible := visibleFields qrType qrData typeInfo in
        let primaryFields := List.filter (fun field => negb (is_optional field)) visible in
        let advancedFields := List.filter is_optional visible in
        Some (primaryFields
              ++ (if showAdvanced && (0 <? length advancedFields)%nat
                  then advancedFields else []))
  end.

End FormHandlers.

(** ** Reading a blob as base64 *)

Module BlobReader.

(** What [readAsDataURL] ends with: the data URL, or an error. *)
Inductive Read :=
| Loaded (dataUrl : list Z)
| ReadFailed.

(** The [onloadend] handler, on [reader.result] ([None] is [null]): what
    it settles the promise with, were it the first to settle it.
    [Ok None] is a promise resolved with [undefined]. *)
Definition onloadend (readerResult : option (list Z))
  : result (option (list Z)) :=
  match readerResult with
  | Some text => Ok (split 44 text !! 1%nat)
  | None => Throw (Error "Failed to read blob as base64 string.")
  end.

(** [blobToBase64]: after a load the reader fires [loadend]; after a
    failure it fires [error], whose handler is [reject] and is given the
    event, and then [loadend] with a [null] result, when the promise is
    settled already. *)
Definition blobToBase64 (read : Read) : result (option (list Z)) :=
  match read with
  | Loaded dataUrl => onloadend (Some dataUrl)
  | ReadFailed => Throw NotAnError
  end.

End BlobReader.

(** ** The scanner component *)

Module QrScanner.

(** What loading and decoding an image ends with: the image does not
    load, there is no canvas, no 2d context, or the result of [jsQR]. *)
Inductive ImageScan :=
| LoadError
| NoCanvas
| NoContext
| Decoded (code : option (list Z)).

(** The [data] [scanImage] resolves with: [code?.data || null]. *)
Definition scanImage (outcome : ImageScan) : option (list Z) :=
  match outcome with
  | Decoded (Some (c :: data)) => Some (c :: data)
  | _ => None
  end.

(** The state of the component, and the handlers that have started and
    not yet finished: [cameras] counts the [startScan] calls awaiting the
    camera, [repairs] holds, for each [attemptAiRepair] call awaiting its
    image, the [failedUpload] that call read. *)
Record Scanner := {
  scannedData : option (list Z);
  error : option string;
  isScanning : bool;
  isAiRepairing : bool;
  failedUpload : option (list Z);
  cameras : nat;
  repairs : list (list Z)
}.

Definition initial : Scanner :=
  {| scannedData := None; error := None; isScanning := false;
     isAiRepairing := false; failedUpload := None; cameras := 0%nat;
     repairs := [] |}.

(** [startScan] up to its first [await]. *)
Definition startScan (s : Scanner) : Scanner :=
  {| scannedData := None; error := None; isScanning := isScanning s;
     isAiRepairing := isAiRepairing s; failedUpload := None;
     cameras := S (cameras s); repairs := repairs s |}.

(** What a [startScan] call meets after its awaits: a stream that plays,
    no video element, or a rejection of [getUserMedia] or [play]. *)
Inductive Camera := Plays | NoVideoElement | Rejected.

(** The rest of [startScan]. *)
Definition cameraSettles (camera : Camera) (s : Scanner) : Scanner :=
  match cameras s with
  | O => s
  | S waiting =>
      {| scannedData := scannedData s;
         error :=
           match camera with
           | Rejected =>
               Some "Could not access camera. Please grant permission and try again."%string
           | _ => error s
           end;
         isScanning :=
           match camera with
           | Plays => true
           | _ => isScanning s
           end;
         isAiRepairing := isAiRepairing s; failedUpload := failedUpload s;
         cameras := waiting; repairs := repairs s |}
  end.

Definition stopScan (s : Scanner) : Scanner :=
  {| scannedData := scannedData s; error := error s; isScanning := false;
     isAiRepairing := isAiRepairing s; failedUpload := failedUpload s;
     cameras := cameras s; repairs := repairs s |}.

(** One run of [tick] while scanning; [code] is what [jsQR] found in the
    frame, [None] also when the frame could not be read. *)
Definition tick (code : option (list Z)) (s : Scanner) : Scanner :=
  if isScanning s then
    match code with
    | Some data =>
        stopScan
          {| scannedData := Some data; error := error s; isScanning := isScanning s;
             isAiRepairing := isAiRepairing s; failedUpload := failedUpload s;
             cameras := cameras s; repairs := repairs s |}
    | None => s
    end
  else s.

(** The [onload] handler of [handleFileChange] once [scanImage] has
    settled (nothing is set before that); [pipeline] is what loading and
    decoding an image ends with, by its data URL. *)
Definition handleFileChange (pipeline : list Z -> ImageScan)
    (imageDataUrl : list Z) (s : Scanner) : Scanner :=
  if negb (truthy (Some imageDataUrl)) then s
  else
    match scanImage (pipeline imageDataUrl) with
    | Some data =>
        {| scannedData := Some data; error := None; isScanning := isScanning s;
           isAiRepairing := isAiRepairing s; failedUpload := None;
           cameras := cameras s; repairs := repairs s |}
    | None =>
        {| scannedData := None;
           error :=
             Some "No QR code found. You can try AI Repair on the uploaded image."%string;
           isScanning := isScanning s; isAiRepairing := isAiRepairing s;
           failedUpload := Some imageDataUrl;
           cameras := cameras s; repairs := repairs s |}
    end.

(** [repairQrCodeWithAI] resolves with the image it was given. *)
Definition repairQrCodeWithAI (imageDataUrl : list Z) : list Z := imageDataUrl.

(** [attemptAiRepair] up to its first [await]. *)
Definition attemptAiRepair (s : Scanner) : Scanner :=
  match failedUpload s with
  | Some (c :: u) =>
      {| scannedData := None; error := None; isScanning := isScanning s;
         isAiRepairing := true; failedUpload := failedUpload s;
         cameras := cameras s; repairs := repairs s ++ [c :: u] |}
  | _ =>
      {| scannedData := scannedData s;
         error :=
           Some "Please upload a damaged QR code image before attempting repair."%string;
         isScanning := isScanning s; isAiRepairing := isAiRepairing s;
         failedUpload := failedUpload s;
         cameras := cameras s; repairs := repairs s |}
  end.

(** The rest of the [attemptAiRepair] call at [index] of [repairs], once
    [repairQrCodeWithAI] and [scanImage] have settled. *)
Definition repairSettles (pipeline : list Z -> ImageScan) (index : nat)
    (s : Scanner) : Scanner :=
  match repairs s !! index with
  | None => s
  | Some failedUpload_read =>
      let repairedImage := repairQrCodeWithAI failedUpload_read in
      match scanImage (pipeline repairedImage) with
      | Some data =>
          {| scannedData := Some data; error := error s;
             isScanning := isScanning s; isAiRepairing := false;
             failedUpload := None;
             cameras := cameras s; repairs := delete index (repairs s) |}
      | None =>
          {| scannedData := scannedData s;
             error :=
               Some "AI Repair could not recover the QR code. This is a demo feature."%string;
             isScanning := isScanning s; isAiRepairing := false;
             failedUpload := failedUpload s;
             cameras := cameras s; repairs := delete index (repairs s) |}
      end
  end.

(** What happens to the scanner; the handlers that await run in two
    events, and any other event can come between the two. *)
Inductive Event :=
| StartScan
| CameraSettles (camera : Camera)
| StopScan
| Frame (code : option (list Z))
| Upload (imageDataUrl : list Z)
| Repair
| RepairSettles (index : nat).

Definition step (pipeline : list Z -> ImageScan) (s : Scanner) (ev : Event)
  : Scanner :=
  match ev with
  | StartScan => startScan s
  | CameraSettles camera => cameraSettles camera s
  | StopScan => stopScan s
  | Frame code => tick code s
  | Upload imageDataUrl => handleFileChange pipeline imageDataUrl s
  | Repair => attemptAiRepair s
  | RepairSettles index => repairSettles pipeline index s
  end.

Definition run (pipeline : list Z -> ImageScan) (evs : list Event) : Scanner :=
  foldl (step pipeline) initial evs.

End QrScanner.

(** * Vocabulary of the properties *)

Section JsTerms.

(** The code units of a string: each in [0, 65536). *)
Definition code_units (s : list Z) : Prop := Forall (fun c => 0 <= c < 65536) s.

End JsTerms.

Section EncoderTerms.

Import QrGenerator.

(** The [P:] segment of a WiFi payload. *)
Definition password_segment (password : option (list Z)) : list Z :=
  match password with
  | Some (c :: s) => lit "P:" ++ (c :: s) ++ lit ";"
  | _ => []
  end.

Definition wifi_example : QrData :=
  {| qr_fields := <["ssid" := lit "X"]> (<["encryption" := lit "nopass"]>
                    (<["password" := lit "secret"]> ∅));
     qr_links := None |}.

Definition wifi_default_example : QrData :=
  {| qr_fields := <["ssid" := lit "X"]> (<["password" := lit "secret"]> ∅);
     qr_links := None |}.

Definition wifi_wep_example : QrData :=
  {| qr_fields := <["ssid" := lit "Home"]> (<["encryption" := lit "WEP"]>
                    (<["password" := []]> ∅));
     qr_links := None |}.

Definition wifi_wpa_example : QrData :=
  {| qr_fields := <["ssid" := lit "Home"]> (<["password" := lit "pw"]> ∅);
     qr_links := None |}.

End EncoderTerms.

Section TimestampTerms.

Import QrGenerator.

(** The normal form as the specification words it: every ['-'] and [':']
    deleted, everything from the first ['.'] on dropped, ['Z'] appended. *)
Fixpoint drop_fraction (s : list Z) : list Z :=
  match s with
  | [] => []
  | c :: r => if c =? 46 then [] else c :: drop_fraction r
  end.

Definition ics_normalized (dateTime : list Z) : list Z :=
  drop_fraction (List.filter (fun c => negb (c =? 45) && negb (c =? 58)) dateTime)
  ++ lit "Z".

Definition ics_stamp (dateTime : option (list Z)) : list Z :=
  match dateTime with
  | Some (c :: s) => ics_normalized (c :: s)
  | _ => []
  end.

End TimestampTerms.

Section PayloadEffectTerms.

Import QrGenerator.

Definition folio_example_data : QrData :=
  {| qr_fields := <["name" := [74; 111; 115; 233; 32; 0xD83C; 0xDF89]]> ∅;
     qr_links := Some [ {| link_title := lit "Site"; link_url := lit "https://a.b" |};
                        {| link_title := []; link_url := lit "https://c.d" |} ] |}.

Definition state_one : State :=
  {| qrType := LinkFolio; qrData := folio_example_data; qrValue := lit "old";
     error := Some (Literal "stale"); aiQrImage := Some (lit "data:image/png;base64,AA");
     validationStatus := Success |}.

Definition state_two : State :=
  {| qrType := LinkFolio; qrData := folio_example_data; qrValue := [];
     error := None; aiQrImage := None; validationStatus := Idle |}.

End PayloadEffectTerms.

Section ValidationTerms.

Import QrGenerator Validation.

(** Every pending check is the one the next cleanup clears, and closed
    over a payload that is not empty. *)
Definition checks_registered (st : Loop) : Prop :=
  forall id captured,
    timers st !! id = Some captured -> cleanup st = Some id /\ captured <> [].

(** Once the effects of the committed render have run, every pending
    check closed over the payload of that render. *)
Definition checks_fresh (st : Loop) : Prop :=
  effects_due st = false ->
  forall id captured, timers st !! id = Some captured -> captured = qrValue st.

(** Once the effects of a render with an empty payload have run, the
    status is idle. *)
Definition idle_when_empty (st : Loop) : Prop :=
  effects_due st = false -> qrValue st = [] ->
  standardQrValidationStatus st = Idle.

Definition loop_invariants (st : Loop) : Prop :=
  checks_registered st /\ checks_fresh st /\ idle_when_empty st.





End ValidationTerms.

Section ExportTerms.

Import QrGenerator ExportPipeline.

(** The course of an export started from a clean slate. *)
Definition export_run (qrValue : list Z) (aiQrImage : option (list Z))
    (cap : Capabilities) : Run :=
  fst (handleBatchExport qrValue true aiQrImage cap start).

(** The error a failed export ends up showing. *)
Definition surfaced_error (r : Run) : option ErrorText :=
  match last (error_calls r) with
  | Some (Some text) => Some text
  | _ => None
  end.

(** The stages before [s] in the order of the handler. *)
Definition earlier (s' s : Stage) : Prop := (stage_index s' < stage_index s)%nat.

(** The statement that the error text names the stage: some reading of
    the text gives, for every failing export, the stage that failed. *)
Definition error_identifies_stage : Prop :=
  exists stage_of : ErrorText -> Stage,
    forall (aiQrImage : option (list Z)) (cap : Capabilities) stage e,
      first_failure aiQrImage cap = Some (stage, e) ->
      exists text,
        surfaced_error (export_run (lit "payload") aiQrImage cap) = Some text /\
        stage_of text = stage.

Definition png_rejects : Capabilities :=
  {| raw_png := Throw NotAnError; raw_svg := Ok (Some [1]);
     fetched_ai := Ok None; generateAsync := fun _ => Ok [] |}.

Definition svg_rejects : Capabilities :=
  {| raw_png := Ok (Some [1]); raw_svg := Throw NotAnError;
     fetched_ai := Ok None; generateAsync := fun _ => Ok [] |}.

End ExportTerms.

Section HexTerms.

Definition octet (b : Z) : Prop := 0 <= b < 256.

End HexTerms.

Section Utf8RoundTripTerms.

Import Uri.

(** A string with no unpaired surrogate. *)
Inductive well_formed : list Z -> Prop :=
| wf_nil : well_formed []
| wf_unit (c : Z) (s : list Z) :
    0 <= c < 65536 -> is_surrogate c = false -> well_formed s ->
    well_formed (c :: s)
| wf_pair (hi lo : Z) (s : list Z) :
    is_high_surrogate hi = true -> is_low_surrogate lo = true -> well_formed s ->
    well_formed (hi :: lo :: s).

End Utf8RoundTripTerms.

Section Base64Terms.

Import Base64.

(** The encoding without the padding. *)
Fixpoint b64_unpadded (l : list Z) : list Z :=
  match l with
  | [] => []
  | a :: r =>
      match r with
      | [] => [b64_char (a / 4); b64_char ((a mod 4) * 16)]
      | b :: r' =>
          match r' with
          | [] =>
              [b64_char (a / 4); b64_char ((a mod 4) * 16 + b / 16);
               b64_char ((b mod 16) * 4)]
          | c :: r'' =>
              b64_char (a / 4) :: b64_char ((a mod 4) * 16 + b / 16)
              :: b64_char ((b mod 16) * 4 + c / 64) :: b64_char (c mod 64)
              :: b64_unpadded r''
          end
      end
  end.

End Base64Terms.

Section JsonParseTerms.

Import Json.

(** [pv] reads [text] as [v] and leaves what follows. *)
Definition reads (pv : list Z -> option (value * list Z)) (text : list Z)
    (v : value) : Prop :=
  forall rest, pv (text ++ rest) = Some (v, rest).

(** The text of a member, and the members that are written. *)
Definition member_text (kt : list Z * list Z) : list Z :=
  quote (fst kt) ++ 58 :: snd kt.

Definition present (props : list (list Z * option (list Z)))
  : list (list Z * list Z) :=
  omap (fun kv => match snd kv with
                  | Some text => Some (fst kv, text)
                  | None => None
                  end) props.

(** A member is written as its key and the text of its value. *)
Definition member_reads (pv : list Z -> option (value * list Z))
    (kt : list Z * list Z) (kv : list Z * value) : Prop :=
  fst kt = fst kv /\ code_units (fst kt) /\ reads pv (snd kt) (snd kv).

(** [pv'] agrees with [pv] on the texts no longer than [bound], and [pv]
    uses up some of what it reads. *)
Definition agree_up_to (bound : nat) (pv pv' : list Z -> option (value * list Z))
  : Prop :=
  forall s, (length s <= bound)%nat ->
            pv' s = pv s /\
            forall v r, pv s = Some (v, r) -> (length r < length s)%nat.

End JsonParseTerms.

Section FolioTerms.

Import Json QrGenerator FolioPage.

(** The parsed form of a link and of the folio object: the optional
    fields that are present, in the order of the literal, then the links. *)
Definition link_json (l : Link) : value :=
  JObject [(lit "title", JString (link_title l)); (lit "url", JString (link_url l))].

Definition optional_member (id : string) (field : option (list Z))
  : option (list Z * value) :=
  match field with
  | Some s => Some (lit id, JString s)
  | None => None
  end.

Definition folio_members (d : FolioData) : list (list Z * value) :=
  omap id [optional_member "profileImageUrl" (profileImageUrl d);
           optional_member "name" (name d);
           optional_member "title" (title d)]
  ++ [(lit "links", JArray (link_json <$> links d))].

(** A link with a title and a url, neither empty. *)
Definition has_title_and_url (l : Link) : bool :=
  match link_title l, link_url l with
  | _ :: _, _ :: _ => true
  | _, _ => false
  end.

(** All strings of the form data are sequences of code units. *)
Definition link_units (l : Link) : Prop :=
  code_units (link_title l) /\ code_units (link_url l).

Definition field_units (field : option (list Z)) : Prop :=
  match field with
  | Some s => code_units s
  | None => True
  end.

Definition folio_units (d : FolioData) : Prop :=
  field_units (profileImageUrl d) /\ field_units (name d) /\ field_units (title d)
  /\ Forall link_units (links d).

(** The same, as a check on the form data of the folio. *)
Definition code_unitsb (s : list Z) : bool :=
  forallb (fun c => (0 <=? c) && (c <? 65536)) s.

Definition field_unitsb (field : option (list Z)) : bool :=
  match field with
  | Some s => code_unitsb s
  | None => true
  end.

Definition folio_strings_ok (qrData : QrData) : bool :=
  field_unitsb (qr_fields qrData !! "profileImageUrl")
  && field_unitsb (qr_fields qrData !! "name")
  && field_unitsb (qr_fields qrData !! "title")
  && forallb (fun l => code_unitsb (link_title l) && code_unitsb (link_url l))
             (default [] (qr_links qrData)).

End FolioTerms.

Section FolioClaimTerms.

Import Json QrGenerator FolioPage.

Definition bare_folio_data : QrData :=
  {| qr_fields := <["name" := []]> (<["profileImageUrl" := lit "https://a.b/c.png"]> ∅);
     qr_links := Some [ {| link_title := lit "Site"; link_url := [] |} ] |}.

End FolioClaimTerms.

Section UriSafeTerms.

Import QrGenerator.

(** What [encodeURIComponent] writes: unreserved characters and ["%"]. *)
Definition uri_safe (c : Z) : bool := Uri.uri_unreserved c || (c =? 37).

(** The strings a kind hands to [encodeURIComponent], the folio token
    apart. *)
Definition escaped_fields (qrType : QrCodeType) (qrData : QrData)
  : list (list Z) :=
  let field (id : string) := qr_fields qrData !! id in
  match qrType with
  | Email => [or_else (field "subject") []; or_else (field "body") []]
  | SMS => [or_else (field "message") []]
  | WhatsApp => if truthy (field "message") then [default [] (field "message")] else []
  | _ => []
  end.

(** The part of a string before the first [sep]. *)
Fixpoint before (sep : Z) (s : list Z) : list Z :=
  match s with
  | [] => []
  | c :: r => if c =? sep then [] else c :: before sep r
  end.

(** The alphabet of base64 with its padding. *)
Definition b64_alphabet (c : Z) : bool := is_alnum c || one_of [43; 47; 61] c.

Definition lone_surrogate_subject : QrData :=
  {| qr_fields := <["email" := lit "a@b.c"]> (<["subject" := [0xD800]]> ∅);
     qr_links := None |}.

Definition email_state (qrData : QrData) : State :=
  {| qrType := Email; qrData := qrData; qrValue := lit "mailto:old";
     error := None; aiQrImage := Some (lit "data:image/png;base64,AA");
     validationStatus := Success |}.

Definition plain_email : QrData :=
  {| qr_fields := <["email" := lit "a@b.c"]> (<["subject" := lit "Hi & bye"]>
                    (<["body" := [0x4E2D; 63]]> ∅));
     qr_links := None |}.

End UriSafeTerms.

Section EscapedTextTerms.

Import QrGenerator.

(** The characters that delimit the parts of the mailto, smsto and
    wa.me payloads. *)
Definition separators : list Z := lit " #&+:=?".

Definition escaped (text : list Z) : Prop :=
  Forall (fun c => uri_safe c = true /\ ~ In c separators) text.

Definition sms_example : QrData :=
  {| qr_fields := <["phone" := lit "+1 555"]> (<["message" := lit "a:b&c=d?"]> ∅);
     qr_links := None |}.

End EscapedTextTerms.

Section FolioLinkTerms.

Import QrGenerator.

(** A string of ASCII characters. *)
Definition ascii_text (s : list Z) : Prop := Forall (fun c => 0 <= c < 128) s.

(** [encodeURIComponent] on one ASCII character. *)
Definition escape_ascii (c : Z) : list Z :=
  if Uri.uri_unreserved c then [c] else Uri.percent c.

End FolioLinkTerms.

Section FolioLinkExamples.

Import QrGenerator.

Definition page_address : list Z := lit "https://qr.example/app/?tab=scanner".

Definition page_address_with_fragment : list Z :=
  lit "https://qr.example/app/#generator".

(** A text without C0 controls and spaces, as the serialization of a URL
    is. *)
Definition printable (s : list Z) : Prop := Forall (fun c => 0x20 < c) s.

(** The characters of a query that holds one base64 token written by
    [encodeURIComponent]. *)
Definition token_query_char (c : Z) : bool := is_alnum c || one_of [37; 61] c.

End FolioLinkExamples.

Section FormTerms.

Import QrGenerator.

Definition sms_with_leftovers : QrData :=
  {| qr_fields := <["subject" := lit "left over"]> (qr_fields sms_example);
     qr_links := None |}.

End FormTerms.

Section TypeChangeTerms.

Import QrGenerator Constants FormHandlers.

Definition has_value (data : QrData) (field : QrField) : bool :=
  match qr_fields data !! field_id field with
  | Some _ => true
  | None => false
  end.

(** The check of the default data of a kind: they exist, every field of
    the table has a value, and they encode (for the folio: they are
    strings of code units) to a payload that is empty for the text kind
    only. *)
Definition default_payload_ok (newType : QrCodeType) : bool :=
  match defaultData newType with
  | Ok data =>
      (if bool_decide (newType = LinkFolio) then folio_strings_ok data
       else
         match encode [] newType data with
         | Ok value =>
             if bool_decide (newType = Text) then bool_decide (value = [])
             else negb (bool_decide (value = []))
         | Throw _ => false
         end)
      && match type_info newType with
         | Some typeInfo => forallb (has_value data) (info_fields typeInfo)
         | None => true
         end
  | Throw _ => false
  end.

End TypeChangeTerms.

Section ExportRunTerms.

Import QrGenerator ExportPipeline.

(** What the stages before compression resolved to, by file name; the
    overlay stage only runs when an overlay image exists. *)
Definition resolved_blobs (aiQrImage : option (list Z)) (cap : Capabilities)
  : list (string * result (option (list Z))) :=
  [("standard-qr.png"%string, raw_png cap); ("standard-qr.svg"%string, raw_svg cap)]
  ++ (if truthy aiQrImage then [("ai-art-qr.png"%string, fetched_ai cap)] else []).

(** The percentages shown by an export, in order. *)
Definition percentages (r : Run) : list Z := fst <$> progress_calls r.

Definition all_resolve : Capabilities :=
  {| raw_png := Ok (Some [1]); raw_svg := Ok None;
     fetched_ai := Ok (Some [3]); generateAsync := fun files => Ok (flat_map snd files) |}.

End ExportRunTerms.

Section ScannerTerms.

Import QrScanner.

(** The failed upload, and the image of every repair under way, is an
    image in which no code was found. *)
Definition failed_upload_unreadable (pipeline : list Z -> ImageScan) (s : Scanner)
  : Prop :=
  (forall imageDataUrl,
     failedUpload s = Some imageDataUrl -> scanImage (pipeline imageDataUrl) = None) /\
  Forall (fun imageDataUrl => scanImage (pipeline imageDataUrl) = None) (repairs s).

(** A decoder that finds nothing. *)
Definition nothing_found (imageDataUrl : list Z) : ImageScan := Decoded None.

End ScannerTerms.

(** * Properties *)

(** ** Strings and literals *)

Section JsFacts.

Lemma str_eqb_refl (a : list Z) : str_eqb a a = true.
Proof. unfold str_eqb. apply bool_decide_eq_true_2. reflexivity. Qed.

Lemma str_eqb_eq (a b : list Z) : str_eqb a b = true <-> a = b.
Proof. unfold str_eqb. apply bool_decide_eq_true. Qed.

Lemma str_eqb_neq (a b : list Z) : a <> b -> str_eqb a b = false.
Proof. intros H. unfold str_eqb. apply bool_decide_eq_false_2. exact H. Qed.

Lemma or_else_some (s : list Z) : or_else (Some s) [] = s.
Proof. destruct s; reflexivity. Qed.

Lemma split_nonempty (sep : Z) (s : list Z) : split sep s <> [].
Proof.
  induction s as [|c s IH]; simpl; [discriminate|].
  destruct (c =? sep); [discriminate|].
  destruct (split sep s); [contradiction|discriminate].
Qed.

End JsFacts.

(** ** The payload encoder *)

Section EncoderFacts.

Import QrGenerator.

Lemma wifi_payload (href : list Z) (qrData : QrData) :
  encode href WiFi qrData =
    let enc := or_else (qr_fields qrData !! "encryption") (lit "WPA") in
    Ok (lit "WIFI:S:" ++ or_else (qr_fields qrData !! "ssid") [] ++ lit ";T:"
        ++ enc ++ lit ";"
        ++ (if str_eqb enc (lit "nopass") then []
            else password_segment (qr_fields qrData !! "password"))
        ++ lit ";").
Proof.
  unfold encode; cbv zeta.
  destruct (str_eqb _ (lit "nopass")); simpl negb; cbv iota.
  - rewrite andb_false_l. f_equal. rewrite <- !app_assoc. reflexivity.
  - rewrite andb_true_l. f_equal.
    destruct (qr_fields qrData !! "password") as [[|c s]|]; simpl truthy;
      cbv iota; unfold password_segment; simpl default;
      rewrite <- ?app_assoc; reflexivity.
Qed.

(** C4: with encryption 'nopass' the WiFi payload is exactly
    'WIFI:S:<ssid>;T:nopass;;' for every ssid and whatever the password
    field holds, with no P: segment; with the encryption field absent the
    payload is built with 'WPA'. *)
Theorem wifi_nopass_payload (href : list Z) (qrData : QrData) (X : list Z) :
  qr_fields qrData !! "ssid" = Some X ->
  (qr_fields qrData !! "encryption" = Some (lit "nopass") ->
   encode href WiFi qrData = Ok (lit "WIFI:S:" ++ X ++ lit ";T:nopass;;")) /\
  (qr_fields qrData !! "encryption" = None ->
   encode href WiFi qrData =
     Ok (lit "WIFI:S:" ++ X ++ lit ";T:WPA;"
         ++ password_segment (qr_fields qrData !! "password") ++ lit ";")).
Proof.
  intros Hssid. split; intros Henc; rewrite wifi_payload, Hssid, Henc;
    rewrite or_else_some; cbv zeta.
  - change (or_else (Some (lit "nopass")) (lit "WPA")) with (lit "nopass").
    rewrite str_eqb_refl. reflexivity.
  - change (or_else None (lit "WPA")) with (lit "WPA").
    change (str_eqb (lit "WPA") (lit "nopass")) with false. cbv iota.
    reflexivity.
Qed.

Lemma wifi_nopass_payload_witness :
  encode [] WiFi wifi_example = Ok (lit "WIFI:S:X;T:nopass;;") /\
  encode [] WiFi wifi_default_example = Ok (lit "WIFI:S:X;T:WPA;P:secret;;").
Proof.
  split.
  - apply (proj1 (wifi_nopass_payload [] wifi_example (lit "X") eq_refl)).
    reflexivity.
  - apply (proj2 (wifi_nopass_payload [] wifi_default_example (lit "X") eq_refl)).
    reflexivity.
Defined.

(** C10: when the encryption is not 'nopass' and the password is empty
    or absent, the payload is 'WIFI:S:<ssid>;T:<enc>;;'; the P: segment is
    in the payload exactly when the encryption is not 'nopass' and the
    password is not empty. *)
Theorem wifi_password_segment (href : list Z) (qrData : QrData) (enc : list Z) :
  enc = or_else (qr_fields qrData !! "encryption") (lit "WPA") ->
  enc <> lit "nopass" ->
  (truthy (qr_fields qrData !! "password") = false ->
   encode href WiFi qrData =
     Ok (lit "WIFI:S:" ++ or_else (qr_fields qrData !! "ssid") [] ++ lit ";T:"
         ++ enc ++ lit ";;")) /\
  (forall password,
     qr_fields qrData !! "password" = Some password -> password <> [] ->
     encode href WiFi qrData =
       Ok (lit "WIFI:S:" ++ or_else (qr_fields qrData !! "ssid") [] ++ lit ";T:"
           ++ enc ++ lit ";" ++ lit "P:" ++ password ++ lit ";" ++ lit ";")).
Proof.
  intros Henc Hne. split.
  - intros Hpw. rewrite wifi_payload. cbv zeta. rewrite <- Henc.
    rewrite (str_eqb_neq _ _ Hne).
    destruct (qr_fields qrData !! "password") as [[|c s]|]; try discriminate;
      reflexivity.
  - intros password Hpw Hnonempty. rewrite wifi_payload. cbv zeta.
    rewrite <- Henc, (str_eqb_neq _ _ Hne), Hpw.
    destruct password as [|c s]; [contradiction|].
    unfold password_segment. rewrite <- !app_assoc. reflexivity.
Qed.

Lemma wifi_password_segment_witness :
  encode [] WiFi wifi_wep_example = Ok (lit "WIFI:S:Home;T:WEP;;") /\
  encode [] WiFi wifi_wpa_example = Ok (lit "WIFI:S:Home;T:WPA;P:pw;;").
Proof.
  split.
  - apply (proj1 (wifi_password_segment [] wifi_wep_example (lit "WEP")
                    eq_refl ltac:(discriminate))).
    reflexivity.
  - apply (proj2 (wifi_password_segment [] wifi_wpa_example (lit "WPA")
                    eq_refl ltac:(discriminate)) (lit "pw")).
    + reflexivity.
    + discriminate.
Defined.

End EncoderFacts.

(** ** Calendar timestamps *)

Section TimestampFacts.

Import QrGenerator.

Lemma replace_class_empty_filter (class : Z -> bool) (s : list Z) :
  replace_class_empty class s = List.filter (fun c => negb (class c)) s.
Proof.
  unfold replace_class_empty.
  induction s as [|c s IH]; simpl; [reflexivity|].
  destruct (class c); simpl; rewrite IH; reflexivity.
Qed.

Lemma split_first (s first : list Z) (rest : list (list Z)) :
  split 46 s = first :: rest -> first = drop_fraction s.
Proof.
  revert first rest. induction s as [|c s IH]; simpl; intros first rest H.
  - congruence.
  - destruct (c =? 46); [congruence|].
    destruct (split 46 s) as [|p ps] eqn:E.
    + exfalso. exact (split_nonempty 46 s E).
    + injection H as <- _. f_equal. exact (IH p ps eq_refl).
Qed.

Lemma formatDateTimeForICS_stamp (dateTime : option (list Z)) :
  formatDateTimeForICS dateTime = ics_stamp dateTime.
Proof.
  destruct dateTime as [[|c s]|]; try reflexivity.
  unfold formatDateTimeForICS, ics_stamp, ics_normalized.
  destruct (split 46 _) as [|first rest] eqn:E.
  - exfalso. exact (split_nonempty _ _ E).
  - f_equal. rewrite (split_first _ _ _ E), replace_class_empty_filter.
    f_equal. apply filter_ext. intros a. unfold one_of. simpl.
    destruct (a =? 45), (a =? 58); reflexivity.
Qed.

Lemma drop_fraction_no_dot (s : list Z) : ~ In 46 (drop_fraction s).
Proof.
  induction s as [|c s IH]; simpl; [tauto|].
  destruct (c =? 46) eqn:E; simpl; [tauto|].
  intros [H|H]; [|exact (IH H)]. subst c. discriminate.
Qed.

Lemma drop_fraction_incl (s : list Z) (c : Z) :
  In c (drop_fraction s) -> In c s.
Proof.
  induction s as [|a s IH]; simpl; [tauto|].
  destruct (a =? 46); simpl; [tauto|]. intros [H|H]; auto.
Qed.

(** The normal form holds no ['-'], [':'] or ['.'] and ends in ['Z']. *)
Lemma ics_normalized_shape (dateTime : list Z) :
  exists body, ics_normalized dateTime = body ++ [90] /\
               ~ In 45 body /\ ~ In 58 body /\ ~ In 46 body.
Proof.
  eexists. split; [reflexivity|].
  repeat split; try apply drop_fraction_no_dot;
    intros H; apply drop_fraction_incl, filter_In in H;
    destruct H as [_ H]; discriminate.
Qed.

(** C8: the event payload carries, for dtstart and for dtend, the
    timestamp with every '-' and ':' deleted, the part from the first '.'
    on dropped and 'Z' appended (nothing for an empty or absent field);
    for '2024-05-01T10:30:00.000' that is '20240501T103000Z'. *)
Theorem event_timestamps_normalized (href : list Z) (qrData : QrData) :
  encode href Event qrData =
    Ok (lit "BEGIN:VEVENT" ++ newline
        ++ lit "SUMMARY:" ++ or_else (qr_fields qrData !! "summary") [] ++ newline
        ++ lit "LOCATION:" ++ or_else (qr_fields qrData !! "location") [] ++ newline
        ++ lit "DTSTART:" ++ ics_stamp (qr_fields qrData !! "dtstart") ++ newline
        ++ lit "DTEND:" ++ ics_stamp (qr_fields qrData !! "dtend") ++ newline
        ++ lit "DESCRIPTION:" ++ or_else (qr_fields qrData !! "description") []
        ++ newline ++ lit "END:VEVENT")
  /\ ics_stamp (Some (lit "2024-05-01T10:30:00.000")) = lit "20240501T103000Z"
  /\ formatDateTimeForICS (Some (lit "2024-05-01T10:30:00.000"))
     = lit "20240501T103000Z".
Proof.
  split; [|split; reflexivity].
  unfold encode. rewrite !formatDateTimeForICS_stamp. reflexivity.
Qed.

End TimestampFacts.

(** ** The payload effect *)

Section PayloadEffectFacts.

Import QrGenerator.

Lemma set_qr_value_resetting_value (value : list Z) (st : State) :
  qrValue (set_qr_value_resetting value st) = value.
Proof.
  unfold set_qr_value_resetting.
  destruct (str_eqb (qrValue st) value) eqn:E; [|reflexivity].
  apply str_eqb_eq. exact E.
Qed.

(** The payload the effect installs: the encoded value, or the empty
    string when encoding throws. *)
Lemma payload_effect_value (href : list Z) (st : State) :
  qrValue (payload_effect href st) =
    match encode href (qrType st) (qrData st) with
    | Ok value => value
    | Throw _ => []
    end.
Proof.
  unfold payload_effect. destruct (encode _ _ _) as [value|e].
  - rewrite set_qr_value_resetting_value. reflexivity.
  - reflexivity.
Qed.

(** C9: the payload installed by the effect is a function of the content
    kind, the field values and the page address alone: two component
    states that agree on kind and values get the same payload, whatever
    their previous payload, error, overlay image or overlay status. *)
Theorem payload_deterministic (href : list Z) (st1 st2 : State) :
  qrType st1 = qrType st2 ->
  qrData st1 = qrData st2 ->
  qrValue (payload_effect href st1) = qrValue (payload_effect href st2).
Proof.
  intros Hk Hv. rewrite !payload_effect_value, Hk, Hv. reflexivity.
Qed.

Lemma payload_deterministic_witness :
  qrValue (payload_effect (lit "https://x.org/app?tab=1") state_one)
  = qrValue (payload_effect (lit "https://x.org/app?tab=1") state_two).
Proof.
  apply (payload_deterministic (lit "https://x.org/app?tab=1") state_one state_two).
  - reflexivity.
  - reflexivity.
Defined.

End PayloadEffectFacts.

(** ** The validation loop *)

Section ValidationFacts.

Import QrGenerator Validation.

Lemma cleanup_clears (st : Loop) :
  checks_registered st -> timers (run_cleanup st) = ∅.
Proof.
  intros Hinv. apply map_eq. intros id. rewrite lookup_empty.
  unfold run_cleanup. destruct (cleanup st) as [id0|] eqn:Hc; simpl.
  - destruct (decide (id0 = id)) as [->|Hne].
    + apply lookup_delete_eq.
    + rewrite lookup_delete_ne by exact Hne.
      destruct (timers st !! id) as [captured|] eqn:Ht; [|reflexivity].
      destruct (Hinv id captured Ht) as [Hid _]. congruence.
  - destruct (timers st !! id) as [captured|] eqn:Ht; [|reflexivity].
    destruct (Hinv id captured Ht) as [Hid _]. congruence.
Qed.

Lemma run_cleanup_keeps (st : Loop) :
  qrValue (run_cleanup st) = qrValue st /\
  instance (run_cleanup st) = instance st /\
  standardQrValidationStatus (run_cleanup st) = standardQrValidationStatus st /\
  next_timer (run_cleanup st) = next_timer st.
Proof. unfold run_cleanup. destruct (cleanup st); repeat split. Qed.

(** What the passive effects leave when they are due: no check but the
    one for the payload of the committed render, and none for an empty
    payload or without an instance. *)
Lemma flush_due (st : Loop) :
  checks_registered st -> effects_due st = true ->
  qrValue (flush st) = qrValue st /\
  instance (flush st) = instance st /\
  effects_due (flush st) = false /\
  ((qrValue st = [] \/ instance st = false) /\
   timers (flush st) = ∅ /\ standardQrValidationStatus (flush st) = Idle /\
   cleanup (flush st) = None
   \/
   (qrValue st <> [] /\ instance st = true) /\
   timers (flush st) = {[next_timer st := qrValue st]} /\
   standardQrValidationStatus (flush st) = standardQrValidationStatus st /\
   cleanup (flush st) = Some (next_timer st)).
Proof.
  intros Hreg Hdue. unfold flush. rewrite Hdue.
  pose proof (cleanup_clears st Hreg) as Hclear.
  destruct (run_cleanup_keeps st) as (Hq & Hi & Hs & Hn).
  unfold validation_effect. rewrite Hq, Hi, Hclear, Hs, Hn.
  destruct (qrValue st) as [|c s] eqn:Ev; cbn [truthy negb orb].
  - cbn [qrValue instance effects_due timers standardQrValidationStatus cleanup].
    repeat split. left. repeat split. left. reflexivity.
  - destruct (instance st) eqn:Ei; cbn [negb].
    + cbn [qrValue instance effects_due timers standardQrValidationStatus cleanup].
      repeat split. right. repeat split. discriminate.
    + cbn [qrValue instance effects_due timers standardQrValidationStatus cleanup].
      repeat split. left. repeat split. right. reflexivity.
Qed.

Lemma flush_settled (st : Loop) : flush st = st \/ effects_due st = true.
Proof. unfold flush. destruct (effects_due st); [right | left]; reflexivity. Qed.

Lemma flush_invariants (st : Loop) :
  loop_invariants st -> loop_invariants (flush st) /\ effects_due (flush st) = false.
Proof.
  intros (Hreg & Hfresh & Hidle).
  destruct (effects_due st) eqn:Hdue.
  - destruct (flush_due st Hreg Hdue)
      as (Hq & Hi & Hd & [(Hcase & Ht & Hs & Hc)|((Hne & Hinst) & Ht & Hs & Hc)]).
    + split; [|exact Hd]. split; [|split].
      * intros id captured H. rewrite Ht, lookup_empty in H. discriminate.
      * intros _ id captured H. rewrite Ht, lookup_empty in H. discriminate.
      * intros _ _. exact Hs.
    + split; [|exact Hd]. split; [|split].
      * intros id captured H. rewrite Ht in H.
        apply lookup_singleton_Some in H as [<- <-]. split; assumption.
      * intros _ id captured H. rewrite Ht in H.
        apply lookup_singleton_Some in H as [<- <-]. symmetry. exact Hq.
      * intros _ He. rewrite Hq in He. contradiction.
  - unfold flush. rewrite Hdue. split; [|exact Hdue].
    split; [exact Hreg | split; assumption].
Qed.

Lemma step_invariants (st : Loop) (ev : Event) :
  loop_invariants st -> loop_invariants (step st ev).
Proof.
  intros Hinv. destruct ev as [value| |id c]; cbn [step].
  - destruct (flush_invariants st Hinv) as [(Hreg & _ & _) _].
    split; [exact Hreg|]. split; intros H; discriminate H.
  - exact (proj1 (flush_invariants st Hinv)).
  - destruct Hinv as (Hreg & Hfresh & Hidle).
    destruct (timers st !! id) as [captured|] eqn:Ht;
      [|split; [exact Hreg | split; assumption]].
    split; [|split].
    + intros id' captured'. cbn [timers cleanup]. intros H.
      apply lookup_delete_Some in H as [_ H]. exact (Hreg id' captured' H).
    + intros Hdue id' captured'. cbn [timers qrValue effects_due] in *. intros H.
      apply lookup_delete_Some in H as [_ H]. exact (Hfresh Hdue id' captured' H).
    + intros Hdue Hempty. cbn [qrValue effects_due] in *. exfalso.
      destruct (Hreg id captured Ht) as [_ Hne].
      rewrite (Hfresh Hdue id captured Ht) in Hne. contradiction.
Qed.

Lemma run_app (st : Loop) (evs1 evs2 : list Event) :
  run st (evs1 ++ evs2) = run (run st evs1) evs2.
Proof. unfold run. apply foldl_app. Qed.

Lemma flush_instance (st : Loop) : instance (flush st) = instance st.
Proof.
  unfold flush. destruct (effects_due st); [|reflexivity].
  cbn [instance]. unfold validation_effect, run_cleanup.
  destruct (cleanup st); cbn [qrValue instance];
    destruct (negb _ || negb _); reflexivity.
Qed.

Lemma step_instance (st : Loop) (ev : Event) : instance (step st ev) = instance st.
Proof.
  destruct ev as [value| |id c]; cbn [step].
  - apply flush_instance.
  - apply flush_instance.
  - destruct (timers st !! id); reflexivity.
Qed.

Lemma run_instance (i : bool) (evs : list Event) : instance (run (mount i) evs) = i.
Proof.
  induction evs as [|ev evs IH] using rev_ind.
  - unfold mount. apply flush_instance.
  - rewrite run_app. cbn [run foldl]. rewrite step_instance. exact IH.
Qed.

Lemma mount_invariants (instance : bool) : loop_invariants (mount instance).
Proof.
  unfold mount. apply flush_invariants.
  split; [|split].
  - intros id captured H. cbn [timers] in H. rewrite lookup_empty in H. discriminate.
  - intros H. discriminate H.
  - intros H. discriminate H.
Qed.

Lemma reachable_invariants (instance : bool) (evs : list Event) :
  loop_invariants (run (mount instance) evs).
Proof.
  induction evs as [|ev evs IH] using rev_ind.
  - apply mount_invariants.
  - rewrite run_app. cbn [run foldl]. apply step_invariants, IH.
Qed.

(** The status a check leaves when it runs. *)
Lemma fire_verdict (st : Loop) (id : nat) (captured : list Z) (c : Capture) :
  timers st !! id = Some captured ->
  standardQrValidationStatus (step st (TimerFires id c))
  = validation_callback captured c /\
  (c = Scanned (Some captured) ->
   standardQrValidationStatus (step st (TimerFires id c)) = Success) /\
  (c <> Scanned (Some captured) ->
   standardQrValidationStatus (step st (TimerFires id c)) = Failed).
Proof.
  intros Ht. cbn [step]. rewrite Ht. cbn [standardQrValidationStatus].
  split; [reflexivity|]. split.
  - intros ->. cbn [validation_callback]. rewrite str_eqb_refl. reflexivity.
  - intros Hne. destruct c as [| | |[d|]]; try reflexivity.
    cbn [validation_callback]. destruct (str_eqb d captured) eqn:E; [|reflexivity].
    apply str_eqb_eq in E. subst d. contradiction.
Qed.



(** What the last commit and its effects leave, whatever came before. *)
Lemma committed_and_flushed (st : Loop) (value : list Z) :
  loop_invariants st ->
  let st' := run st [Commit value; Flush] in
  loop_invariants st' /\ effects_due st' = false /\ qrValue st' = value /\
  instance st' = instance st /\
  ((value = [] \/ instance st = false) /\
   timers st' = ∅ /\ standardQrValidationStatus st' = Idle
   \/
   (value <> [] /\ instance st = true) /\
   timers st' = {[next_timer (flush st) := value]} /\
   standardQrValidationStatus st' = standardQrValidationStatus (flush st)).
Proof.
  intros Hinv st'. subst st'. cbn [run foldl step].
  destruct (flush_invariants st Hinv) as [Hf _].
  assert (Hc : loop_invariants (commit value (flush st))).
  { destruct Hf as (Hreg & _ & _).
    split; [exact Hreg|]. split; intros H; discriminate H. }
  destruct (flush_invariants _ Hc) as [Hinv' Hd'].
  assert (Hi : instance (flush st) = instance st).
  { destruct (flush_settled st) as [->|Hdue]; [reflexivity|].
    destruct Hinv as (Hreg & _ & _). exact (proj1 (proj2 (flush_due st Hreg Hdue))). }
  destruct (flush_due (commit value (flush st)) (proj1 Hc) eq_refl)
    as (Hq & Hi' & _ & Hcase).
  cbn [commit qrValue instance next_timer standardQrValidationStatus] in Hq, Hi', Hcase.
  rewrite Hi in Hi', Hcase.
  split; [exact Hinv'|]. split; [exact Hd'|]. split; [exact Hq|].
  split; [exact Hi'|].
  destruct Hcase as [(Hc1 & Ht & Hs & _)|(Hc2 & Ht & Hs & _)].
  - left. repeat split; assumption.
  - right. repeat split; try assumption; apply Hc2.
Qed.




Lemma no_check_when_empty (st : Loop) :
  loop_invariants st -> effects_due st = false -> qrValue st = [] ->
  timers st = ∅.
Proof.
  intros (Hreg & Hfresh & _) Hdue Hempty. apply map_eq. intros id.
  rewrite lookup_empty.
  destruct (timers st !! id) as [captured|] eqn:Ht; [|reflexivity].
  destruct (Hreg id captured Ht) as [_ Hne].
  rewrite (Hfresh Hdue id captured Ht) in Hne. contradiction.
Qed.



End ValidationFacts.

(** ** The batch export *)

Section ExportFacts.

Import QrGenerator ExportPipeline.

Lemma error_text_not_stage_specific : ~ error_identifies_stage.
Proof.
  intros [stage_of H].
  destruct (H None png_rejects StagePng NotAnError eq_refl) as (t1 & Ht1 & Hs1).
  destruct (H None svg_rejects StageSvg NotAnError eq_refl) as (t2 & Ht2 & Hs2).
  vm_compute in Ht1, Ht2. congruence.
Qed.

(** C5, as the handler has it: when a stage rejects, the export shows
    one error, the message of the rejected error or 'Failed to create ZIP
    file.' when what was rejected is not an error; no download is
    started; no stage after the failing one is run; the files added to the
    archive object come from stages before the failing one; and the
    closing timeout is set. *)
Theorem export_failure_aborts (qrValue : list Z) (aiQrImage : option (list Z))
    (cap : Capabilities) (stage : Stage) (e : exn) :
  qrValue <> [] ->
  first_failure aiQrImage cap = Some (stage, e) ->
  error_calls (export_run qrValue aiQrImage cap)
  = [None; Some (message_or "Failed to create ZIP file." e)] /\
  downloads (export_run qrValue aiQrImage cap) = [] /\
  last (invoked (export_run qrValue aiQrImage cap)) = Some stage /\
  (forall s, In s (invoked (export_run qrValue aiQrImage cap)) ->
             s = stage \/ earlier s stage) /\
  (forall name, In name (fst <$> zip (export_run qrValue aiQrImage cap)) ->
                exists s, artifact_of s = Some name /\ earlier s stage) /\
  reset_pending (export_run qrValue aiQrImage cap) = true.
Proof.
  intros Hq Hfail. unfold export_run.
  destruct qrValue as [|q qs]; [contradiction|].
  destruct cap as [png svg ai gen].
  destruct png as [pngBlob|epng], svg as [svgBlob|esvg], ai as [aiBlob|eai],
    aiQrImage as [[|i img]|];
    try destruct pngBlob; try destruct svgBlob; try destruct aiBlob;
    vm_compute in Hfail;
    try (injection Hfail as <- <-);
    try (match type of Hfail with
         | context [gen ?files] =>
             destruct (gen files) as [content|egen] eqn:Hgen;
             [discriminate | injection Hfail as <- <-]
         end);
    match goal with
    | |- context [fst ?x] =>
        let v := eval vm_compute in (fst x) in change (fst x) with v
    end;
    rewrite ?Hgen; cbv beta iota;
    (split; [reflexivity|]); (split; [reflexivity|]); (split; [reflexivity|]);
    (split; [|split; [|reflexivity]]); unfold earlier; simpl;
    intuition (subst; simpl; try lia; eauto).
  all: try (eexists StagePng; split; [reflexivity|simpl; lia]).
  all: try (eexists StageSvg; split; [reflexivity|simpl; lia]).
  all: try (eexists StageAi; split; [reflexivity|simpl; lia]).
Qed.

Lemma export_failure_aborts_witness :
  error_calls (export_run (lit "payload") None svg_rejects)
  = [None; Some (Literal "Failed to create ZIP file.")] /\
  downloads (export_run (lit "payload") None svg_rejects) = [] /\
  last (invoked (export_run (lit "payload") None svg_rejects)) = Some StageSvg /\
  (forall s, In s (invoked (export_run (lit "payload") None svg_rejects)) ->
             s = StageSvg \/ earlier s StageSvg) /\
  (forall name, In name (fst <$> zip (export_run (lit "payload") None svg_rejects)) ->
                exists s, artifact_of s = Some name /\ earlier s StageSvg) /\
  reset_pending (export_run (lit "payload") None svg_rejects) = true.
Proof.
  apply (export_failure_aborts (lit "payload") None svg_rejects StageSvg NotAnError).
  - discriminate.
  - reflexivity.
Defined.

End ExportFacts.

(** ** Decoding a folio token *)

Section DecodeFacts.

Import FolioPage.

Lemma data_of_fallback (encodedData : list Z) :
  base64ToUtf8 encodedData = Ok (lit "{}") -> data encodedData = None.
Proof.
  intros H. unfold data. destruct encodedData as [|c s]; [reflexivity|].
  simpl negb. cbv iota. unfold parse_folio. rewrite H. reflexivity.
Qed.

(** The empty token, a token that is not base64, a token whose octets
    are not UTF-8, a token whose text is not JSON, and a token whose text
    is the empty object all give [null]. *)
Lemma malformed_token_rejected :
  data [] = None /\
  (forall token e, Base64.atob token = Throw e -> data token = None) /\
  (forall token bin e,
     Base64.atob token = Ok bin ->
     Uri.decodeURIComponent (Uri.escape bin) = Throw e -> data token = None) /\
  (forall token text e,
     base64ToUtf8 token = Ok text -> Json.parse text = Throw e ->
     data token = None) /\
  (forall token text,
     base64ToUtf8 token = Ok text -> Json.parse text = Ok (Json.JObject []) ->
     data token = None).
Proof.
  split; [reflexivity|]. split; [|split; [|split]].
  - intros token e H. apply data_of_fallback.
    unfold base64ToUtf8. rewrite H. reflexivity.
  - intros token bin e H1 H2. apply data_of_fallback.
    unfold base64ToUtf8. rewrite H1. simpl. rewrite H2. reflexivity.
  - intros token text e H1 H2. unfold data.
    destruct token as [|c s]; [reflexivity|]. simpl negb. cbv iota.
    unfold parse_folio. rewrite H1. simpl. rewrite H2. reflexivity.
  - intros token text H1 H2. unfold data.
    destruct token as [|c s]; [reflexivity|]. simpl negb. cbv iota.
    unfold parse_folio. rewrite H1. simpl. rewrite H2. reflexivity.
Qed.

(** C2: the token 'eyJmb28iOjF9' is the base64 of the JSON text of an
    object whose only member is foo with value 1, so none of its keys is a
    folio key; the memo returns that object as the page data instead of
    rejecting it. *)
Theorem unrecognized_keys_accepted :
  base64ToUtf8 (lit "eyJmb28iOjF9")
  = Ok ([123; 34] ++ lit "foo" ++ [34; 58] ++ lit "1" ++ [125]) /\
  data (lit "eyJmb28iOjF9")
  = Some (Json.JObject [(lit "foo", Json.JNumber (lit "1"))]) /\
  Forall (fun k => Json.get (lit k) (Json.JObject [(lit "foo", Json.JNumber (lit "1"))])
                   = None)
         ["profileImageUrl"; "name"; "title"; "links"]%string.
Proof.
  split; [vm_compute; reflexivity|]. split; [vm_compute; reflexivity|].
  repeat constructor.
Qed.

End DecodeFacts.
(** ** Hexadecimal digits and percent escapes *)

(** Case analysis on every integer comparison of the goal, innermost
    first. *)
Ltac no_branch t :=
  lazymatch t with
  | context [if _ then _ else _] => fail
  | _ => idtac
  end.

Ltac zcases :=
  repeat match goal with
         | |- context [?a <? ?b] =>
             no_branch a; no_branch b; destruct (Z.ltb_spec a b); try lia
         | |- context [?a <=? ?b] =>
             no_branch a; no_branch b; destruct (Z.leb_spec a b); try lia
         | |- context [?a =? ?b] =>
             no_branch a; no_branch b; destruct (Z.eqb_spec a b); try lia
         end.

(** [lia] also decides goals with division and remainder by a literal. *)
Ltac Zify.zify_post_hook ::= Z.div_mod_to_equations.

Section HexFacts.

Lemma hex_val_upper (d : Z) : 0 <= d < 16 -> hex_val (hex_upper d) = Some d.
Proof.
  intros H. unfold hex_val, hex_upper, is_digit, in_range.
  zcases; simpl; f_equal; lia.
Qed.

Lemma hex_val_lower (d : Z) : 0 <= d < 16 -> hex_val (hex_lower d) = Some d.
Proof.
  intros H. unfold hex_val, hex_lower, is_digit, in_range.
  zcases; simpl; f_equal; lia.
Qed.

Lemma hex_upper_not_u (d : Z) : 0 <= d < 16 -> (hex_upper d =? 117) = false.
Proof. intros H. unfold hex_upper. zcases; reflexivity. Qed.

Lemma hex2_upper (b : Z) :
  octet b -> hex2 (hex_upper (b / 16)) (hex_upper (b mod 16)) = Some b.
Proof.
  intros H. unfold octet in H. unfold hex2.
  rewrite !hex_val_upper by lia.
  f_equal. lia.
Qed.

Lemma hex4_lower (c : Z) :
  0 <= c < 65536 ->
  hex4 (hex_lower (c / 4096)) (hex_lower ((c / 256) mod 16))
       (hex_lower ((c / 16) mod 16)) (hex_lower (c mod 16)) = Some c.
Proof.
  intros H. unfold hex4, hex2.
  rewrite !hex_val_lower by lia. f_equal. lia.
Qed.

End HexFacts.

(** ** UTF-8 through the URI functions *)

Section UriFacts.

Import Uri.

Lemma unescape_plain (c : Z) (r : list Z) :
  c <> 37 -> unescape (c :: r) = c :: unescape r.
Proof. intros H. simpl. destruct (Z.eqb_spec c 37); [contradiction|reflexivity]. Qed.

Lemma unescape_percent (b : Z) (r : list Z) :
  octet b -> unescape (percent b ++ r) = b :: unescape r.
Proof.
  intros H. unfold percent. simpl.
  assert (Hu : (hex_upper (b / 16) =? 117) = false)
    by (apply hex_upper_not_u; unfold octet in H; lia).
  destruct r as [|x [|y [|z r]]]; rewrite ?Hu, hex2_upper by exact H; reflexivity.
Qed.

Lemma unescape_percents (bs : list Z) (r : list Z) :
  Forall octet bs -> unescape (flat_map percent bs ++ r) = bs ++ unescape r.
Proof.
  induction 1 as [|b bs Hb _ IH]; [reflexivity|].
  change (flat_map percent (b :: bs)) with (percent b ++ flat_map percent bs).
  rewrite <- app_assoc, unescape_percent by exact Hb.
  rewrite IH. reflexivity.
Qed.

Lemma decode_plain (c : Z) (r : list Z) :
  c <> 37 -> decodeURIComponent (c :: r) = rmap (cons c) (decodeURIComponent r).
Proof. intros H. simpl. destruct (Z.eqb_spec c 37); [contradiction|reflexivity]. Qed.

Lemma continuation_percent (o : Z) :
  0x80 <= o <= 0xBF ->
  continuation 37 (hex_upper (o / 16)) (hex_upper (o mod 16)) = Some (o - 0x80).
Proof.
  intros H. unfold continuation. simpl (37 =? 37).
  rewrite hex2_upper by (unfold octet; lia).
  unfold in_range. zcases. reflexivity.
Qed.

Lemma utf8_octets_octet (cp : Z) :
  0 <= cp <= 0x10FFFF -> Forall octet (utf8_octets cp).
Proof.
  intros H. unfold utf8_octets, octet. zcases; repeat constructor; lia.
Qed.

Lemma utf8_octets_high (cp : Z) :
  0x80 <= cp <= 0x10FFFF -> Forall (fun o => 0x80 <= o < 256) (utf8_octets cp).
Proof.
  intros H. unfold utf8_octets. zcases; repeat constructor; lia.
Qed.

Lemma escape_app (a b : list Z) : escape (a ++ b) = escape a ++ escape b.
Proof. unfold escape. apply flat_map_app. Qed.

Lemma escape_high (os : list Z) :
  Forall (fun o => 0x80 <= o < 256) os -> escape os = flat_map percent os.
Proof.
  induction 1 as [|o os Ho _ IH]; [reflexivity|].
  change (o :: os) with ([o] ++ os) at 1. rewrite escape_app, IH. change (flat_map percent (o :: os)) with (percent o ++ flat_map percent os).
  f_equal. unfold escape. simpl. rewrite app_nil_r.
  unfold escape_unescaped, is_alnum, is_digit, is_upper, is_lower, in_range, one_of.
  simpl. zcases. reflexivity.
Qed.

Section Decoding.

#[local] Arguments continuation : simpl never.
#[local] Arguments decoded2 : simpl never.
#[local] Arguments decoded3 : simpl never.
#[local] Arguments decoded4 : simpl never.
#[local] Arguments utf16_encode : simpl never.
#[local] Arguments hex2 : simpl never.
#[local] Arguments hex_upper : simpl never.

Lemma decode_octet1 (c : Z) (r : list Z) :
  0 <= c < 0x80 ->
  decodeURIComponent (percent c ++ r) = rmap (cons c) (decodeURIComponent r).
Proof.
  intros H. unfold percent. simpl. rewrite hex2_upper by (unfold octet; lia).
  zcases. reflexivity.
Qed.

Lemma decode_escape_ascii (c : Z) (r : list Z) :
  0 <= c < 0x80 ->
  decodeURIComponent (escape [c] ++ r) = rmap (cons c) (decodeURIComponent r).
Proof.
  intros H. unfold escape. simpl flat_map. rewrite app_nil_r.
  destruct (escape_unescaped c) eqn:E.
  - apply decode_plain. intros ->. discriminate.
  - zcases. apply decode_octet1. exact H.
Qed.

Lemma decode_utf8 (cp : Z) (r : list Z) :
  0x80 <= cp <= 0x10FFFF -> is_surrogate cp = false ->
  decodeURIComponent (flat_map percent (utf8_octets cp) ++ r)
  = rmap (app (utf16_encode cp)) (decodeURIComponent r).
Proof.
  intros H Hs. unfold is_surrogate, in_range in Hs.
  unfold utf8_octets. zcases.
  - unfold percent. simpl. rewrite hex2_upper by (unfold octet; lia).
    zcases. rewrite continuation_percent by lia.
    unfold decoded2. zcases.
    replace ((192 + cp / 64 - 192) * 64 + (128 + cp mod 64 - 128)) with cp by lia.
    reflexivity.
  - unfold percent. simpl. rewrite hex2_upper by (unfold octet; lia).
    zcases. rewrite !continuation_percent by lia.
    unfold decoded3.
    replace ((224 + cp / 4096 - 224) * 4096 + (128 + (cp / 64) mod 64 - 128) * 64
             + (128 + cp mod 64 - 128)) with cp by lia.
    unfold is_surrogate, in_range. rewrite Hs. zcases. reflexivity.
  - unfold percent. simpl. rewrite hex2_upper by (unfold octet; lia).
    zcases. rewrite !continuation_percent by lia.
    unfold decoded4.
    replace ((240 + cp / 262144 - 240) * 262144 + (128 + (cp / 4096) mod 64 - 128) * 4096
             + (128 + (cp / 64) mod 64 - 128) * 64 + (128 + cp mod 64 - 128))
      with cp by lia.
    unfold in_range. zcases. reflexivity.
Qed.

End Decoding.

End UriFacts.

(** ** Well-formed UTF-16 and the UTF-8 round trip *)

Section Utf8RoundTrip.

Import Uri.

Lemma well_formed_app (a b : list Z) :
  well_formed a -> well_formed b -> well_formed (a ++ b).
Proof.
  induction 1; intros Hb; simpl; [exact Hb | apply wf_unit | apply wf_pair]; auto.
Qed.

Lemma uri_unreserved_ascii (c : Z) :
  uri_unreserved c = true -> 0 <= c < 0x80 /\ c <> 37.
Proof.
  unfold uri_unreserved, is_alnum, is_digit, is_upper, is_lower, in_range, one_of.
  simpl. zcases; simpl; intros; try discriminate; lia.
Qed.

Lemma surrogate_split (c : Z) :
  is_surrogate c = false ->
  is_high_surrogate c = false /\ is_low_surrogate c = false.
Proof.
  unfold is_surrogate, is_high_surrogate, is_low_surrogate, in_range.
  zcases; simpl; intros; try discriminate; split; reflexivity.
Qed.

Lemma pair_code_point_range (hi lo : Z) :
  is_high_surrogate hi = true -> is_low_surrogate lo = true ->
  0x10000 <= pair_code_point hi lo <= 0x10FFFF /\
  utf16_encode (pair_code_point hi lo) = [hi; lo].
Proof.
  unfold is_high_surrogate, is_low_surrogate, in_range, pair_code_point, utf16_encode.
  zcases; simpl; intros; try discriminate.
  split; [lia|]. zcases. f_equal; [|f_equal]; lia.
Qed.

Lemma high_surrogate_reserved (hi : Z) :
  is_high_surrogate hi = true -> uri_unreserved hi = false.
Proof.
  unfold is_high_surrogate, uri_unreserved, is_alnum, is_digit, is_upper, is_lower,
    in_range, one_of.
  simpl. zcases; simpl; intros; try discriminate; reflexivity.
Qed.

(** The two steps of [utf8ToBase64] before [btoa] give octets, and the two
    steps of [base64ToUtf8] after [atob] give the string back. *)
Lemma utf8_round_trip (s : list Z) :
  well_formed s ->
  exists enc,
    encodeURIComponent s = Ok enc /\
    Forall octet (unescape enc) /\
    decodeURIComponent (escape (unescape enc)) = Ok s.
Proof.
  induction 1 as [|c s Hc Hs _ (enc & He & Ho & Hd)
                  |hi lo s Hhi Hlo _ (enc & He & Ho & Hd)].
  - exists []. repeat split; constructor.
  - simpl encodeURIComponent. rewrite He. simpl rmap.
    destruct (uri_unreserved c) eqn:Hu.
    + destruct (uri_unreserved_ascii c Hu) as [Hr H37].
      exists (c :: enc). split; [reflexivity|].
      rewrite unescape_plain by exact H37. split.
      * constructor; [unfold octet; lia | exact Ho].
      * change (c :: unescape enc) with ([c] ++ unescape enc).
        rewrite escape_app, decode_escape_ascii, Hd by exact Hr. reflexivity.
    + destruct (surrogate_split c Hs) as [-> ->].
      eexists. split; [reflexivity|].
      rewrite unescape_percents by (apply utf8_octets_octet; lia). split.
      * apply Forall_app. split; [apply utf8_octets_octet; lia | exact Ho].
      * rewrite escape_app.
        destruct (Z.ltb_spec c 0x80) as [Hlt|Hge].
        -- unfold utf8_octets. zcases.
           rewrite decode_escape_ascii, Hd by lia. reflexivity.
        -- rewrite escape_high by (apply utf8_octets_high; lia).
           rewrite decode_utf8, Hd by (try lia; exact Hs).
           unfold utf16_encode. zcases. reflexivity.
  - simpl encodeURIComponent. rewrite (high_surrogate_reserved hi Hhi), Hhi, Hlo, He.
    simpl rmap.
    destruct (pair_code_point_range hi lo Hhi Hlo) as [Hr Hpair].
    eexists. split; [reflexivity|].
    rewrite unescape_percents by (apply utf8_octets_octet; lia). split.
    + apply Forall_app. split; [apply utf8_octets_octet; lia | exact Ho].
    + rewrite escape_app, escape_high by (apply utf8_octets_high; lia).
      rewrite decode_utf8, Hd, Hpair; [reflexivity | lia |].
      unfold is_surrogate, in_range. zcases; reflexivity.
Qed.

End Utf8RoundTrip.

(** ** Base64 *)

Section Base64Facts.

Import Base64.

(** Induction on a list three elements at a time. *)
Lemma list_ind3 {A} (P : list A -> Prop) :
  P [] -> (forall a, P [a]) -> (forall a b, P [a; b]) ->
  (forall a b c l, P l -> P (a :: b :: c :: l)) ->
  forall l, P l.
Proof.
  intros H0 H1 H2 H3.
  fix IH 1. intros [|a [|b [|c l]]];
    [exact H0 | apply H1 | apply H2 | apply H3, IH].
Qed.

Lemma b64_index_char (i : Z) : 0 <= i < 64 -> b64_index (b64_char i) = Some i.
Proof.
  intros H. unfold b64_index, b64_char, is_upper, is_lower, is_digit, in_range.
  zcases; simpl; try (f_equal; lia).
Qed.

Lemma b64_char_not_pad (i : Z) : 0 <= i < 64 -> (b64_char i =? 61) = false.
Proof. intros H. unfold b64_char. zcases; reflexivity. Qed.

Lemma b64_char_not_space (i : Z) :
  0 <= i < 64 -> ascii_whitespace (b64_char i) = false.
Proof.
  intros H. unfold ascii_whitespace, one_of, b64_char. simpl.
  zcases; reflexivity.
Qed.

Lemma b64_encode_length (l : list Z) :
  l = [] \/ exists k, length (b64_encode l) = (4 * S k)%nat.
Proof.
  induction l as [| a | a b | a b c l IH] using list_ind3.
  - left. reflexivity.
  - right. exists 0%nat. reflexivity.
  - right. exists 0%nat. reflexivity.
  - right. destruct IH as [->|[k IH]].
    + exists 0%nat. reflexivity.
    + exists (S k). simpl. rewrite IH. lia.
Qed.

Lemma b64_encode_no_space (l : list Z) :
  Forall octet l ->
  filter (fun c => ascii_whitespace c = false) (b64_encode l) = b64_encode l.
Proof.
  unfold octet.
  induction l as [| a | a b | a b c l IH] using list_ind3; intros H.
  - reflexivity.
  - inversion_clear H as [|? ? Ha _]. simpl b64_encode.
    rewrite !filter_cons, !b64_char_not_space by lia. reflexivity.
  - inversion_clear H as [|? ? Ha H']. inversion_clear H' as [|? ? Hb _].
    simpl b64_encode.
    rewrite !filter_cons, !b64_char_not_space by lia. reflexivity.
  - inversion_clear H as [|? ? Ha H']. inversion_clear H' as [|? ? Hb H''].
    inversion_clear H'' as [|? ? Hc Hl].
    simpl b64_encode.
    rewrite !filter_cons, !b64_char_not_space, IH by (try lia; exact Hl).
    reflexivity.
Qed.

Lemma strip_padding_group (x y z w : Z) (s : list Z) (k : nat) :
  length s = (4 * S k)%nat ->
  strip_padding (x :: y :: z :: w :: s) = x :: y :: z :: w :: strip_padding s.
Proof.
  intros Hlen. unfold strip_padding.
  replace (Z.of_nat (length (x :: y :: z :: w :: s)) mod 4 =? 0) with true
    by (simpl length; rewrite Hlen; symmetry; apply Z.eqb_eq; lia).
  replace (Z.of_nat (length s) mod 4 =? 0) with true
    by (rewrite Hlen; symmetry; apply Z.eqb_eq; lia).
  simpl rev. rewrite <- !app_assoc. simpl app.
  assert (Hs : s = rev (rev s)) by (symmetry; apply rev_involutive).
  assert (Hr : length (rev s) = (4 * S k)%nat) by (rewrite length_rev; exact Hlen).
  destruct (rev s) as [|p [|q t]]; try (simpl in Hr; lia).
  simpl. destruct (p =? 61).
  - destruct (q =? 61).
    + rewrite rev_app_distr. reflexivity.
    + simpl. rewrite rev_app_distr. reflexivity.
  - rewrite Hs. reflexivity.
Qed.

Lemma strip_padding_encode (l : list Z) :
  Forall octet l -> strip_padding (b64_encode l) = b64_unpadded l.
Proof.
  unfold octet.
  induction l as [| a | a b | a b c l IH] using list_ind3; intros H.
  - reflexivity.
  - reflexivity.
  - inversion_clear H as [|? ? Ha H']. inversion_clear H' as [|? ? Hb _].
    unfold strip_padding. simpl. rewrite b64_char_not_pad by lia. reflexivity.
  - inversion_clear H as [|? ? Ha H']. inversion_clear H' as [|? ? Hb H''].
    inversion_clear H'' as [|? ? Hc Hl].
    simpl b64_encode. simpl b64_unpadded.
    destruct (b64_encode_length l) as [->|[k Hk]].
    + unfold strip_padding. simpl. rewrite b64_char_not_pad by lia. reflexivity.
    + rewrite (strip_padding_group _ _ _ _ _ k Hk), IH by exact Hl. reflexivity.
Qed.

Lemma b64_decode_unpadded (l : list Z) :
  Forall octet l -> b64_decode (b64_unpadded l) = Some l.
Proof.
  unfold octet.
  induction l as [| a | a b | a b c l IH] using list_ind3; intros H.
  - reflexivity.
  - inversion_clear H as [|? ? Ha _]. simpl.
    rewrite !b64_index_char by lia. do 2 f_equal. lia.
  - inversion_clear H as [|? ? Ha H']. inversion_clear H' as [|? ? Hb _]. simpl.
    rewrite !b64_index_char by lia. do 2 f_equal; [lia|f_equal; lia].
  - inversion_clear H as [|? ? Ha H']. inversion_clear H' as [|? ? Hb H''].
    inversion_clear H'' as [|? ? Hc Hl].
    simpl b64_unpadded. cbn [b64_decode].
    rewrite !b64_index_char, IH by (try lia; exact Hl).
    do 2 f_equal; [lia|]. f_equal; [lia|]. f_equal. lia.
Qed.

Lemma btoa_octets (l : list Z) : Forall octet l -> btoa l = Ok (b64_encode l).
Proof.
  intros H. unfold btoa.
  replace (forallb (fun c => c <=? 255) l) with true; [reflexivity|].
  symmetry. apply forallb_forall. intros c Hc.
  rewrite Forall_forall in H. apply list_elem_of_In, H in Hc.
  unfold octet in Hc. apply Z.leb_le. lia.
Qed.

(** [atob] undoes [btoa] on octets. *)
Lemma atob_btoa (l : list Z) :
  Forall octet l -> atob (b64_encode l) = Ok l.
Proof.
  intros H. unfold atob.
  rewrite b64_encode_no_space, strip_padding_encode, b64_decode_unpadded by exact H.
  reflexivity.
Qed.

End Base64Facts.

(** ** JSON strings *)

Section JsonStringFacts.

Import Json.

#[local] Arguments hex4 : simpl never.
#[local] Arguments hex_lower : simpl never.

Lemma low_surrogate_range (c : Z) :
  is_low_surrogate c = true -> 0xDC00 <= c <= 0xDFFF.
Proof. unfold is_low_surrogate, in_range. zcases; simpl; intros; try discriminate; lia. Qed.

Lemma parse_unicode_escape (c : Z) (tail : list Z) :
  0 <= c < 65536 ->
  parse_string (unicode_escape c ++ tail) = push c (parse_string tail).
Proof.
  intros H. unfold unicode_escape. simpl. rewrite hex4_lower by exact H. reflexivity.
Qed.

Lemma parse_plain (c : Z) (tail : list Z) :
  32 <= c -> c <> 34 -> c <> 92 ->
  parse_string (c :: tail) = push c (parse_string tail).
Proof. intros H1 H2 H3. simpl. zcases. reflexivity. Qed.

(** Reading back what [QuoteJSONString] wrote. *)
Lemma parse_string_quote_chars (n : nat) :
  forall s rest,
    (length s <= n)%nat -> code_units s ->
    parse_string (quote_chars s ++ 34 :: rest) = Some (s, rest).
Proof.
  induction n as [|n IH]; intros [|c r] rest Hlen Hcu; try reflexivity;
    simpl in Hlen; [lia|].
  inversion_clear Hcu as [|? ? Hc Hr].
  assert (IHr : parse_string (quote_chars r ++ 34 :: rest) = Some (r, rest))
    by (apply IH; [lia | exact Hr]).
  cbn [quote_chars].
  destruct (Z.eqb_spec c 8) as [->|]; [simpl; rewrite IHr; reflexivity|].
  destruct (Z.eqb_spec c 9) as [->|]; [simpl; rewrite IHr; reflexivity|].
  destruct (Z.eqb_spec c 10) as [->|]; [simpl; rewrite IHr; reflexivity|].
  destruct (Z.eqb_spec c 12) as [->|]; [simpl; rewrite IHr; reflexivity|].
  destruct (Z.eqb_spec c 13) as [->|]; [simpl; rewrite IHr; reflexivity|].
  destruct (Z.eqb_spec c 34) as [->|]; [simpl; rewrite IHr; reflexivity|].
  destruct (Z.eqb_spec c 92) as [->|]; [simpl; rewrite IHr; reflexivity|].
  destruct (Z.ltb_spec c 32).
  { rewrite <- app_assoc, parse_unicode_escape, IHr by exact Hc. reflexivity. }
  destruct (is_high_surrogate c) eqn:Hh.
  { destruct r as [|d r'].
    - rewrite parse_unicode_escape by exact Hc. reflexivity.
    - destruct (is_low_surrogate d) eqn:Hl.
      + apply low_surrogate_range in Hl.
        inversion_clear Hr as [|? ? Hd Hr'].
        simpl app. rewrite !parse_plain by lia.
        rewrite IH by (try exact Hr'; simpl in Hlen; lia). reflexivity.
      + rewrite <- app_assoc, parse_unicode_escape, IHr by exact Hc. reflexivity. }
  destruct (is_low_surrogate c) eqn:Hl.
  { rewrite <- app_assoc, parse_unicode_escape, IHr by exact Hc. reflexivity. }
  simpl app. rewrite parse_plain, IHr by lia. reflexivity.
Qed.

Lemma hex_lower_ascii (d : Z) : 0 <= d < 16 -> 0 <= hex_lower d < 128.
Proof. intros H. unfold hex_lower. zcases. Qed.

Lemma ascii_well_formed (s : list Z) :
  Forall (fun c => 0 <= c < 0xD800) s -> well_formed s.
Proof.
  induction 1 as [|c s Hc _ IH]; constructor; try assumption; [lia|].
  unfold is_surrogate, in_range. zcases; reflexivity.
Qed.

Lemma unicode_escape_well_formed (c : Z) :
  0 <= c < 65536 -> well_formed (unicode_escape c).
Proof.
  intros H. apply ascii_well_formed. unfold unicode_escape.
  pose proof (hex_lower_ascii (c / 4096)).
  pose proof (hex_lower_ascii ((c / 256) mod 16)).
  pose proof (hex_lower_ascii ((c / 16) mod 16)).
  pose proof (hex_lower_ascii (c mod 16)).
  repeat constructor; lia.
Qed.

(** [QuoteJSONString] leaves no unpaired surrogate. *)
Lemma quote_chars_well_formed (n : nat) :
  forall s, (length s <= n)%nat -> code_units s -> well_formed (quote_chars s).
Proof.
  induction n as [|n IH]; intros [|c r] Hlen Hcu; try constructor;
    simpl in Hlen; [lia|].
  inversion_clear Hcu as [|? ? Hc Hr].
  assert (IHr : well_formed (quote_chars r)) by (apply IH; [lia | exact Hr]).
  assert (Hesc : forall e, 0 <= e < 128 -> well_formed (92 :: e :: quote_chars r)).
  { intros e He. apply (well_formed_app [92; e]); [|exact IHr].
    apply ascii_well_formed. repeat constructor; lia. }
  cbn [quote_chars].
  destruct (Z.eqb_spec c 8); [apply Hesc; lia|].
  destruct (Z.eqb_spec c 9); [apply Hesc; lia|].
  destruct (Z.eqb_spec c 10); [apply Hesc; lia|].
  destruct (Z.eqb_spec c 12); [apply Hesc; lia|].
  destruct (Z.eqb_spec c 13); [apply Hesc; lia|].
  destruct (Z.eqb_spec c 34); [apply Hesc; lia|].
  destruct (Z.eqb_spec c 92); [apply Hesc; lia|].
  destruct (Z.ltb_spec c 32).
  { apply well_formed_app; [apply unicode_escape_well_formed; exact Hc | exact IHr]. }
  destruct (is_high_surrogate c) eqn:Hh.
  { destruct r as [|d r'].
    - apply unicode_escape_well_formed; exact Hc.
    - destruct (is_low_surrogate d) eqn:Hl.
      + apply wf_pair; try assumption.
        inversion_clear Hr as [|? ? Hd Hr'].
        apply IH; [simpl in Hlen; lia | exact Hr'].
      + apply well_formed_app; [apply unicode_escape_well_formed; exact Hc | exact IHr]. }
  destruct (is_low_surrogate c) eqn:Hl.
  { apply well_formed_app; [apply unicode_escape_well_formed; exact Hc | exact IHr]. }
  apply wf_unit; [exact Hc | | exact IHr].
  unfold is_surrogate, is_high_surrogate, is_low_surrogate, in_range in *.
  revert Hh Hl. zcases; simpl; intros; try discriminate; reflexivity.
Qed.

Lemma quote_well_formed (s : list Z) : code_units s -> well_formed (quote s).
Proof.
  intros H. unfold quote. apply (well_formed_app [34]).
  - apply ascii_well_formed. repeat constructor; lia.
  - apply well_formed_app.
    + apply (quote_chars_well_formed (length s)); [lia | exact H].
    + apply ascii_well_formed. repeat constructor; lia.
Qed.

End JsonStringFacts.

(** ** JSON objects and arrays *)

Section JsonParseFacts.

Import Json.

#[local] Arguments parse_string : simpl never.

Lemma stringify_object_present (props : list (list Z * option (list Z))) :
  stringify_object props = [123] ++ join [44] (member_text <$> present props) ++ [125].
Proof.
  unfold stringify_object, present. do 3 f_equal.
  induction props as [|[k [text|]] props IH]; simpl; [reflexivity| |exact IH].
  f_equal. exact IH.
Qed.

Lemma parse_value_string (fuel : nat) (s : list Z) :
  code_units s -> reads (parse_value (S fuel)) (quote s) (JString s).
Proof.
  intros H rest. unfold quote. simpl.
  rewrite <- app_assoc. simpl app.
  rewrite (parse_string_quote_chars (length s)) by (try lia; exact H).
  reflexivity.
Qed.

Lemma parse_quote (k : list Z) (tail : list Z) :
  code_units k -> parse_string (quote_chars k ++ [34] ++ tail) = Some (k, tail).
Proof.
  intros H. apply (parse_string_quote_chars (length k)); [lia | exact H].
Qed.

Lemma parse_members_more pv (fuel : nat) (k text : list Z) (v : value)
    (more : list Z) :
  code_units k -> reads pv text v ->
  parse_members pv (S fuel) (member_text (k, text) ++ 44 :: more)
  = match parse_members pv fuel more with
    | Some (ms, rest) => Some ((k, v) :: ms, rest)
    | None => None
    end.
Proof.
  intros Hk Hv. unfold member_text, quote. simpl fst. simpl snd.
  rewrite <- !app_assoc. simpl.
  rewrite <- app_assoc, parse_quote by exact Hk. simpl.
  rewrite Hv. reflexivity.
Qed.

Lemma parse_members_last pv (fuel : nat) (k text : list Z) (v : value)
    (rest : list Z) :
  code_units k -> reads pv text v ->
  parse_members pv (S fuel) (member_text (k, text) ++ 125 :: rest)
  = Some ([(k, v)], rest).
Proof.
  intros Hk Hv. unfold member_text, quote. simpl fst. simpl snd.
  rewrite <- !app_assoc. simpl.
  rewrite <- app_assoc, parse_quote by exact Hk. simpl.
  rewrite Hv. reflexivity.
Qed.

Lemma parse_members_join pv (kts : list (list Z * list Z))
    (kvs : list (list Z * value)) :
  Forall2 (member_reads pv) kts kvs -> kts <> [] ->
  forall (fuel : nat) rest,
    (length kts <= fuel)%nat ->
    parse_members pv fuel (join [44] (member_text <$> kts) ++ 125 :: rest)
    = Some (kvs, rest).
Proof.
  induction 1 as [|[k text] [k' v] kts kvs (Hk & Hcu & Hr) Hrest IH];
    [contradiction|].
  intros _ fuel rest Hfuel. simpl in Hk. subst k'. simpl in Hcu, Hr.
  destruct fuel as [|fuel]; [simpl in Hfuel; lia|].
  destruct kts as [|kt kts].
  - inversion Hrest; subst. simpl fmap. cbn [join].
    apply parse_members_last; assumption.
  - change (join [44] (member_text <$> (k, text) :: kt :: kts))
      with (member_text (k, text) ++ [44] ++ join [44] (member_text <$> kt :: kts)).
    rewrite <- !app_assoc. simpl ([44] ++ _).
    rewrite (parse_members_more pv fuel k text v) by assumption.
    rewrite IH by (try discriminate; simpl in *; lia). reflexivity.
Qed.

Lemma parse_elements_join pv (texts : list (list Z)) (vs : list value) :
  Forall2 (reads pv) texts vs -> texts <> [] ->
  forall (fuel : nat) rest,
    (length texts <= fuel)%nat ->
    parse_elements pv fuel (join [44] texts ++ 93 :: rest) = Some (vs, rest).
Proof.
  induction 1 as [|text v texts vs Hr Hrest IH]; [contradiction|].
  intros _ fuel rest Hfuel.
  destruct fuel as [|fuel]; [simpl in Hfuel; lia|].
  destruct texts as [|t texts].
  - inversion Hrest; subst. cbn [join]. simpl. rewrite Hr. reflexivity.
  - change (join [44] (text :: t :: texts))
      with (text ++ [44] ++ join [44] (t :: texts)).
    rewrite <- !app_assoc. simpl. rewrite Hr. simpl.
    rewrite IH by (try discriminate; simpl in *; lia). reflexivity.
Qed.

(** An object with at least one member. *)
Lemma parse_value_object (fuel : nat) (kts : list (list Z * list Z))
    (kvs : list (list Z * value)) :
  Forall2 (member_reads (parse_value fuel)) kts kvs -> kts <> [] ->
  (length kts <= fuel)%nat ->
  reads (parse_value (S fuel)) ([123] ++ join [44] (member_text <$> kts) ++ [125])
        (JObject kvs).
Proof.
  intros H Hne Hfuel rest.
  pose proof (parse_members_join _ kts kvs H Hne fuel rest Hfuel) as Hm.
  rewrite <- !app_assoc. simpl ([125] ++ rest).
  destruct kts as [|[k text] kts]; [contradiction|].
  assert (Hstart : exists tail,
             join [44] (member_text <$> (k, text) :: kts) ++ 125 :: rest = 34 :: tail).
  { destruct kts; simpl; eexists; reflexivity. }
  destruct Hstart as [tail Htail]. rewrite Htail in *.
  simpl. simpl in Hm. rewrite Hm. reflexivity.
Qed.

(** An array of objects. *)
Lemma parse_value_array (fuel : nat) (texts : list (list Z)) (vs : list value) :
  Forall2 (reads (parse_value fuel)) texts vs ->
  Forall (fun t => exists tail, t = 123 :: tail) texts ->
  (length texts <= fuel)%nat ->
  reads (parse_value (S fuel)) (stringify_array texts) (JArray vs).
Proof.
  intros H Hobj Hfuel rest. unfold stringify_array.
  rewrite <- !app_assoc. simpl ([93] ++ rest).
  destruct texts as [|t texts].
  - inversion H; subst. reflexivity.
  - pose proof (parse_elements_join _ (t :: texts) vs H ltac:(discriminate)
                  fuel rest Hfuel) as He.
    inversion_clear Hobj as [|? ? [tail ->] _].
    assert (Hstart : exists tail',
               join [44] ((123 :: tail) :: texts) ++ 93 :: rest = 123 :: tail').
    { destruct texts; simpl; eexists; reflexivity. }
    destruct Hstart as [tail' Htail]. rewrite Htail in *.
    simpl. simpl in He. rewrite He. reflexivity.
Qed.

End JsonParseFacts.

(** ** The recursion bound of [JSON.parse] *)

Section JsonFuelFacts.

Import Json.

Lemma skip_ws_length (s : list Z) : (length (skip_ws s) <= length s)%nat.
Proof.
  induction s as [|c s IH]; simpl; [lia|].
  destruct (json_whitespace c); simpl; lia.
Qed.

Lemma push_some (c : Z) (p : option (list Z * list Z)) (str r : list Z) :
  push c p = Some (str, r) -> exists str', p = Some (str', r).
Proof.
  destruct p as [[str' r']|]; simpl; [|discriminate].
  intros H. injection H as _ <-. exists str'. reflexivity.
Qed.

Lemma parse_string_length (n : nat) :
  forall s str r,
    (length s <= n)%nat -> parse_string s = Some (str, r) ->
    (length r < length s)%nat.
Proof.
  induction n as [|n IH]; intros [|c s] str r Hlen; simpl; try discriminate;
    simpl in Hlen; [lia|].
  destruct (c =? 34).
  { intros H. injection H as _ <-. lia. }
  destruct (c =? 92).
  { destruct s as [|e s1]; [discriminate|].
    destruct (e =? 117).
    - destruct s1 as [|a [|b [|x [|y r5]]]]; try discriminate.
      destruct (hex4 a b x y); [|discriminate].
      intros H. apply push_some in H as [str' H].
      apply IH in H; simpl in *; lia.
    - destruct (escape_char e); [|discriminate].
      intros H. apply push_some in H as [str' H].
      apply IH in H; simpl in *; lia. }
  destruct (c <? 32); [discriminate|].
  intros H. apply push_some in H as [str' H].
  apply IH in H; simpl in *; lia.
Qed.

Lemma span_digits_length (s : list Z) :
  (length (snd (span_digits s)) <= length s)%nat.
Proof.
  induction s as [|c s IH]; simpl; [lia|].
  destruct (is_digit c); [|simpl; lia].
  destruct (span_digits s) as [ds rest]. simpl in *. lia.
Qed.

Lemma strip_prefix_length (p s r : list Z) :
  strip_prefix p s = Some r -> (length r <= length s)%nat.
Proof.
  revert s. induction p as [|a p IH]; intros s; simpl.
  - intros H. injection H as <-. lia.
  - destruct s as [|b s]; [discriminate|].
    destruct (a =? b); [|discriminate]. intros H. apply IH in H. simpl. lia.
Qed.

Lemma number_sign_length (s : list Z) :
  (length (snd (number_sign s)) <= length s)%nat.
Proof.
  destruct s as [|c r]; simpl; [lia|]. destruct (c =? 45); simpl; lia.
Qed.

Lemma number_int_length (s int r : list Z) :
  number_int s = Some (int, r) -> (length r < length s)%nat.
Proof.
  destruct s as [|d s]; simpl; [discriminate|].
  destruct (d =? 48); [intros H; injection H as _ <-; lia|].
  destruct (in_range 49 d 57); [|discriminate].
  pose proof (span_digits_length s) as Hs.
  destruct (span_digits s) as [ds rest]. intros H. injection H as _ <-.
  simpl in Hs. lia.
Qed.

Lemma number_frac_length (s frac r : list Z) :
  number_frac s = Some (frac, r) -> (length r <= length s)%nat.
Proof.
  destruct s as [|c s]; simpl; [intros H; injection H as _ <-; simpl; lia|].
  destruct (c =? 46); [|intros H; injection H as _ <-; simpl; lia].
  pose proof (span_digits_length s) as Hs.
  destruct (span_digits s) as [[|x ds] rest]; [discriminate|].
  intros H. injection H as _ <-. simpl in Hs. lia.
Qed.

Lemma number_exp_length (s exp r : list Z) :
  number_exp s = Some (exp, r) -> (length r <= length s)%nat.
Proof.
  destruct s as [|c s]; unfold number_exp;
    [intros H; injection H as _ <-; simpl; lia|].
  destruct (one_of [101; 69] c); [|intros H; injection H as _ <-; simpl; lia].
  assert (Hsign : forall esign r',
            match s with
            | g :: r' => if one_of [43; 45] g then ([g], r') else ([], s)
            | [] => ([], s)
            end = (esign, r') -> (length r' <= length s)%nat).
  { intros esign r'. destruct s as [|g s']; [intros H; injection H as _ <-; lia|].
    destruct (one_of [43; 45] g); intros H; injection H as _ <-; simpl; lia. }
  destruct (match s with
            | g :: r' => if one_of [43; 45] g then ([g], r') else ([], s)
            | [] => ([], s)
            end) as [esign r'].
  specialize (Hsign esign r' eq_refl).
  pose proof (span_digits_length r') as Hs.
  destruct (span_digits r') as [[|x ds] rest]; [discriminate|].
  intros H. injection H as _ <-. simpl in *. lia.
Qed.

Lemma parse_number_length (s lexeme r : list Z) :
  parse_number s = Some (lexeme, r) -> (length r < length s)%nat.
Proof.
  unfold parse_number. pose proof (number_sign_length s) as H0.
  destruct (number_sign s) as [sign s1]. simpl in H0.
  destruct (number_int s1) as [[int s2]|] eqn:E1; [|discriminate].
  destruct (number_frac s2) as [[frac s3]|] eqn:E2; [|discriminate].
  destruct (number_exp s3) as [[exp s4]|] eqn:E3; [|discriminate].
  apply number_int_length in E1. apply number_frac_length in E2.
  apply number_exp_length in E3. intros H. injection H as _ <-. lia.
Qed.

Lemma parse_elements_fuel pv pv' (bound : nat) :
  agree_up_to bound pv pv' ->
  forall (fuel : nat) s fuel',
    (length s <= bound)%nat -> (length s < fuel)%nat -> (fuel <= fuel')%nat ->
    parse_elements pv' fuel' s = parse_elements pv fuel s /\
    forall vs r, parse_elements pv fuel s = Some (vs, r) -> (length r < length s)%nat.
Proof.
  intros Hpv. induction fuel as [|fuel IH]; intros s fuel' Hb Hf Hf'; [lia|].
  destruct fuel' as [|fuel']; [lia|]. simpl.
  destruct (Hpv s Hb) as [-> Hprog].
  destruct (pv s) as [[v r]|]; [|split; [reflexivity|discriminate]].
  specialize (Hprog v r eq_refl).
  pose proof (skip_ws_length r) as Hws.
  destruct (skip_ws r) as [|d r']; [split; [reflexivity|discriminate]|].
  simpl in Hws.
  destruct (d =? 44).
  - destruct (IH r' fuel') as [-> Hrest]; try lia.
    destruct (parse_elements pv fuel r') as [[vs rest]|];
      [|split; [reflexivity|discriminate]].
    split; [reflexivity|]. intros vs' r0 H. injection H as _ <-.
    specialize (Hrest vs rest eq_refl). lia.
  - destruct (d =? 93); split; try reflexivity; try discriminate.
    intros vs r0 H. injection H as _ <-. lia.
Qed.

Lemma parse_members_fuel pv pv' (bound : nat) :
  agree_up_to bound pv pv' ->
  forall (fuel : nat) s fuel',
    (length s <= bound)%nat -> (length s < fuel)%nat -> (fuel <= fuel')%nat ->
    parse_members pv' fuel' s = parse_members pv fuel s /\
    forall ms r, parse_members pv fuel s = Some (ms, r) -> (length r < length s)%nat.
Proof.
  intros Hpv. induction fuel as [|fuel IH]; intros s fuel' Hb Hf Hf'; [lia|].
  destruct fuel' as [|fuel']; [lia|]. simpl.
  pose proof (skip_ws_length s) as Hws0.
  destruct (skip_ws s) as [|q r]; [split; [reflexivity|discriminate]|].
  simpl in Hws0.
  destruct (q =? 34); [|split; [reflexivity|discriminate]].
  destruct (parse_string r) as [[key r1]|] eqn:Ekey;
    [|split; [reflexivity|discriminate]].
  apply (parse_string_length (length r)) in Ekey; [|lia].
  pose proof (skip_ws_length r1) as Hws1.
  destruct (skip_ws r1) as [|colon r2]; [split; [reflexivity|discriminate]|].
  simpl in Hws1.
  destruct (colon =? 58); [|split; [reflexivity|discriminate]].
  destruct (Hpv r2 ltac:(lia)) as [-> Hprog].
  destruct (pv r2) as [[v r3]|]; [|split; [reflexivity|discriminate]].
  specialize (Hprog v r3 eq_refl).
  pose proof (skip_ws_length r3) as Hws3.
  destruct (skip_ws r3) as [|d r4]; [split; [reflexivity|discriminate]|].
  simpl in Hws3.
  destruct (d =? 44).
  - destruct (IH r4 fuel') as [-> Hrest]; try lia.
    destruct (parse_members pv fuel r4) as [[ms rest]|];
      [|split; [reflexivity|discriminate]].
    split; [reflexivity|]. intros ms' r0 H. injection H as _ <-.
    specialize (Hrest ms rest eq_refl). lia.
  - destruct (d =? 125); split; try reflexivity; try discriminate.
    intros ms r0 H. injection H as _ <-. lia.
Qed.

(** Fuel beyond the length of the text changes nothing, and a value uses
    up some of the text. *)
Lemma parse_value_fuel (fuel : nat) :
  forall s fuel',
    (length s < fuel)%nat -> (fuel <= fuel')%nat ->
    parse_value fuel' s = parse_value fuel s /\
    forall v r, parse_value fuel s = Some (v, r) -> (length r < length s)%nat.
Proof.
  induction fuel as [|fuel IH]; intros s fuel' Hf Hf'; [lia|].
  destruct fuel' as [|fuel']; [lia|]. cbn [parse_value].
  pose proof (skip_ws_length s) as Hws.
  destruct (skip_ws s) as [|c r]; [split; [reflexivity|discriminate]|].
  simpl in Hws.
  assert (Hagree : forall bound, (bound < fuel)%nat ->
                     agree_up_to bound (parse_value fuel) (parse_value fuel')).
  { intros bound Hb s' Hs'. apply IH; lia. }
  destruct (c =? 34).
  { destruct (parse_string r) as [[str rest]|] eqn:E;
      [|split; [reflexivity|discriminate]].
    apply (parse_string_length (length r)) in E; [|lia].
    split; [reflexivity|]. intros v r0 H. injection H as _ <-. lia. }
  destruct (c =? 91).
  { pose proof (skip_ws_length r) as Hws'.
    destruct (skip_ws r) as [|d r']; [split; [reflexivity|discriminate]|].
    simpl in Hws'.
    destruct (d =? 93).
    - split; [reflexivity|]. intros v r0 H. injection H as _ <-. lia.
    - destruct (parse_elements_fuel _ _ (length (d :: r'))
                  (Hagree (length (d :: r')) ltac:(simpl; lia)) fuel (d :: r') fuel')
        as [-> Hrest]; try (simpl; lia).
      destruct (parse_elements (parse_value fuel) fuel (d :: r')) as [[vs rest]|];
        [|split; [reflexivity|discriminate]].
      split; [reflexivity|]. intros v r0 H. injection H as _ <-.
      specialize (Hrest vs rest eq_refl). simpl in Hrest. lia. }
  destruct (c =? 123).
  { pose proof (skip_ws_length r) as Hws'.
    destruct (skip_ws r) as [|d r']; [split; [reflexivity|discriminate]|].
    simpl in Hws'.
    destruct (d =? 125).
    - split; [reflexivity|]. intros v r0 H. injection H as _ <-. lia.
    - destruct (parse_members_fuel _ _ (length (d :: r'))
                  (Hagree (length (d :: r')) ltac:(simpl; lia)) fuel (d :: r') fuel')
        as [-> Hrest]; try (simpl; lia).
      destruct (parse_members (parse_value fuel) fuel (d :: r')) as [[ms rest]|];
        [|split; [reflexivity|discriminate]].
      split; [reflexivity|]. intros v r0 H. injection H as _ <-.
      specialize (Hrest ms rest eq_refl). simpl in Hrest. lia. }
  destruct (c =? 116).
  { destruct (strip_prefix (lit "rue") r) as [rest|] eqn:E;
      [|split; [reflexivity|discriminate]].
    apply strip_prefix_length in E.
    split; [reflexivity|]. intros v r0 H. injection H as _ <-. lia. }
  destruct (c =? 102).
  { destruct (strip_prefix (lit "alse") r) as [rest|] eqn:E;
      [|split; [reflexivity|discriminate]].
    apply strip_prefix_length in E.
    split; [reflexivity|]. intros v r0 H. injection H as _ <-. lia. }
  destruct (c =? 110).
  { destruct (strip_prefix (lit "ull") r) as [rest|] eqn:E;
      [|split; [reflexivity|discriminate]].
    apply strip_prefix_length in E.
    split; [reflexivity|]. intros v r0 H. injection H as _ <-. lia. }
  destruct (parse_number (c :: r)) as [[lexeme rest]|] eqn:E;
    [|split; [reflexivity|discriminate]].
  apply parse_number_length in E. simpl in E.
  split; [reflexivity|]. intros v r0 H. injection H as _ <-. lia.
Qed.

(** The bound [JSON.parse] runs with is never what makes it fail: any
    larger bound gives the same result. *)
Lemma parse_fuel_enough (text : list Z) (fuel : nat) :
  (length text < fuel)%nat ->
  parse_value fuel text = parse_value (S (length text)) text.
Proof.
  intros H. apply (parse_value_fuel (S (length text))); lia.
Qed.

End JsonFuelFacts.

(** ** The folio codec *)

Section FolioFacts.

Import Json QrGenerator FolioPage.

Lemma valid_link_spec (l : Link) : valid_link l = has_title_and_url l.
Proof.
  unfold valid_link, has_title_and_url.
  destruct (link_title l), (link_url l); reflexivity.
Qed.

Lemma lit_code_units (s : string) : code_units (lit s).
Proof.
  unfold code_units, lit. induction s as [|a s IH]; simpl; constructor; [|exact IH].
  pose proof (N_ascii_bounded a). lia.
Qed.

Lemma code_unitsb_units (s : list Z) : code_unitsb s = true -> code_units s.
Proof.
  unfold code_unitsb, code_units. intros H.
  apply Forall_forall. intros c Hc. apply list_elem_of_In in Hc.
  rewrite forallb_forall in H. specialize (H c Hc).
  apply andb_true_iff in H as [H1 H2].
  apply Z.leb_le in H1. apply Z.ltb_lt in H2. lia.
Qed.

Lemma field_unitsb_units (field : option (list Z)) :
  field_unitsb field = true -> field_units field.
Proof. destruct field; simpl; [apply code_unitsb_units | trivial]. Qed.

Lemma folio_data_units (qrData : QrData) :
  folio_strings_ok qrData = true -> folio_units (folio_data qrData).
Proof.
  unfold folio_strings_ok. rewrite !andb_true_iff.
  intros [[[Hp Hn] Ht] Hl]. unfold folio_units, folio_data. simpl.
  repeat split; try (apply field_unitsb_units; assumption).
  apply Forall_forall. intros l Hin.
  apply list_elem_of_In, filter_In in Hin. destruct Hin as [Hin _].
  rewrite forallb_forall in Hl. specialize (Hl l Hin).
  apply andb_true_iff in Hl as [H1 H2].
  split; apply code_unitsb_units; assumption.
Qed.

Lemma string_member_reads (fuel : nat) (k : string) (s : list Z) :
  code_units s ->
  member_reads (parse_value (S fuel)) (lit k, quote s) (lit k, JString s).
Proof.
  intros H. split; [reflexivity|]. split; [apply lit_code_units|].
  apply parse_value_string. exact H.
Qed.

Lemma reads_link (fuel : nat) (l : Link) :
  link_units l ->
  reads (parse_value (S (S (S fuel)))) (stringify_link l) (link_json l).
Proof.
  intros [Ht Hu]. unfold stringify_link, link_json.
  rewrite stringify_object_present.
  apply (parse_value_object (S (S fuel))
           [(lit "title", quote (link_title l)); (lit "url", quote (link_url l))]).
  - repeat (apply List.Forall2_cons; [apply string_member_reads; assumption|]).
    apply List.Forall2_nil.
  - discriminate.
  - simpl. lia.
Qed.

Lemma stringify_link_brace (l : Link) : exists tail, stringify_link l = 123 :: tail.
Proof. eexists. reflexivity. Qed.

Lemma reads_links (fuel : nat) (ls : list Link) :
  Forall link_units ls -> (length ls <= fuel)%nat ->
  reads (parse_value (S (S (S (S fuel)))))
        (stringify_array (stringify_link <$> ls)) (JArray (link_json <$> ls)).
Proof.
  intros H Hfuel. apply parse_value_array.
  - induction H as [|l ls Hl _ IH]; constructor.
    + apply reads_link. exact Hl.
    + apply IH. simpl in Hfuel. lia.
  - apply Forall_fmap, Forall_forall. intros l _. apply stringify_link_brace.
  - rewrite length_fmap. lia.
Qed.

Lemma reads_folio (fuel : nat) (d : FolioData) :
  folio_units d -> (length (links d) <= fuel)%nat ->
  reads (parse_value (S (S (S (S (S fuel)))))) (stringify_folio d)
        (JObject (folio_members d)).
Proof.
  intros (Hp & Hn & Ht & Hl) Hfuel. unfold stringify_folio, folio_members.
  rewrite stringify_object_present.
  pose proof (reads_links fuel (links d) Hl Hfuel) as Hlinks.
  destruct (profileImageUrl d) as [p|], (name d) as [n|], (title d) as [t|];
    cbn [present omap list_omap fst snd stringify_string fmap option_fmap
         option_map optional_member id app];
    (apply parse_value_object; [|discriminate|simpl; lia]);
    repeat (apply List.Forall2_cons; [apply string_member_reads; assumption|]);
    (apply List.Forall2_cons; [|apply List.Forall2_nil]);
    (split; [reflexivity|split; [apply lit_code_units|exact Hlinks]]).
Qed.

Lemma join_length (sep : list Z) (parts : list (list Z)) :
  (length (concat parts) <= length (join sep parts))%nat.
Proof.
  induction parts as [|p parts IH]; [simpl; lia|].
  destruct parts as [|q parts].
  - simpl. rewrite app_nil_r. lia.
  - change (join sep (p :: q :: parts)) with (p ++ sep ++ join sep (q :: parts)).
    change (concat (p :: q :: parts)) with (p ++ concat (q :: parts)).
    rewrite !length_app. lia.
Qed.

Lemma links_text_length (ls : list Link) :
  (length ls <= length (concat (stringify_link <$> ls)))%nat.
Proof.
  induction ls as [|l ls IH]; [simpl; lia|].
  change (concat (stringify_link <$> l :: ls))
    with (stringify_link l ++ concat (stringify_link <$> ls)).
  rewrite length_app. destruct (stringify_link_brace l) as [tail ->].
  simpl length. lia.
Qed.

Lemma stringify_folio_length (d : FolioData) :
  (length (links d) + 4 <= length (stringify_folio d))%nat.
Proof.
  unfold stringify_folio. rewrite stringify_object_present.
  pose proof (join_length [44] (stringify_link <$> links d)) as H1.
  pose proof (links_text_length (links d)) as H2.
  set (texts := stringify_link <$> links d) in *.
  assert (H3 : forall front : list (list Z * list Z),
             (length (links d) + 4 <=
              length (join [44%Z] (member_text <$> front ++
                        [(lit "links", stringify_array texts)])))%nat).
  { intros front.
    etransitivity; [|apply join_length].
    rewrite fmap_app, concat_app, length_app. simpl.
    unfold member_text, stringify_array. simpl.
    rewrite ?length_app. simpl. rewrite ?length_app. simpl. lia. }
  rewrite !length_app.
  destruct (profileImageUrl d) as [p|], (name d) as [n|], (title d) as [t|];
    cbn [present omap list_omap fst snd stringify_string fmap option_fmap
         option_map].
  - pose proof (H3 [(lit "profileImageUrl", quote p); (lit "name", quote n);
                    (lit "title", quote t)]) as H. cbn [app fmap] in H.
    change (length [123]) with 1%nat. change (length [125]) with 1%nat. lia.
  - pose proof (H3 [(lit "profileImageUrl", quote p); (lit "name", quote n)]) as H.
    cbn [app fmap] in H.
    change (length [123]) with 1%nat. change (length [125]) with 1%nat. lia.
  - pose proof (H3 [(lit "profileImageUrl", quote p); (lit "title", quote t)]) as H.
    cbn [app fmap] in H.
    change (length [123]) with 1%nat. change (length [125]) with 1%nat. lia.
  - pose proof (H3 [(lit "profileImageUrl", quote p)]) as H. cbn [app fmap] in H.
    change (length [123]) with 1%nat. change (length [125]) with 1%nat. lia.
  - pose proof (H3 [(lit "name", quote n); (lit "title", quote t)]) as H.
    cbn [app fmap] in H.
    change (length [123]) with 1%nat. change (length [125]) with 1%nat. lia.
  - pose proof (H3 [(lit "name", quote n)]) as H. cbn [app fmap] in H.
    change (length [123]) with 1%nat. change (length [125]) with 1%nat. lia.
  - pose proof (H3 [(lit "title", quote t)]) as H. cbn [app fmap] in H.
    change (length [123]) with 1%nat. change (length [125]) with 1%nat. lia.
  - pose proof (H3 []) as H. cbn [app fmap] in H.
    change (length [123]) with 1%nat. change (length [125]) with 1%nat. lia.
Qed.

(** [JSON.parse] reads the text of the folio object back. *)
Lemma parse_stringify_folio (d : FolioData) :
  folio_units d -> parse (stringify_folio d) = Ok (JObject (folio_members d)).
Proof.
  intros H. unfold parse.
  pose proof (stringify_folio_length d) as Hlen.
  destruct (length (stringify_folio d)) as [|[|[|[|fuel]]]] eqn:E; try lia.
  pose proof (reads_folio fuel d H ltac:(lia) []) as Hr.
  rewrite app_nil_r in Hr. rewrite Hr. reflexivity.
Qed.

End FolioFacts.

Section FolioRoundTrip.

Import Json QrGenerator FolioPage.

Lemma join_well_formed (sep : list Z) (parts : list (list Z)) :
  well_formed sep -> Forall well_formed parts -> well_formed (join sep parts).
Proof.
  intros Hsep. induction 1 as [|p parts Hp Hparts IH]; [constructor|].
  destruct parts as [|q parts]; [exact Hp|].
  change (join sep (p :: q :: parts)) with (p ++ sep ++ join sep (q :: parts)).
  repeat apply well_formed_app; assumption.
Qed.

Lemma char_well_formed (c : Z) : 0 <= c < 0xD800 -> well_formed [c].
Proof. intros H. apply ascii_well_formed. repeat constructor; lia. Qed.

Lemma object_well_formed (kts : list (list Z * list Z)) :
  Forall (fun kt => code_units (fst kt) /\ well_formed (snd kt)) kts ->
  well_formed ([123] ++ join [44] (member_text <$> kts) ++ [125]).
Proof.
  intros H. repeat apply well_formed_app; try (apply char_well_formed; lia).
  apply join_well_formed; [apply char_well_formed; lia|].
  apply Forall_fmap. eapply Forall_impl; [exact H|].
  intros [k text] [Hk Ht]. unfold member_text. cbn [fst snd] in *.
  apply well_formed_app; [apply quote_well_formed; exact Hk|].
  apply (well_formed_app [58]); [apply char_well_formed; lia | exact Ht].
Qed.

Lemma stringify_link_well_formed (l : Link) :
  link_units l -> well_formed (stringify_link l).
Proof.
  intros [Ht Hu]. unfold stringify_link. rewrite stringify_object_present.
  apply object_well_formed.
  repeat (apply List.Forall_cons;
          [split; [apply lit_code_units | apply quote_well_formed; assumption]|]).
  apply List.Forall_nil.
Qed.

Lemma stringify_links_well_formed (ls : list Link) :
  Forall link_units ls ->
  well_formed (stringify_array (stringify_link <$> ls)).
Proof.
  intros H. unfold stringify_array.
  repeat apply well_formed_app; try (apply char_well_formed; lia).
  apply join_well_formed; [apply char_well_formed; lia|].
  apply Forall_fmap. eapply Forall_impl; [exact H|].
  intros l Hl. apply stringify_link_well_formed. exact Hl.
Qed.

Lemma stringify_folio_well_formed (d : FolioData) :
  folio_units d -> well_formed (stringify_folio d).
Proof.
  intros (Hp & Hn & Ht & Hl). unfold stringify_folio.
  rewrite stringify_object_present.
  pose proof (stringify_links_well_formed (links d) Hl) as Hlinks.
  destruct (profileImageUrl d) as [p|], (name d) as [n|], (title d) as [t|];
    cbn [present omap list_omap fst snd stringify_string fmap option_fmap
         option_map];
    apply object_well_formed;
    repeat (apply List.Forall_cons;
            [split; [apply lit_code_units
                    | first [exact Hlinks | apply quote_well_formed; assumption]]|]);
    apply List.Forall_nil.
Qed.

(** [base64ToUtf8] undoes [utf8ToBase64] on a string without unpaired
    surrogates. *)
Lemma token_round_trip (text : list Z) :
  well_formed text ->
  exists token, utf8ToBase64 text = Ok token /\ base64ToUtf8 token = Ok text.
Proof.
  intros H. destruct (utf8_round_trip text H) as (enc & He & Ho & Hd).
  exists (Base64.b64_encode (Uri.unescape enc)). split.
  - unfold utf8ToBase64. rewrite He. simpl. rewrite btoa_octets by exact Ho.
    reflexivity.
  - unfold base64ToUtf8. rewrite atob_btoa by exact Ho. simpl. rewrite Hd.
    reflexivity.
Qed.

Lemma remove_dups_nonempty (keys : list (list Z)) :
  keys <> [] -> remove_dups keys <> [].
Proof.
  destruct keys as [|k keys]; [contradiction|]. intros _ H.
  assert (Hin : k ∈ remove_dups (k :: keys))
    by (apply elem_of_remove_dups; left).
  rewrite H in Hin. inversion Hin.
Qed.

Lemma folio_members_keys (d : FolioData) :
  length (remove_dups (fst <$> folio_members d)) <> 0%nat.
Proof.
  intros H. apply length_zero_iff_nil in H. revert H.
  apply remove_dups_nonempty. unfold folio_members.
  rewrite fmap_app. intros H. apply app_eq_nil in H as [_ H]. discriminate.
Qed.

Lemma base64ToUtf8_empty : base64ToUtf8 [] = Ok [].
Proof. vm_compute. reflexivity. Qed.

(** The page data of the token of a folio object is that object. *)
Lemma folio_decodes (d : FolioData) :
  folio_units d ->
  exists token,
    utf8ToBase64 (stringify_folio d) = Ok token /\
    base64ToUtf8 token = Ok (stringify_folio d) /\
    data token = Some (JObject (folio_members d)).
Proof.
  intros H.
  destruct (token_round_trip _ (stringify_folio_well_formed d H))
    as (token & Henc & Hdec).
  exists token. split; [exact Henc|]. split; [exact Hdec|].
  unfold data. destruct token as [|c token].
  - exfalso. rewrite base64ToUtf8_empty in Hdec.
    pose proof (stringify_folio_length d) as Hlen.
    injection Hdec as Hdec. rewrite <- Hdec in Hlen. simpl in Hlen. lia.
  - simpl negb. cbv iota. unfold parse_folio. rewrite Hdec. simpl bind.
    rewrite (parse_stringify_folio d H). simpl bind.
    destruct (length (remove_dups (fst <$> folio_members d))) eqn:E.
    + exfalso. exact (folio_members_keys d E).
    + reflexivity.
Qed.

End FolioRoundTrip.

Section FolioClaims.

Import Json QrGenerator FolioPage.

Lemma folio_links_filtered (qrData : QrData) :
  links (folio_data qrData)
  = List.filter has_title_and_url (default [] (qr_links qrData)).
Proof. unfold folio_data. simpl. apply filter_ext. exact valid_link_spec. Qed.

Lemma folio_members_get (d : FolioData) :
  get (lit "profileImageUrl") (JObject (folio_members d))
  = JString <$> profileImageUrl d /\
  get (lit "name") (JObject (folio_members d)) = JString <$> name d /\
  get (lit "title") (JObject (folio_members d)) = JString <$> title d /\
  get (lit "links") (JObject (folio_members d))
  = Some (JArray (link_json <$> links d)).
Proof.
  unfold folio_members.
  destruct (profileImageUrl d), (name d), (title d); repeat split;
    vm_compute; reflexivity.
Qed.

(** C1: the token of a folio whose strings are sequences of code units
    (accented letters and emoji included) decodes to page data whose name
    is the name that was encoded, absent when it was absent, and whose
    links are the encoded links that have both a title and a url, in
    order. *)
Theorem folio_round_trip (qrData : QrData) :
  folio_strings_ok qrData = true ->
  exists token parsed,
    folio_token qrData = Ok token /\
    data token = Some parsed /\
    get (lit "name") parsed = JString <$> (qr_fields qrData !! "name") /\
    get (lit "links") parsed
    = Some (JArray (link_json <$>
                      List.filter has_title_and_url (default [] (qr_links qrData)))).
Proof.
  intros H. apply folio_data_units in H.
  destruct (folio_decodes _ H) as (token & Henc & _ & Hdata).
  exists token, (JObject (folio_members (folio_data qrData))).
  split; [exact Henc|]. split; [exact Hdata|].
  destruct (folio_members_get (folio_data qrData)) as (_ & Hn & _ & Hl).
  split; [exact Hn|]. rewrite Hl, folio_links_filtered. reflexivity.
Qed.

Lemma folio_round_trip_witness :
  exists token parsed,
    folio_token folio_example_data = Ok token /\
    data token = Some parsed /\
    get (lit "name") parsed
    = JString <$> (qr_fields folio_example_data !! "name") /\
    get (lit "links") parsed
    = Some (JArray (link_json <$>
                      List.filter has_title_and_url
                        (default [] (qr_links folio_example_data)))).
Proof.
  apply (folio_round_trip folio_example_data). vm_compute. reflexivity.
Defined.

(** C3: the JSON text of a folio has a member for an optional field
    exactly when the field is present, with the field's string as value,
    and a links member with the links that have both a title and a url;
    with every optional field absent and no such link the text is the
    object with the single member links and the empty array; the page data
    decoded from the token has the same members, so an absent field reads
    as undefined. *)
Theorem folio_absent_fields_omitted (qrData : QrData) :
  folio_strings_ok qrData = true ->
  exists token parsed,
    folio_token qrData = Ok token /\
    parse (stringify_folio (folio_data qrData)) = Ok parsed /\
    data token = Some parsed /\
    Forall (fun id => get (lit id) parsed = JString <$> (qr_fields qrData !! id))
           ["profileImageUrl"; "name"; "title"]%string /\
    get (lit "links") parsed
    = Some (JArray (link_json <$>
                      List.filter has_title_and_url (default [] (qr_links qrData)))) /\
    (qr_fields qrData !! "profileImageUrl" = None ->
     qr_fields qrData !! "name" = None ->
     qr_fields qrData !! "title" = None ->
     List.filter has_title_and_url (default [] (qr_links qrData)) = [] ->
     stringify_folio (folio_data qrData)
     = [123; 34] ++ lit "links" ++ [34; 58; 91; 93; 125]).
Proof.
  intros H. apply folio_data_units in H.
  destruct (folio_decodes _ H) as (token & Henc & _ & Hdata).
  exists token, (JObject (folio_members (folio_data qrData))).
  split; [exact Henc|]. split; [exact (parse_stringify_folio _ H)|].
  split; [exact Hdata|].
  destruct (folio_members_get (folio_data qrData)) as (Hp & Hn & Ht & Hl).
  split; [|split].
  - repeat (apply List.Forall_cons; [assumption|]). apply List.Forall_nil.
  - rewrite Hl, folio_links_filtered. reflexivity.
  - intros Ep En Et El. unfold stringify_folio.
    rewrite folio_links_filtered, El. unfold folio_data. simpl.
    rewrite Ep, En, Et. reflexivity.
Qed.

Lemma folio_absent_fields_omitted_witness :
  exists token parsed,
    folio_token bare_folio_data = Ok token /\
    parse (stringify_folio (folio_data bare_folio_data)) = Ok parsed /\
    data token = Some parsed /\
    Forall (fun id => get (lit id) parsed
                      = JString <$> (qr_fields bare_folio_data !! id))
           ["profileImageUrl"; "name"; "title"]%string /\
    get (lit "links") parsed
    = Some (JArray (link_json <$>
                      List.filter has_title_and_url
                        (default [] (qr_links bare_folio_data)))) /\
    (qr_fields bare_folio_data !! "profileImageUrl" = None ->
     qr_fields bare_folio_data !! "name" = None ->
     qr_fields bare_folio_data !! "title" = None ->
     List.filter has_title_and_url (default [] (qr_links bare_folio_data)) = [] ->
     stringify_folio (folio_data bare_folio_data)
     = [123; 34] ++ lit "links" ++ [34; 58; 91; 93; 125]).
Proof.
  apply (folio_absent_fields_omitted bare_folio_data). vm_compute. reflexivity.
Defined.

End FolioClaims.

(** ** What [encodeURIComponent] writes and when it throws *)

Section UriSafeFacts.

Import Uri QrGenerator.

Lemma hex_upper_safe (d : Z) : 0 <= d < 16 -> uri_safe (hex_upper d) = true.
Proof.
  intros H. unfold uri_safe, uri_unreserved, is_alnum, is_digit, is_upper, is_lower,
    in_range, hex_upper.
  zcases; reflexivity.
Qed.

Lemma percent_safe (b : Z) : octet b -> Forall (fun c => uri_safe c = true) (percent b).
Proof.
  unfold octet. intros H. unfold percent.
  repeat constructor; apply hex_upper_safe; lia.
Qed.

Lemma percents_safe (bs : list Z) :
  Forall octet bs -> Forall (fun c => uri_safe c = true) (flat_map percent bs).
Proof.
  induction 1 as [|b bs Hb _ IH]; cbn [flat_map]; [constructor|].
  apply Forall_app. split; [apply percent_safe, Hb | exact IH].
Qed.

Lemma lone_low_surrogate (c : Z) (s : list Z) :
  is_low_surrogate c = true -> ~ well_formed (c :: s).
Proof.
  intros Hlow Hwf. inversion Hwf as [|? ? _ Hs _|? ? ? Hhi _ _]; subst.
  - apply surrogate_split in Hs. destruct Hs as [_ Hs]. congruence.
  - revert Hlow Hhi. unfold is_low_surrogate, is_high_surrogate, in_range.
    zcases; simpl; intros; discriminate.
Qed.

Lemma high_surrogate_is_surrogate (c : Z) :
  is_high_surrogate c = true -> is_surrogate c = true.
Proof.
  unfold is_surrogate, is_high_surrogate, in_range.
  zcases; simpl; intros; try discriminate; reflexivity.
Qed.

(** [encodeURIComponent] on a string of code units: it succeeds exactly on
    the strings without unpaired surrogates, it writes nothing but
    unreserved characters and ["%"], and what it throws is a [URIError]. *)
Lemma encodeURIComponent_cases (n : nat) :
  forall s,
    (length s <= n)%nat -> code_units s ->
    (well_formed s /\
     exists enc, encodeURIComponent s = Ok enc /\
                 Forall (fun c => uri_safe c = true) enc) \/
    (~ well_formed s /\ encodeURIComponent s = Throw URIError).
Proof.
  induction n as [|n IH]; intros s Hlen Hs.
  - destruct s; [|simpl in Hlen; lia].
    left. split; [constructor|]. exists []. split; [reflexivity | constructor].
  - destruct s as [|c r].
    { left. split; [constructor|]. exists []. split; [reflexivity | constructor]. }
    inversion_clear Hs as [|? ? Hc Hr]. simpl in Hlen.
    simpl encodeURIComponent.
    destruct (uri_unreserved c) eqn:Hu.
    { destruct (uri_unreserved_ascii c Hu) as [Hrange _].
      assert (Hns : is_surrogate c = false).
      { unfold is_surrogate, in_range. zcases; reflexivity. }
      destruct (IH r ltac:(lia) Hr) as [[Hwf (enc & -> & Hsafe)]|[Hwf ->]].
      - left. split; [apply wf_unit; assumption|].
        exists (c :: enc). split; [reflexivity|].
        constructor; [unfold uri_safe; rewrite Hu; reflexivity | exact Hsafe].
      - right. split; [|reflexivity].
        intros H. inversion H as [|? ? _ _ Hwf'|? ? ? Hhi _ _]; subst.
        + exact (Hwf Hwf').
        + apply high_surrogate_reserved in Hhi. congruence. }
    destruct (is_high_surrogate c) eqn:Hhi.
    { destruct r as [|d r'].
      { right. split; [|reflexivity].
        intros H. inversion H as [|? ? _ Hns _|]; subst.
        apply high_surrogate_is_surrogate in Hhi. congruence. }
      destruct (is_low_surrogate d) eqn:Hlo.
      - inversion_clear Hr as [|? ? Hd Hr'].
        destruct (pair_code_point_range c d Hhi Hlo) as [Hrange _].
        simpl in Hlen.
        destruct (IH r' ltac:(lia) Hr') as [[Hwf (enc & -> & Hsafe)]|[Hwf ->]].
        + left. split; [apply wf_pair; assumption|].
          eexists. split; [reflexivity|].
          apply Forall_app. split; [|exact Hsafe].
          apply percents_safe, utf8_octets_octet. lia.
        + right. split; [|reflexivity].
          intros H. inversion H as [|? ? _ Hns _|? ? ? _ _ Hwf']; subst.
          * apply high_surrogate_is_surrogate in Hhi. congruence.
          * exact (Hwf Hwf').
      - right. split; [|reflexivity].
        intros H. inversion H as [|? ? _ Hns _|? ? ? _ Hlo' _]; subst.
        + apply high_surrogate_is_surrogate in Hhi. congruence.
        + congruence. }
    destruct (is_low_surrogate c) eqn:Hlow.
    { right. split; [apply lone_low_surrogate, Hlow | reflexivity]. }
    assert (Hns : is_surrogate c = false).
    { revert Hhi Hlow. unfold is_surrogate, is_high_surrogate, is_low_surrogate, in_range.
      zcases; simpl; intros; try discriminate; reflexivity. }
    destruct (IH r ltac:(lia) Hr) as [[Hwf (enc & -> & Hsafe)]|[Hwf ->]].
    + left. split; [apply wf_unit; assumption|].
      eexists. split; [reflexivity|].
      apply Forall_app. split; [|exact Hsafe].
      apply percents_safe, utf8_octets_octet. lia.
    + right. split; [|reflexivity].
      intros H. inversion H as [|? ? _ _ Hwf'|? ? ? Hhi' _ _]; subst.
      * exact (Hwf Hwf').
      * congruence.
Qed.

Lemma encodeURIComponent_ok (s : list Z) :
  code_units s -> well_formed s ->
  exists enc, encodeURIComponent s = Ok enc /\
              Forall (fun c => uri_safe c = true) enc.
Proof.
  intros Hs Hwf.
  destruct (encodeURIComponent_cases (length s) s (le_n _) Hs) as [[_ H]|[H _]];
    [exact H | contradiction].
Qed.

Lemma encodeURIComponent_throws (s : list Z) :
  code_units s -> ~ well_formed s -> encodeURIComponent s = Throw URIError.
Proof.
  intros Hs Hwf.
  destruct (encodeURIComponent_cases (length s) s (le_n _) Hs) as [[H _]|[_ H]];
    [contradiction | exact H].
Qed.

Lemma encodeURIComponent_safe (s enc : list Z) :
  code_units s -> encodeURIComponent s = Ok enc ->
  well_formed s /\ Forall (fun c => uri_safe c = true) enc.
Proof.
  intros Hs He.
  destruct (encodeURIComponent_cases (length s) s (le_n _) Hs)
    as [[Hwf (enc' & He' & Hsafe)]|[_ H]]; [|congruence].
  rewrite He in He'. injection He' as <-. split; assumption.
Qed.

Lemma well_formed_dec (s : list Z) :
  code_units s -> well_formed s \/ ~ well_formed s.
Proof.
  intros Hs.
  destruct (encodeURIComponent_cases (length s) s (le_n _) Hs) as [[H _]|[H _]];
    [left | right]; exact H.
Qed.

End UriSafeFacts.

(** ** Kinds that escape their text *)

Section EscapedKinds.

Import Uri QrGenerator.

Lemma payload_effect_ok (href : list Z) (st : State) (value : list Z) :
  encode href (qrType st) (qrData st) = Ok value ->
  qrValue (payload_effect href st) = value /\
  shown (error (payload_effect href st)) = false.
Proof.
  intros H. split; [rewrite payload_effect_value, H; reflexivity|].
  unfold payload_effect. rewrite H.
  assert (Hkeep : forall s, error (set_qr_value_resetting value s) = error s).
  { intros s. unfold set_qr_value_resetting. destruct (str_eqb _ _); reflexivity. }
  rewrite Hkeep. destruct (shown (error st)) eqn:E; [reflexivity | exact E].
Qed.

Lemma payload_effect_throw (href : list Z) (st : State) (e : exn) :
  encode href (qrType st) (qrData st) = Throw e ->
  qrValue (payload_effect href st) = [] /\
  error (payload_effect href st)
  = Some (message_or "An unknown error occurred while generating QR value." e) /\
  aiQrImage (payload_effect href st) = aiQrImage st /\
  validationStatus (payload_effect href st) = validationStatus st.
Proof.
  intros H. unfold payload_effect. rewrite H. repeat split; reflexivity.
Qed.

Lemma all_code_units (strings : list (list Z)) :
  forallb code_unitsb strings = true -> Forall code_units strings.
Proof.
  induction strings as [|s strings IH]; simpl; intros H; [constructor|].
  apply andb_prop in H. destruct H as [Hs H].
  constructor; [apply code_unitsb_units, Hs | exact (IH H)].
Qed.

(** X1: for every kind but the link folio, on form data whose escaped
    fields are strings of code units: the payload effect succeeds when none
    of the fields handed to encodeURIComponent holds an unpaired surrogate,
    and otherwise the encoding throws a URIError, the payload is emptied and
    the message of that error is shown. *)
Theorem escaped_kinds_fail_on_lone_surrogates (href : list Z) (st : State) :
  qrType st <> LinkFolio ->
  Forall code_units (escaped_fields (qrType st) (qrData st)) ->
  (Forall well_formed (escaped_fields (qrType st) (qrData st)) ->
   exists value,
     encode href (qrType st) (qrData st) = Ok value /\
     qrValue (payload_effect href st) = value /\
     shown (error (payload_effect href st)) = false) /\
  (~ Forall well_formed (escaped_fields (qrType st) (qrData st)) ->
   encode href (qrType st) (qrData st) = Throw URIError /\
   qrValue (payload_effect href st) = [] /\
   error (payload_effect href st) = Some (MessageOf URIError)).
Proof.
  intros Hkind Hunits.
  assert (Hgoal :
    (Forall well_formed (escaped_fields (qrType st) (qrData st)) ->
     exists value, encode href (qrType st) (qrData st) = Ok value) /\
    (~ Forall well_formed (escaped_fields (qrType st) (qrData st)) ->
     encode href (qrType st) (qrData st) = Throw URIError)).
  { destruct (qrType st) eqn:Ek; try congruence; unfold escaped_fields in *;
      try (split; [intros _; eexists; reflexivity
                  | intros H; exfalso; apply H; constructor]).
    - (* Email *)
      inversion_clear Hunits as [|? ? Hs Hunits']. inversion_clear Hunits' as [|? ? Hb _].
      unfold encode.
      destruct (well_formed_dec _ Hs) as [Hws|Hws].
      + destruct (encodeURIComponent_ok _ Hs Hws) as (s & -> & _).
        destruct (well_formed_dec _ Hb) as [Hwb|Hwb].
        * destruct (encodeURIComponent_ok _ Hb Hwb) as (b & -> & _).
          split; [intros _; eexists; reflexivity|].
          intros H. exfalso. apply H. repeat constructor; assumption.
        * rewrite (encodeURIComponent_throws _ Hb Hwb).
          split; [|intros _; reflexivity].
          intros H. inversion_clear H as [|? ? _ H']. inversion_clear H' as [|? ? H _].
          contradiction.
      + rewrite (encodeURIComponent_throws _ Hs Hws).
        split; [|intros _; reflexivity].
        intros H. inversion_clear H as [|? ? H' _]. contradiction.
    - (* SMS *)
      inversion_clear Hunits as [|? ? Hm _]. unfold encode.
      destruct (well_formed_dec _ Hm) as [Hwm|Hwm].
      + destruct (encodeURIComponent_ok _ Hm Hwm) as (m & -> & _).
        split; [intros _; eexists; reflexivity|].
        intros H. exfalso. apply H. repeat constructor; assumption.
      + rewrite (encodeURIComponent_throws _ Hm Hwm).
        split; [|intros _; reflexivity].
        intros H. inversion_clear H as [|? ? H' _]. contradiction.
    - (* WhatsApp *)
      unfold encode. destruct (truthy (qr_fields (qrData st) !! "message")).
      + inversion_clear Hunits as [|? ? Hm _].
        destruct (well_formed_dec _ Hm) as [Hwm|Hwm].
        * destruct (encodeURIComponent_ok _ Hm Hwm) as (m & -> & _).
          split; [intros _; eexists; reflexivity|].
          intros H. exfalso. apply H. repeat constructor; assumption.
        * rewrite (encodeURIComponent_throws _ Hm Hwm).
          split; [|intros _; reflexivity].
          intros H. inversion_clear H as [|? ? H' _]. contradiction.
      + split; [intros _; eexists; reflexivity|].
        intros H. exfalso. apply H. constructor. }
  destruct Hgoal as [Hok Hthrow]. split.
  - intros H. destruct (Hok H) as [value Hv]. exists value.
    split; [exact Hv | exact (payload_effect_ok href st value Hv)].
  - intros H. specialize (Hthrow H). split; [exact Hthrow|].
    destruct (payload_effect_throw href st _ Hthrow) as (Hq & He & _).
    split; assumption.
Qed.

Lemma escaped_kinds_fail_on_lone_surrogates_witness :
  (exists value,
     encode [] Email plain_email = Ok value /\
     qrValue (payload_effect [] (email_state plain_email)) = value /\
     shown (error (payload_effect [] (email_state plain_email))) = false) /\
  (encode [] Email lone_surrogate_subject = Throw URIError /\
   qrValue (payload_effect [] (email_state lone_surrogate_subject)) = [] /\
   error (payload_effect [] (email_state lone_surrogate_subject))
   = Some (MessageOf URIError)).
Proof.
  split.
  - apply (escaped_kinds_fail_on_lone_surrogates [] (email_state plain_email)).
    + discriminate.
    + apply all_code_units. vm_compute. reflexivity.
    + let fields := eval vm_compute in (escaped_fields Email plain_email) in
      change (Forall well_formed fields).
      repeat (apply List.Forall_cons;
              [eapply encodeURIComponent_safe;
               [apply code_unitsb_units; vm_compute; reflexivity
               | vm_compute; reflexivity]|]).
      apply List.Forall_nil.
  - apply (escaped_kinds_fail_on_lone_surrogates [] (email_state lone_surrogate_subject)).
    + discriminate.
    + apply all_code_units. vm_compute. reflexivity.
    + let fields := eval vm_compute in (escaped_fields Email lone_surrogate_subject) in
      change (~ Forall well_formed fields).
      intros H. inversion_clear H as [|? ? Hw _].
      assert (Hu : code_units [0xD800]) by (repeat constructor; lia).
      destruct (encodeURIComponent_ok [0xD800] Hu Hw) as (enc & He & _).
      discriminate He.
Defined.

End EscapedKinds.

Section EscapedText.

Import Uri QrGenerator.

Lemma uri_safe_escaped (text : list Z) :
  Forall (fun c => uri_safe c = true) text -> escaped text.
Proof.
  unfold escaped. apply List.Forall_impl. intros c H. split; [exact H|].
  revert H. unfold uri_safe, uri_unreserved, is_alnum, is_digit, is_upper, is_lower,
    in_range, one_of, separators.
  intros H Hin. vm_compute in Hin.
  repeat (destruct Hin as [<-|Hin]; [vm_compute in H; discriminate|]).
  exact Hin.
Qed.



(** X3: the WhatsApp payload is 'https://wa.me/' followed by the digits of
    the phone field, in their order and nothing else of it; a '?text='
    part follows only for a non-empty message, and holds the message as
    encodeURIComponent writes it. *)
Theorem whatsapp_phone_digits (href : list Z) (qrData : QrData) :
  let phone := or_else (qr_fields qrData !! "phone") [] in
  let message := qr_fields qrData !! "message" in
  let digits := List.filter is_digit phone in
  Forall (fun c => 48 <= c <= 57) digits /\
  sublist digits phone /\
  encode href WhatsApp qrData
  = match message with
    | Some (c :: m) =>
        rmap (fun text => lit "https://wa.me/" ++ digits ++ lit "?text=" ++ text)
             (encodeURIComponent (c :: m))
    | _ => Ok (lit "https://wa.me/" ++ digits)
    end.
Proof.
  intros phone message digits. split; [|split].
  - apply List.Forall_forall. intros c Hc. apply filter_In in Hc. destruct Hc as [_ Hc].
    revert Hc. unfold is_digit, in_range. zcases; simpl; intros; try discriminate; lia.
  - subst digits. generalize phone. intros l.
    induction l as [|a l IH]; simpl; [constructor|].
    destruct (is_digit a); [apply sublist_skip | apply sublist_cons]; exact IH.
  - unfold encode. rewrite replace_class_empty_filter.
    replace (List.filter (fun c => negb (negb (is_digit c)))
               (or_else (qr_fields qrData !! "phone") []))
      with digits
      by (apply filter_ext; intros a; rewrite negb_involutive; reflexivity).
    subst message. destruct (qr_fields qrData !! "message") as [[|c m]|];
      cbn [truthy default]; reflexivity.
Qed.

Lemma encodeURIComponent_exn (n : nat) :
  forall s e, (length s <= n)%nat -> encodeURIComponent s = Throw e -> e = URIError.
Proof.
  induction n as [|n IH]; intros s e Hlen; destruct s as [|c r];
    try discriminate; simpl in Hlen; try lia.
  simpl encodeURIComponent.
  destruct (uri_unreserved c).
  { destruct (encodeURIComponent r) eqn:E; [discriminate|].
    intros [= <-]. apply (IH r); [lia | exact E]. }
  destruct (is_high_surrogate c).
  { destruct r as [|d r']; [congruence|].
    destruct (is_low_surrogate d); [|congruence].
    destruct (encodeURIComponent r') eqn:E; [discriminate|].
    intros [= <-]. apply (IH r'); [simpl in Hlen; lia | exact E]. }
  destruct (is_low_surrogate c); [congruence|].
  destruct (encodeURIComponent r) eqn:E; [discriminate|].
  intros [= <-]. apply (IH r); [lia | exact E].
Qed.

Lemma encode_exn (href : list Z) (qrType : QrCodeType) (qrData : QrData) (e : exn) :
  encode href qrType qrData = Throw e ->
  e = URIError \/
  e = Error "Could not encode data for QR code. Please check for unsupported characters.".
Proof.
  assert (Huri : forall s e', encodeURIComponent s = Throw e' -> e' = URIError).
  { intros s e'. apply (encodeURIComponent_exn (length s)). lia. }
  destruct qrType; unfold encode; try discriminate.
  - destruct (encodeURIComponent (or_else (qr_fields qrData !! "subject") [])) eqn:Es.
    + destruct (encodeURIComponent (or_else (qr_fields qrData !! "body") [])) eqn:Eb;
        [discriminate|].
      intros [= <-]. left. exact (Huri _ _ Eb).
    + intros [= <-]. left. exact (Huri _ _ Es).
  - destruct (encodeURIComponent (or_else (qr_fields qrData !! "message") [])) eqn:Em;
      [discriminate|].
    intros [= <-]. left. exact (Huri _ _ Em).
  - destruct (truthy (qr_fields qrData !! "message")); [|discriminate].
    destruct (encodeURIComponent (default [] (qr_fields qrData !! "message"))) eqn:Em;
      [discriminate|].
    intros [= <-]. left. exact (Huri _ _ Em).
  - unfold folio_token, utf8ToBase64.
    destruct (bind (encodeURIComponent _) _) as [token|e'] eqn:Et; cbn [try_catch bind].
    + destruct (encodeURIComponent token) eqn:Ee; [discriminate|].
      intros [= <-]. left. exact (Huri _ _ Ee).
    + intros [= <-]. right. reflexivity.
Qed.

(** X4: after the payload effect an error is on show exactly when the
    encoding threw, whatever error was shown before; the payload is then
    empty, and otherwise it is the encoded value. *)
Theorem error_shown_iff_encoding_failed (href : list Z) (st : State) :
  (shown (error (payload_effect href st)) = true <->
   exists e, encode href (qrType st) (qrData st) = Throw e) /\
  (shown (error (payload_effect href st)) = true ->
   qrValue (payload_effect href st) = []) /\
  (shown (error (payload_effect href st)) = false ->
   encode href (qrType st) (qrData st) = Ok (qrValue (payload_effect href st))).
Proof.
  destruct (encode href (qrType st) (qrData st)) as [value|e] eqn:E.
  - destruct (payload_effect_ok href st value E) as [Hv Hs]. rewrite Hs, Hv.
    repeat split; try discriminate.
    intros [e He]. discriminate.
  - destruct (payload_effect_throw href st e E) as (Hv & He & _). rewrite He, Hv.
    assert (Hs : shown (Some (message_or
                  "An unknown error occurred while generating QR value." e)) = true).
    { destruct (encode_exn _ _ _ _ E) as [->| ->]; reflexivity. }
    rewrite Hs. repeat split; try discriminate.
    intros _. exists e. reflexivity.
Qed.

(** X5: the payload effect drops the overlay image and its verdict
    exactly when the encoding succeeds with a value other than the
    payload so far; a failed encoding empties the payload and keeps
    both. *)
Theorem overlay_dropped_on_new_payload (href : list Z) (st : State) :
  let st' := payload_effect href st in
  match encode href (qrType st) (qrData st) with
  | Ok value =>
      (value = qrValue st ->
       aiQrImage st' = aiQrImage st /\ validationStatus st' = validationStatus st) /\
      (value <> qrValue st ->
       aiQrImage st' = None /\ validationStatus st' = Idle)
  | Throw _ =>
      qrValue st' = [] /\
      aiQrImage st' = aiQrImage st /\ validationStatus st' = validationStatus st
  end.
Proof.
  intros st'. subst st'. unfold payload_effect.
  destruct (encode href (qrType st) (qrData st)) as [value|e].
  - unfold set_qr_value_resetting. split; intros H.
    + destruct (shown (error st)); cbn [set_error qrValue];
        rewrite H, str_eqb_refl; split; reflexivity.
    + destruct (shown (error st)); cbn [set_error qrValue];
        rewrite str_eqb_neq by congruence; split; reflexivity.
  - repeat split.
Qed.

End EscapedText.

(** ** The folio link, from the payload to the page *)

Section FolioLinkFacts.

Import Uri Base64 QrGenerator FolioPage.

Lemma b64_char_alphabet (i : Z) :
  0 <= i < 64 -> b64_alphabet (b64_char i) = true.
Proof.
  intros H. unfold b64_alphabet, b64_char, is_alnum, is_digit, is_upper, is_lower,
    in_range, one_of.
  zcases; reflexivity.
Qed.

Lemma b64_encode_alphabet (l : list Z) :
  Forall octet l -> Forall (fun c => b64_alphabet c = true) (b64_encode l).
Proof.
  unfold octet.
  induction l as [| a | a b | a b c l IH] using list_ind3; intros H.
  - constructor.
  - inversion_clear H as [|? ? Ha _]. simpl b64_encode.
    repeat constructor; apply b64_char_alphabet; lia.
  - inversion_clear H as [|? ? Ha H']. inversion_clear H' as [|? ? Hb _].
    simpl b64_encode.
    repeat constructor; apply b64_char_alphabet; lia.
  - inversion_clear H as [|? ? Ha H']. inversion_clear H' as [|? ? Hb H''].
    inversion_clear H'' as [|? ? Hc Hl].
    simpl b64_encode.
    repeat (apply List.Forall_cons; [apply b64_char_alphabet; lia|]).
    exact (IH Hl).
Qed.

Lemma b64_alphabet_ascii (s : list Z) :
  Forall (fun c => b64_alphabet c = true) s -> ascii_text s.
Proof.
  apply List.Forall_impl. intros c.
  unfold b64_alphabet, is_alnum, is_digit, is_upper, is_lower, in_range, one_of.
  simpl. zcases; simpl; intros; try discriminate; lia.
Qed.

Lemma utf8ToBase64_ok (text : list Z) :
  well_formed text ->
  exists octets,
    Forall octet octets /\ utf8ToBase64 text = Ok (b64_encode octets) /\
    base64ToUtf8 (b64_encode octets) = Ok text.
Proof.
  intros H. destruct (utf8_round_trip text H) as (enc & He & Ho & Hd).
  exists (unescape enc). split; [exact Ho|]. split.
  - unfold utf8ToBase64. rewrite He. simpl. rewrite btoa_octets by exact Ho.
    reflexivity.
  - unfold base64ToUtf8. rewrite atob_btoa by exact Ho. simpl. rewrite Hd.
    reflexivity.
Qed.

Lemma encodeURIComponent_ascii (s : list Z) :
  ascii_text s -> encodeURIComponent s = Ok (flat_map escape_ascii s).
Proof.
  induction 1 as [|c s Hc _ IH]; [reflexivity|].
  simpl encodeURIComponent. rewrite IH. cbn [flat_map].
  set (rest := flat_map escape_ascii s). unfold escape_ascii.
  destruct (uri_unreserved c); [reflexivity|].
  replace (is_high_surrogate c) with false
    by (unfold is_high_surrogate, in_range; zcases; reflexivity).
  replace (is_low_surrogate c) with false
    by (unfold is_low_surrogate, in_range; zcases; reflexivity).
  unfold utf8_octets. zcases. cbn [flat_map rmap]. rewrite app_nil_r. reflexivity.
Qed.

Lemma split_without (sep : Z) (s : list Z) : ~ In sep s -> split sep s = [s].
Proof.
  induction s as [|c s IH]; [reflexivity|].
  intros H. simpl. destruct (Z.eqb_spec c sep) as [->|_].
  - exfalso. apply H. left. reflexivity.
  - rewrite IH; [reflexivity|]. intros Hin. apply H. right. exact Hin.
Qed.

Lemma split_before (sep : Z) (s first : list Z) (rest : list (list Z)) :
  split sep s = first :: rest -> first = before sep s.
Proof.
  revert first rest. induction s as [|c s IH]; simpl; intros first rest H.
  - congruence.
  - destruct (c =? sep); [congruence|].
    destruct (split sep s) as [|p ps] eqn:E.
    + exfalso. exact (split_nonempty sep s E).
    + injection H as <- _. f_equal. exact (IH p ps eq_refl).
Qed.

Lemma before_spec (sep : Z) (s : list Z) :
  ~ In sep (before sep s) /\ before sep s `prefix_of` s.
Proof.
  induction s as [|c s [IHn IHp]]; simpl.
  - split; [tauto | reflexivity].
  - destruct (Z.eqb_spec c sep) as [->|Hne].
    + split; [simpl; tauto | apply prefix_nil].
    + split; [|apply prefix_cons, IHp].
      intros [H|H]; [exact (Hne H) | exact (IHn H)].
Qed.

End FolioLinkFacts.

Section UrlSearchFacts.

Import Uri UrlSearch.

Lemma utf8_encode_ascii (s : list Z) : ascii_text s -> utf8_encode s = s.
Proof.
  induction 1 as [|c s Hc _ IH]; [reflexivity|].
  simpl utf8_encode. rewrite IH.
  replace (is_high_surrogate c) with false
    by (unfold is_high_surrogate, in_range; zcases; reflexivity).
  replace (is_low_surrogate c) with false
    by (unfold is_low_surrogate, in_range; zcases; reflexivity).
  unfold utf8_octets. zcases. reflexivity.
Qed.

Lemma utf8_decode_ascii (s : list Z) :
  ascii_text s -> utf8_decode_without_BOM s = s.
Proof.
  unfold utf8_decode_without_BOM.
  induction 1 as [|c s Hc _ IH]; [reflexivity|].
  cbn [utf8_decode initial bytes_needed]. change (0 =? 0) with true. cbv iota.
  unfold lead, in_range. zcases. cbn [andb app flat_map].
  change (utf8_decode _ s) with (utf8_decode initial s). rewrite IH.
  unfold utf16_encode. zcases. reflexivity.
Qed.

Lemma split_pair_app (name value : list Z) :
  ~ In 61 name -> split_pair (name ++ 61 :: value) = (name, value).
Proof.
  induction name as [|c name IH]; intros H; [reflexivity|].
  simpl. destruct (Z.eqb_spec c 61) as [->|_].
  - exfalso. apply H. left. reflexivity.
  - rewrite IH; [reflexivity|]. intros Hin. apply H. right. exact Hin.
Qed.

Lemma plus_to_space_without (s : list Z) : ~ In 43 s -> plus_to_space s = s.
Proof.
  unfold plus_to_space. induction s as [|c s IH]; intros H; [reflexivity|].
  cbn [fmap list_fmap]. destruct (Z.eqb_spec c 43) as [->|_].
  - exfalso. apply H. left. reflexivity.
  - f_equal. apply IH. intros Hin. apply H. right. exact Hin.
Qed.

Lemma percent_decode_escape (s : list Z) :
  ascii_text s -> percent_decode (flat_map escape_ascii s) = s.
Proof.
  induction 1 as [|c s Hc _ IH]; [reflexivity|].
  cbn [flat_map]. set (rest := flat_map escape_ascii s) in *. unfold escape_ascii.
  destruct (uri_unreserved c) eqn:Hu.
  - destruct (uri_unreserved_ascii c Hu) as [_ H37].
    cbn [app percent_decode]. destruct (Z.eqb_spec c 37); [contradiction|].
    rewrite IH. reflexivity.
  - unfold percent. cbn [app percent_decode]. change (37 =? 37) with true. cbv iota.
    rewrite hex2_upper by (unfold octet; lia). rewrite IH. reflexivity.
Qed.

Lemma escape_ascii_safe (s : list Z) :
  ascii_text s -> Forall (fun c => uri_safe c = true) (flat_map escape_ascii s).
Proof.
  induction 1 as [|c s Hc _ IH]; cbn [flat_map]; [constructor|].
  apply Forall_app. split; [|exact IH].
  unfold escape_ascii. destruct (uri_unreserved c) eqn:Hu.
  - constructor; [unfold uri_safe; rewrite Hu; reflexivity | constructor].
  - apply percent_safe. unfold octet. lia.
Qed.

Lemma escaped_ascii (s : list Z) : escaped s -> ascii_text s.
Proof.
  apply List.Forall_impl. intros c [H _]. revert H.
  unfold uri_safe, uri_unreserved, is_alnum, is_digit, is_upper, is_lower, in_range,
    one_of.
  simpl. zcases; simpl; intros; try discriminate; lia.
Qed.

Lemma escaped_without (s : list Z) (c : Z) : In c separators -> escaped s -> ~ In c s.
Proof.
  intros Hc Hs Hin. unfold escaped in Hs. rewrite List.Forall_forall in Hs.
  destruct (Hs c Hin) as [_ H]. exact (H Hc).
Qed.

(** What [get] finds in a query that is one parameter written by
    [encodeURIComponent]. *)
Lemma get_escaped_parameter (name : string) (value : list Z) :
  ascii_text value -> escaped (lit name) -> ~ In 37 (lit name) -> lit name <> [] ->
  get (lit name)
      (URLSearchParams (63 :: lit name ++ 61 :: flat_map escape_ascii value))
  = Some value.
Proof.
  intros Hv Hname Hpct Hne.
  pose proof (uri_safe_escaped _ (escape_ascii_safe value Hv)) as Hesc.
  assert (Hq : ascii_text (lit name ++ 61 :: flat_map escape_ascii value)).
  { apply Forall_app. split; [apply escaped_ascii, Hname|].
    constructor; [lia | apply escaped_ascii, Hesc]. }
  unfold URLSearchParams. change (63 =? 63) with true. cbv iota.
  rewrite utf8_encode_ascii by exact Hq.
  unfold parse_urlencoded. rewrite split_without.
  2:{ intros Hin. apply in_app_iff in Hin. destruct Hin as [Hin|[Hin|Hin]].
      - revert Hin. apply escaped_without; [vm_compute; tauto | exact Hname].
      - discriminate.
      - revert Hin. apply escaped_without; [vm_compute; tauto | exact Hesc]. }
  cbn [omap list_omap].
  destruct (lit name ++ 61 :: flat_map escape_ascii value) as [|c q] eqn:Eq.
  { destruct (lit name); [contradiction | discriminate]. }
  rewrite <- Eq. rewrite split_pair_app
    by (apply escaped_without; [vm_compute; tauto | exact Hname]).
  assert (Hdn : decode_component (lit name) = lit name).
  { unfold decode_component.
    rewrite plus_to_space_without
      by (apply escaped_without; [vm_compute; tauto | exact Hname]).
    assert (Hp : percent_decode (lit name) = lit name).
    { generalize (lit name) Hpct. clear. intros n.
      induction n as [|c n IH]; intros Hn; [reflexivity|].
      cbn [percent_decode]. destruct (Z.eqb_spec c 37) as [->|_].
      - exfalso. apply Hn. left. reflexivity.
      - rewrite IH; [reflexivity|]. intros Hin. apply Hn. right. exact Hin. }
    rewrite Hp. apply utf8_decode_ascii, escaped_ascii, Hname. }
  assert (Hdv : decode_component (flat_map escape_ascii value) = value).
  { unfold decode_component.
    rewrite plus_to_space_without
      by (apply escaped_without; [vm_compute; tauto | exact Hesc]).
    rewrite percent_decode_escape by exact Hv.
    apply utf8_decode_ascii, Hv. }
  rewrite Hdn, Hdv. unfold get. cbn [List.find fst snd].
  rewrite str_eqb_refl. reflexivity.
Qed.

End UrlSearchFacts.

Section LocationFacts.

Import Uri Location.

Lemma up_to_before (sep : Z) (s : list Z) : up_to sep s = before sep s.
Proof. induction s as [|c s IH]; simpl; [|rewrite IH]; reflexivity. Qed.

Lemma up_to_without (sep : Z) (s : list Z) : ~ In sep s -> up_to sep s = s.
Proof.
  induction s as [|c s IH]; intros H; [reflexivity|].
  simpl. destruct (Z.eqb_spec c sep) as [->|_].
  - exfalso. apply H. left. reflexivity.
  - f_equal. apply IH. intros Hin. apply H. right. exact Hin.
Qed.

Lemma up_to_app (sep : Z) (a b : list Z) :
  In sep a -> up_to sep (a ++ b) = up_to sep a.
Proof.
  induction a as [|c a IH]; intros H; [destruct H|].
  simpl. destruct (Z.eqb_spec c sep) as [_|Hne]; [reflexivity|].
  f_equal. apply IH. destruct H as [H|H]; [contradiction | exact H].
Qed.

Lemma from_first_without (sep : Z) (s : list Z) :
  ~ In sep s -> from_first sep s = None.
Proof.
  induction s as [|c s IH]; intros H; [reflexivity|].
  simpl. destruct (Z.eqb_spec c sep) as [->|_].
  - exfalso. apply H. left. reflexivity.
  - apply IH. intros Hin. apply H. right. exact Hin.
Qed.

Lemma from_first_app (sep : Z) (a b : list Z) :
  ~ In sep a -> from_first sep (a ++ sep :: b) = Some b.
Proof.
  induction a as [|c a IH]; intros H.
  - simpl. rewrite Z.eqb_refl. reflexivity.
  - simpl. destruct (Z.eqb_spec c sep) as [->|_].
    + exfalso. apply H. left. reflexivity.
    + apply IH. intros Hin. apply H. right. exact Hin.
Qed.

Lemma up_to_incl (sep : Z) (s : list Z) (c : Z) : In c (up_to sep s) -> In c s.
Proof.
  induction s as [|a s IH]; simpl; [tauto|].
  destruct (a =? sep); simpl; [tauto|]. intros [H|H]; auto.
Qed.

Lemma drop_leading_printable (s : list Z) : printable s -> drop_leading s = s.
Proof.
  intros H. destruct H as [|c s Hc _]; [reflexivity|].
  simpl. unfold c0_control_or_space, in_range. zcases; reflexivity.
Qed.

Lemma input_printable (s : list Z) :
  printable s ->
  List.filter (fun c => negb (tab_or_newline c)) (trim s) = s.
Proof.
  intros H. unfold trim.
  rewrite (drop_leading_printable s H).
  rewrite drop_leading_printable by (apply Forall_rev, H).
  rewrite rev_involutive.
  induction H as [|c s Hc _ IH]; [reflexivity|].
  cbn [List.filter]. rewrite IH.
  unfold tab_or_newline, one_of. cbn [existsb]. zcases; reflexivity.
Qed.

Lemma encode_query_plain (s : list Z) :
  Forall (fun c => token_query_char c = true) s -> encode_query s = s.
Proof.
  induction 1 as [|c s Hc _ IH]; [reflexivity|].
  cbn [encode_query]. rewrite IH.
  revert Hc. unfold token_query_char, is_alnum, is_digit, is_upper, is_lower,
    is_high_surrogate, is_low_surrogate, in_query_set, in_range, one_of.
  cbn [existsb]. zcases; cbn; intros; try discriminate; reflexivity.
Qed.

Lemma token_query_printable (s : list Z) :
  Forall (fun c => token_query_char c = true) s -> printable s.
Proof.
  apply List.Forall_impl. intros c.
  unfold token_query_char, is_alnum, is_digit, is_upper, is_lower, in_range, one_of.
  cbn [existsb]. zcases; cbn; intros; try discriminate; lia.
Qed.

Lemma token_query_without (s : list Z) (c : Z) :
  token_query_char c = false ->
  Forall (fun c => token_query_char c = true) s -> ~ In c s.
Proof.
  intros Hc Hs Hin. rewrite List.Forall_forall in Hs. specialize (Hs c Hin).
  congruence.
Qed.

Lemma escape_token_query (token : list Z) :
  Forall (fun c => b64_alphabet c = true) token ->
  Forall (fun c => token_query_char c = true) (flat_map escape_ascii token).
Proof.
  induction 1 as [|c token Hc _ IH]; cbn [flat_map]; [constructor|].
  apply Forall_app. split; [|exact IH].
  unfold escape_ascii. destruct (uri_unreserved c) eqn:Hu.
  - constructor; [|constructor]. revert Hc Hu.
    unfold b64_alphabet, token_query_char, uri_unreserved, is_alnum, is_digit,
      is_upper, is_lower, in_range, one_of.
    cbn [existsb]. zcases; cbn; intros; try discriminate; reflexivity.
  - assert (Hr : 0 <= c < 128).
    { revert Hc. unfold b64_alphabet, is_alnum, is_digit, is_upper, is_lower,
        in_range, one_of.
      cbn [existsb]. zcases; cbn; intros; try discriminate; lia. }
    unfold percent.
    assert (Hhex : forall d, 0 <= d < 16 -> token_query_char (hex_upper d) = true).
    { intros d Hd. unfold token_query_char, hex_upper, is_alnum, is_digit, is_upper,
        is_lower, in_range.
      zcases; reflexivity. }
    constructor; [reflexivity|].
    constructor; [apply Hhex; lia|]. constructor; [apply Hhex; lia | constructor].
Qed.

(** The search of a payload made of a printable base without ["?"], then
    ["?"] and a non-empty query of token characters. *)
Lemma search_of_payload (base query : list Z) :
  printable base -> ~ In 63 base ->
  Forall (fun c => token_query_char c = true) query -> query <> [] ->
  (In 35 base -> search (base ++ 63 :: query) = []) /\
  (~ In 35 base -> search (base ++ 63 :: query) = 63 :: query).
Proof.
  intros Hp Hq Hquery Hne. unfold search.
  rewrite input_printable.
  2:{ apply Forall_app. split; [exact Hp|].
      constructor; [lia | apply token_query_printable, Hquery]. }
  split; intros Eb.
  - rewrite up_to_app by exact Eb.
    rewrite from_first_without; [reflexivity|].
    intros Hin. apply Hq. exact (up_to_incl _ _ _ Hin).
  - rewrite up_to_without.
    + rewrite from_first_app by exact Hq.
      destruct query as [|c query]; [contradiction|].
      rewrite encode_query_plain by exact Hquery. reflexivity.
    + intros Hin. apply in_app_iff in Hin. destruct Hin as [Hin|[Hin|Hin]].
      * exact (Eb Hin).
      * discriminate Hin.
      * revert Hin. apply token_query_without; [reflexivity | exact Hquery].
Qed.

End LocationFacts.

Section FolioLink.

Import Json Uri Base64 QrGenerator FolioPage AppShell FolioRender.

Lemma folio_token_ok (qrData : QrData) :
  folio_strings_ok qrData = true ->
  exists token,
    folio_token qrData = Ok token /\
    Forall (fun c => b64_alphabet c = true) token /\ token <> [] /\
    data token = Some (JObject (folio_members (folio_data qrData))).
Proof.
  intros H. apply folio_data_units in H.
  destruct (folio_decodes _ H) as (token & Henc & _ & Hdata).
  destruct (utf8ToBase64_ok _ (stringify_folio_well_formed _ H))
    as (octets & Ho & Henc' & _).
  exists token. split; [exact Henc|]. split; [|split; [|exact Hdata]].
  - rewrite Henc in Henc'. injection Henc' as ->. apply b64_encode_alphabet, Ho.
  - intros ->. discriminate Hdata.
Qed.

Lemma encode_folio (href : list Z) (qrData : QrData) (token : list Z) :
  folio_token qrData = Ok token ->
  Forall (fun c => b64_alphabet c = true) token ->
  encode href LinkFolio qrData
  = Ok (before 63 href ++ lit "?folio=" ++ flat_map escape_ascii token).
Proof.
  intros Ht Ha. unfold encode. rewrite Ht. cbn [bind].
  rewrite encodeURIComponent_ascii by (apply b64_alphabet_ascii, Ha). cbn [bind].
  destruct (split 63 href) as [|first rest] eqn:E.
  - exfalso. exact (split_nonempty 63 href E).
  - rewrite (split_before _ _ _ _ E). reflexivity.
Qed.

(** X6: for folio form data made of strings of code units the encoder
    never fails, and the payload is the page address up to its first '?'
    (so without any '?'), then '?folio=', then the base64 token written by
    encodeURIComponent: unreserved characters and '%' only, none of
    ' ', '#', '&', '+', ':', '=', '?'. *)
Theorem folio_payload_shape (href : list Z) (qrData : QrData) :
  folio_strings_ok qrData = true ->
  exists token parameter,
    folio_token qrData = Ok token /\
    Forall (fun c => b64_alphabet c = true) token /\
    encodeURIComponent token = Ok parameter /\
    escaped parameter /\
    encode href LinkFolio qrData
    = Ok (before 63 href ++ lit "?folio=" ++ parameter) /\
    ~ In 63 (before 63 href) /\
    before 63 href `prefix_of` href.
Proof.
  intros H. destruct (folio_token_ok qrData H) as (token & Ht & Ha & _ & _).
  pose proof (b64_alphabet_ascii token Ha) as Hascii.
  exists token, (flat_map escape_ascii token).
  split; [exact Ht|]. split; [exact Ha|].
  split; [apply encodeURIComponent_ascii, Hascii|].
  split; [apply uri_safe_escaped, escape_ascii_safe, Hascii|].
  split; [apply encode_folio; assumption|].
  apply before_spec.
Qed.

Lemma folio_payload_shape_witness :
  exists token parameter,
    folio_token folio_example_data = Ok token /\
    Forall (fun c => b64_alphabet c = true) token /\
    encodeURIComponent token = Ok parameter /\
    escaped parameter /\
    encode page_address LinkFolio folio_example_data
    = Ok (before 63 page_address ++ lit "?folio=" ++ parameter) /\
    ~ In 63 (before 63 page_address) /\
    before 63 page_address `prefix_of` page_address.
Proof.
  apply (folio_payload_shape page_address folio_example_data).
  vm_compute. reflexivity.
Defined.

(** X7: whether the folio link opens the profile it was made from.  For
    folio form data made of strings of code units and a page address whose
    part before the first '?' has no control character or space: the
    payload is that part of the address followed by '?folio=' and the
    token.  When that part holds no '#', the page opened at the payload has
    the query as its location.search, App routes to the folio page with the
    token the generator made, the page data is the folio object of the form
    data ([folio_members]: the optional fields present and the complete
    links), and the page does not show the invalid-link screen.  When it
    holds a '#', the query falls into the fragment, location.search is
    empty and App shows the main screen. *)
Theorem folio_link_opens (href : list Z) (qrData : QrData)
    (number_truthy : list Z -> bool) :
  folio_strings_ok qrData = true ->
  printable (before 63 href) ->
  exists payload token,
    encode href LinkFolio qrData = Ok payload /\
    folio_token qrData = Ok token /\
    (~ In 35 (before 63 href) ->
     opened payload = FolioScreen token /\
     data token = Some (JObject (folio_members (folio_data qrData))) /\
     invalid_link number_truthy token = false) /\
    (In 35 (before 63 href) -> opened payload = MainScreen).
Proof.
  intros H Hprint.
  destruct (folio_token_ok qrData H) as (token & Ht & Ha & Hne & Hdata).
  pose proof (b64_alphabet_ascii token Ha) as Hascii.
  exists (before 63 href ++ lit "?folio=" ++ flat_map escape_ascii token), token.
  split; [apply encode_folio; assumption|]. split; [exact Ht|].
  destruct (search_of_payload (before 63 href)
              (lit "folio=" ++ flat_map escape_ascii token))
    as [Hfrag Hplain].
  { exact Hprint. }
  { apply before_spec. }
  { apply Forall_app. split; [|apply escape_token_query, Ha].
    vm_compute. repeat constructor. }
  { discriminate. }
  change (63 :: lit "folio=" ++ flat_map escape_ascii token)
    with (lit "?folio=" ++ flat_map escape_ascii token) in Hfrag, Hplain.
  unfold opened. split.
  - intros Hno. rewrite (Hplain Hno).
    split; [|split; [exact Hdata|]].
    + unfold App.
      change (lit "?folio=" ++ flat_map escape_ascii token)
        with (63 :: lit "folio" ++ 61 :: flat_map escape_ascii token).
      rewrite get_escaped_parameter.
      * destruct token; [contradiction | reflexivity].
      * exact Hascii.
      * apply uri_safe_escaped. vm_compute. repeat constructor.
      * vm_compute. intuition discriminate.
      * discriminate.
    + unfold invalid_link. rewrite Hdata. cbn [value_truthy negb orb keys_length].
      destruct (length _) eqn:E; [|reflexivity].
      exfalso. exact (folio_members_keys _ E).
  - intros Hyes. rewrite (Hfrag Hyes). reflexivity.
Qed.

Lemma folio_link_opens_witness :
  (exists payload token,
     encode page_address LinkFolio folio_example_data = Ok payload /\
     folio_token folio_example_data = Ok token /\
     (~ In 35 (before 63 page_address) ->
      opened payload = FolioScreen token /\
      data token = Some (JObject (folio_members (folio_data folio_example_data))) /\
      invalid_link (fun _ => true) token = false) /\
     (In 35 (before 63 page_address) -> opened payload = MainScreen)) /\
  (exists payload token,
     encode page_address_with_fragment LinkFolio folio_example_data = Ok payload /\
     folio_token folio_example_data = Ok token /\
     (~ In 35 (before 63 page_address_with_fragment) ->
      opened payload = FolioScreen token /\
      data token = Some (JObject (folio_members (folio_data folio_example_data))) /\
      invalid_link (fun _ => true) token = false) /\
     (In 35 (before 63 page_address_with_fragment) -> opened payload = MainScreen)).
Proof.
  split.
  - apply (folio_link_opens page_address folio_example_data (fun _ => true)).
    + vm_compute. reflexivity.
    + apply List.Forall_forall. intros c Hc. vm_compute in Hc.
      repeat (destruct Hc as [<-|Hc]; [reflexivity|]). destruct Hc.
  - apply (folio_link_opens page_address_with_fragment folio_example_data
             (fun _ => true)).
    + vm_compute. reflexivity.
    + apply List.Forall_forall. intros c Hc. vm_compute in Hc.
      repeat (destruct Hc as [<-|Hc]; [reflexivity|]). destruct Hc.
Defined.

(** X8: the folio page shows the invalid-link screen exactly when the
    decode memo gave null: the second test of the render, for an object
    without keys, never decides.  The empty token, a token that is not
    base64, one whose octets are not UTF-8, one whose text is not JSON and
    one whose text is the empty object all end on that screen. *)
Theorem invalid_screen_iff_no_data (number_truthy : list Z -> bool) :
  (forall token, invalid_link number_truthy token = true <-> data token = None) /\
  invalid_link number_truthy [] = true /\
  (forall token e, atob token = Throw e -> invalid_link number_truthy token = true) /\
  (forall token bin e,
     atob token = Ok bin -> decodeURIComponent (escape bin) = Throw e ->
     invalid_link number_truthy token = true) /\
  (forall token text e,
     base64ToUtf8 token = Ok text -> parse text = Throw e ->
     invalid_link number_truthy token = true) /\
  (forall token text,
     base64ToUtf8 token = Ok text -> parse text = Ok (JObject []) ->
     invalid_link number_truthy token = true).
Proof.
  assert (Hiff : forall token,
            invalid_link number_truthy token = true <-> data token = None).
  { intros token. unfold invalid_link.
    destruct (data token) as [v|] eqn:Ed; [|tauto].
    split; [|discriminate]. intros Hinv. exfalso.
    unfold data in Ed. destruct token as [|c s]; [discriminate|].
    cbn [truthy negb] in Ed. cbv iota in Ed.
    destruct (parse_folio (c :: s)) as [v'|] eqn:Ep; [|discriminate].
    injection Ed as ->. unfold parse_folio in Ep.
    destruct (base64ToUtf8 (c :: s)) as [text|]; [|discriminate].
    cbn [bind] in Ep. destruct (parse text) as [parsed|]; [|discriminate].
    cbn [bind] in Ep. destruct (keys_length parsed) as [keys|] eqn:Ek; [|discriminate].
    cbn [bind] in Ep. destruct keys as [|keys]; [discriminate|].
    cbn [Nat.eqb andb] in Ep. injection Ep as ->.
    rewrite Ek in Hinv. cbn [Nat.eqb] in Hinv. rewrite orb_false_r in Hinv.
    destruct v as [|b|lexeme|str|items|members]; try discriminate.
    injection Ek as Ek. destruct str; discriminate. }
  destruct malformed_token_rejected as (H0 & H1 & H2 & H3 & H4).
  split; [exact Hiff|]. split; [apply Hiff, H0|].
  split; [intros token e H; apply Hiff; exact (H1 token e H)|].
  split; [intros token bin e Ha Hd; apply Hiff; exact (H2 token bin e Ha Hd)|].
  split; [intros token text e Hb Hp; apply Hiff; exact (H3 token text e Hb Hp)|].
  intros token text Hb Hp. apply Hiff. exact (H4 token text Hb Hp).
Qed.

End FolioLink.

(** ** The two text codecs of the folio token *)

Section TokenCodec.

Import Uri Base64 QrGenerator FolioPage.

(** X9: on a string of code units, utf8ToBase64 succeeds exactly when
    the string has no unpaired surrogate.  The token is then made of
    base64 characters and padding, its length is a multiple of four, and
    base64ToUtf8 gives the string back; otherwise the error thrown is the
    function's own, whatever the platform error was. *)
Theorem utf8_base64_codec (text : list Z) :
  code_units text ->
  (well_formed text ->
   exists token (groups : nat),
     utf8ToBase64 text = Ok token /\
     base64ToUtf8 token = Ok text /\
     Forall (fun c => b64_alphabet c = true) token /\
     length token = (4 * groups)%nat) /\
  (~ well_formed text ->
   utf8ToBase64 text
   = Throw (Error
       "Could not encode data for QR code. Please check for unsupported characters.")).
Proof.
  intros Hunits. split.
  - intros Hwf. destruct (utf8ToBase64_ok text Hwf) as (octets & Ho & He & Hd).
    destruct (b64_encode_length octets) as [->|[k Hk]].
    + exists [], 0%nat. repeat split; try assumption. constructor.
    + exists (b64_encode octets), (S k).
      split; [exact He|]. split; [exact Hd|].
      split; [apply b64_encode_alphabet, Ho | exact Hk].
  - intros Hwf. unfold utf8ToBase64.
    rewrite (encodeURIComponent_throws text Hunits Hwf). reflexivity.
Qed.

Lemma utf8_base64_codec_witness :
  (exists token (groups : nat),
     utf8ToBase64 [74; 233; 0xD83C; 0xDF89] = Ok token /\
     base64ToUtf8 token = Ok [74; 233; 0xD83C; 0xDF89] /\
     Forall (fun c => b64_alphabet c = true) token /\
     length token = (4 * groups)%nat) /\
  utf8ToBase64 [74; 0xDF89]
  = Throw (Error
      "Could not encode data for QR code. Please check for unsupported characters.").
Proof.
  split.
  - apply (utf8_base64_codec [74; 233; 0xD83C; 0xDF89]).
    + repeat constructor; lia.
    + apply wf_unit; [lia | reflexivity|].
      apply wf_unit; [lia | reflexivity|].
      apply wf_pair; [reflexivity | reflexivity | apply wf_nil].
  - apply (utf8_base64_codec [74; 0xDF89]).
    + repeat constructor; lia.
    + intros H.
      assert (Hu : code_units [74; 0xDF89]) by (repeat constructor; lia).
      destruct (encodeURIComponent_ok [74; 0xDF89] Hu H) as (enc & He & _).
      discriminate He.
Defined.

End TokenCodec.

(** ** The shape of a calendar timestamp *)

Section TimestampShape.

Import QrGenerator.

Lemma drop_fraction_sublist (s : list Z) : sublist (drop_fraction s) s.
Proof.
  induction s as [|c s IH]; simpl; [constructor|].
  destruct (c =? 46); [apply sublist_nil_l | apply sublist_skip, IH].
Qed.

Lemma filter_sublist (f : Z -> bool) (s : list Z) : sublist (List.filter f s) s.
Proof.
  induction s as [|c s IH]; simpl; [constructor|].
  destruct (f c); [apply sublist_skip | apply sublist_cons]; exact IH.
Qed.

(** X10: formatDateTimeForICS gives the empty string for an absent or
    empty value and only then; for any other value the result is 'Z' after
    a body that holds no '-', ':' or '.' and is made of characters of the
    value in their order, so that a value already in that form is kept and
    only extended by 'Z'. *)
Theorem ics_stamp_shape (dateTime : option (list Z)) :
  match dateTime with
  | Some (c :: s) =>
      exists body,
        formatDateTimeForICS dateTime = body ++ lit "Z" /\
        ~ In 45 body /\ ~ In 58 body /\ ~ In 46 body /\
        sublist body (c :: s) /\
        (~ In 45 (c :: s) -> ~ In 58 (c :: s) -> ~ In 46 (c :: s) ->
         body = c :: s)
  | _ => formatDateTimeForICS dateTime = []
  end.
Proof.
  destruct dateTime as [[|c s]|]; try reflexivity.
  rewrite formatDateTimeForICS_stamp. unfold ics_stamp, ics_normalized.
  eexists. split; [reflexivity|].
  split; [|split; [|split; [apply drop_fraction_no_dot|split]]].
  - intros H. apply drop_fraction_incl, filter_In in H.
    destruct H as [_ H]; discriminate.
  - intros H. apply drop_fraction_incl, filter_In in H.
    destruct H as [_ H]; discriminate.
  - etransitivity; [apply drop_fraction_sublist | apply filter_sublist].
  - generalize (c :: s). intros l H45 H58 H46.
    induction l as [|a l IH]; [reflexivity|].
    cbn [List.filter].
    destruct (Z.eqb_spec a 45) as [->|_]; [exfalso; apply H45; left; reflexivity|].
    destruct (Z.eqb_spec a 58) as [->|_]; [exfalso; apply H58; left; reflexivity|].
    cbn [negb andb drop_fraction].
    destruct (Z.eqb_spec a 46) as [->|_]; [exfalso; apply H46; left; reflexivity|].
    f_equal. apply IH; intros Hin; [apply H45 | apply H58 | apply H46]; right; exact Hin.
Qed.

End TimestampShape.

(** ** The form and the encoder *)

Section FormFacts.

Import QrGenerator Constants FormHandlers.

Ltac fields_agree :=
  repeat match goal with
         | H : Forall _ (_ :: _) |- _ =>
             let Heq := fresh "Heq" in
             let Hrest := fresh "Hrest" in
             inversion_clear H as [|? ? Heq Hrest]; cbn [field_id] in Heq
         | H : Forall _ [] |- _ => clear H
         end.

(** X11: the encoder reads nothing but the fields the form of its kind
    offers, and the link rows: two form data that agree on every field
    listed for the kind in QR_CODE_TYPES and on the links give the same
    payload or the same error, whatever else they hold. *)
Theorem encoder_reads_form_fields (href : list Z) (qrType : QrCodeType)
    (typeInfo : QrCodeTypeInfo) (qrData1 qrData2 : QrData) :
  type_info qrType = Some typeInfo ->
  (forall field, In field (info_fields typeInfo) ->
     qr_fields qrData1 !! field_id field = qr_fields qrData2 !! field_id field) ->
  qr_links qrData1 = qr_links qrData2 ->
  encode href qrType qrData1 = encode href qrType qrData2.
Proof.
  intros Hinfo Hfields Hlinks. apply List.Forall_forall in Hfields.
  destruct qrType; vm_compute in Hinfo; injection Hinfo as <-;
    cbn [info_fields] in Hfields; fields_agree;
    unfold encode, folio_token, folio_data;
    repeat match goal with H : _ !! _ = _ !! _ |- _ => rewrite H; clear H end;
    rewrite ?Hlinks; reflexivity.
Qed.

Lemma encoder_reads_form_fields_witness :
  encode [] SMS sms_example = encode [] SMS sms_with_leftovers.
Proof.
  apply (encoder_reads_form_fields [] SMS _ sms_example sms_with_leftovers eq_refl).
  - intros field [<-|[<-|[]]]; vm_compute; reflexivity.
  - reflexivity.
Defined.

Lemma payload_effect_keeps_form (href : list Z) (st : State) :
  qrType (payload_effect href st) = qrType st /\
  qrData (payload_effect href st) = qrData st.
Proof.
  unfold payload_effect, set_qr_value_resetting.
  destruct (encode href (qrType st) (qrData st)); [|split; reflexivity].
  destruct (shown (error st)); destruct (str_eqb _ _); split; reflexivity.
Qed.

Lemma encode_without_address (href : list Z) (qrType : QrCodeType)
    (qrData : QrData) :
  qrType <> LinkFolio -> encode href qrType qrData = encode [] qrType qrData.
Proof. destruct qrType; intros H; try reflexivity. contradiction. Qed.

Lemma default_payload_checked (newType : QrCodeType) :
  default_payload_ok newType = true.
Proof. destruct newType; vm_compute; reflexivity. Qed.

Lemma has_values_sound (data : QrData) (fields : list QrField) :
  forallb (has_value data) fields = true ->
  Forall (fun field => is_Some (qr_fields data !! field_id field)) fields.
Proof.
  induction fields as [|field fields IH]; cbn [forallb]; intros H; [constructor|].
  apply andb_prop in H. destruct H as [Hf H].
  constructor; [|exact (IH H)].
  unfold has_value in Hf. destruct (qr_fields data !! field_id field); [eauto | discriminate].
Qed.

Lemma default_payload (href : list Z) (newType : QrCodeType) :
  exists data value,
    defaultData newType = Ok data /\
    encode href newType data = Ok value /\
    (value = [] <-> newType = Text) /\
    (forall typeInfo,
       type_info newType = Some typeInfo ->
       Forall (fun field => is_Some (qr_fields data !! field_id field))
              (info_fields typeInfo)).
Proof.
  pose proof (default_payload_checked newType) as Hc. unfold default_payload_ok in Hc.
  destruct (defaultData newType) as [data|] eqn:Hd; [|discriminate].
  apply andb_prop in Hc. destruct Hc as [Hc Hfields].
  assert (Hf : forall typeInfo,
             type_info newType = Some typeInfo ->
             Forall (fun field => is_Some (qr_fields data !! field_id field))
                    (info_fields typeInfo)).
  { intros typeInfo Hinfo. rewrite Hinfo in Hfields.
    apply has_values_sound, Hfields. }
  destruct (decide (newType = LinkFolio)) as [->|Hkind].
  - destruct (folio_token_ok data Hc) as (token & Ht & Ha & _ & _).
    exists data, (before 63 href ++ lit "?folio=" ++ flat_map escape_ascii token).
    split; [reflexivity|].
    split; [exact (encode_folio href data token Ht Ha)|]. split; [|exact Hf].
    split; [|discriminate]. intros H. apply app_eq_nil in H. destruct H as [_ H].
    discriminate H.
  - rewrite (bool_decide_eq_false_2 _ Hkind) in Hc.
    destruct (encode [] newType data) as [value|] eqn:He; [|discriminate].
    exists data, value. split; [reflexivity|].
    split; [rewrite encode_without_address by exact Hkind; exact He|].
    split; [|exact Hf].
    destruct (decide (newType = Text)) as [Ht|Ht].
    + rewrite (bool_decide_eq_true_2 _ Ht) in Hc. apply bool_decide_eq_true in Hc. tauto.
    + rewrite (bool_decide_eq_false_2 _ Ht) in Hc.
      apply negb_true_iff, bool_decide_eq_false in Hc. tauto.
Qed.

(** X12: after a change of kind and the payload effect that follows it,
    whatever the form held before: the kind is the new one, the advanced
    fields are folded, no error is on show, every field listed for the
    kind in QR_CODE_TYPES has a value, and the payload is empty for the
    plain text kind and for no other. *)
Theorem type_change_gives_clean_form (href : list Z) (newType : QrCodeType)
    (form : Form) :
  let form' := handleTypeChange newType form in
  let st' := payload_effect href (state form') in
  qrType st' = newType /\
  showAdvanced form' = false /\
  shown (error st') = false /\
  (qrValue st' = [] <-> newType = Text) /\
  (forall typeInfo,
     type_info newType = Some typeInfo ->
     Forall (fun field => is_Some (qr_fields (qrData st') !! field_id field))
            (info_fields typeInfo)).
Proof.
  intros form' st'.
  destruct (default_payload href newType) as (data & value & Hd & He & Hv & Hf).
  assert (Hstate : state form' = with_type_and_data newType data (state form)).
  { subst form'. unfold handleTypeChange. rewrite Hd. reflexivity. }
  destruct (payload_effect_keeps_form href (state form')) as [Ht Hdata].
  fold st' in Ht, Hdata. rewrite Hstate in Ht, Hdata. cbn [with_type_and_data qrType qrData] in Ht, Hdata.
  destruct (payload_effect_ok href (state form') value) as [Hq Hs].
  { rewrite Hstate. exact He. }
  fold st' in Hq, Hs.
  split; [exact Ht|]. split; [reflexivity|]. split; [exact Hs|].
  split; [rewrite Hq; exact Hv|]. rewrite Hdata. exact Hf.
Qed.

(** X13: for the WiFi kind the form offers the password field exactly
    when the encryption is not 'nopass'; while the field is hidden the
    stored password is not part of the payload, so that no value it might
    be given changes the payload. *)
Theorem wifi_hidden_password_unused (href : list Z) (qrData : QrData)
    (showAdvanced : bool) (password : list Z) :
  exists fields,
    renderInputs WiFi qrData showAdvanced = Some fields /\
    (In "password"%string (field_id <$> fields) <->
     qr_fields qrData !! "encryption" <> Some (lit "nopass")) /\
    (~ In "password"%string (field_id <$> fields) ->
     encode href WiFi (handleInputChange "password" password qrData)
     = encode href WiFi qrData).
Proof.
  unfold renderInputs, visibleFields.
  destruct (type_info WiFi) as [typeInfo|] eqn:Einfo; vm_compute in Einfo;
    [injection Einfo as <-|discriminate].
  cbn [info_fields].
  rewrite (bool_decide_eq_false_2 (WiFi = LinkFolio)) by discriminate.
  rewrite (bool_decide_eq_true_2 (WiFi = WiFi)) by reflexivity.
  cbn [andb].
  destruct (decide (qr_fields qrData !! "encryption" = Some (lit "nopass")))
    as [Henc|Henc].
  - rewrite (bool_decide_eq_true_2 _ Henc).
    eexists. split; [destruct showAdvanced; vm_compute; reflexivity|].
    split.
    + split; [|intros H; contradiction].
      intros H. exfalso. vm_compute in H. intuition discriminate.
    + intros _. rewrite !wifi_payload. cbv zeta. unfold handleInputChange.
      cbn [qr_fields].
      rewrite !(lookup_insert_ne (qr_fields qrData) "password") by discriminate.
      rewrite Henc.
      change (or_else (Some (lit "nopass")) (lit "WPA")) with (lit "nopass").
      rewrite str_eqb_refl. reflexivity.
  - rewrite (bool_decide_eq_false_2 _ Henc).
    eexists. split; [destruct showAdvanced; vm_compute; reflexivity|].
    split.
    + split; [intros _; exact Henc|].
      intros _. vm_compute. tauto.
    + intros H. exfalso. apply H. vm_compute. tauto.
Qed.

Lemma valid_link_filter_delete (index : nat) (rows : list Link) :
  (forall link, rows !! index = Some link -> valid_link link = false) ->
  List.filter valid_link (delete index rows) = List.filter valid_link rows.
Proof.
  revert index. induction rows as [|row rows IH]; intros index H.
  - destruct index; reflexivity.
  - destruct index as [|index].
    + change (delete 0%nat (row :: rows)) with rows.
      cbn [List.filter]. rewrite (H row eq_refl). reflexivity.
    + change (delete (S index) (row :: rows)) with (row :: delete index rows).
      cbn [List.filter]. rewrite (IH index); [reflexivity|].
      intros link Hl. apply H. exact Hl.
Qed.

(** X14: rows of the link list that lack a title or a url do not reach
    the payload: adding a row (it starts with both empty), removing a row
    that is incomplete, and removing at a position past the last row all
    leave the folio payload as it was; removing the row just added gives
    the rows back. *)
Theorem incomplete_links_leave_payload (href : list Z) (qrData : QrData) :
  let rows := default [] (qr_links qrData) in
  encode href LinkFolio (addLink qrData qrData) = encode href LinkFolio qrData /\
  (forall index,
     (forall link, rows !! index = Some link -> valid_link link = false) ->
     encode href LinkFolio (removeLink index qrData qrData)
     = encode href LinkFolio qrData) /\
  (forall index,
     (length rows <= index)%nat ->
     qr_links (removeLink index qrData qrData) = Some rows) /\
  qr_links (removeLink (length rows) (addLink qrData qrData) (addLink qrData qrData))
  = Some rows.
Proof.
  intros rows.
  assert (Hdata : forall qrData',
            qr_fields qrData' = qr_fields qrData ->
            List.filter valid_link (default [] (qr_links qrData'))
            = List.filter valid_link rows ->
            encode href LinkFolio qrData' = encode href LinkFolio qrData).
  { intros qrData' Hf Hl. unfold encode, folio_token, folio_data.
    rewrite Hf, Hl. reflexivity. }
  split; [|split; [|split]].
  - apply Hdata; [reflexivity|]. unfold addLink.
    change (default [] (qr_links {| qr_fields := qr_fields qrData;
                                   qr_links := Some ?l |})) with l.
    fold rows. rewrite List.filter_app. cbn [List.filter].
    change (valid_link _) with false. cbv iota. apply app_nil_r.
  - intros index H. apply Hdata; [reflexivity|]. unfold removeLink.
    change (default [] (qr_links {| qr_fields := qr_fields qrData;
                                   qr_links := Some ?l |})) with l.
    fold rows. apply valid_link_filter_delete, H.
  - intros index H. unfold removeLink. cbn [qr_links]. fold rows. f_equal.
    clear Hdata. revert index H. induction rows as [|row l IH]; intros index H.
    + destruct index; reflexivity.
    + destruct index as [|index]; [simpl in H; lia|].
      change (delete (S index) (row :: l)) with (row :: delete index l).
      f_equal. apply IH. simpl in H. lia.
  - unfold removeLink, addLink. cbn [qr_links].
    change (default [] (Some ?l)) with l. fold rows. f_equal.
    clear Hdata. induction rows as [|row l IH]; [reflexivity|].
    cbn [length app].
    change (delete (S (length l)) (row :: (l ++ [ {| link_title := []; link_url := [] |} ])))
      with (row :: delete (length l) (l ++ [ {| link_title := []; link_url := [] |} ])).
    f_equal. exact IH.
Qed.

End FormFacts.

(** ** Verdicts of the validation loop *)

Section VerdictFacts.

Import QrGenerator Validation.

Lemma single_key_size (m : gmap nat (list Z)) (id0 : nat) :
  (forall id captured, m !! id = Some captured -> id = id0) -> (size m <= 1)%nat.
Proof.
  intros H. destruct (m !! id0) as [captured|] eqn:E.
  - assert (Hm : m = {[id0 := captured]}).
    { apply map_eq. intros id. destruct (decide (id = id0)) as [->|Hne].
      - rewrite lookup_singleton_eq. exact E.
      - rewrite lookup_singleton_ne by congruence.
        destruct (m !! id) as [c|] eqn:E'; [|reflexivity].
        exfalso. exact (Hne (H id c E')). }
    rewrite Hm, map_size_singleton. lia.
  - assert (Hm : m = ∅).
    { apply map_eq. intros id. rewrite lookup_empty.
      destruct (m !! id) as [c|] eqn:E'; [|reflexivity].
      rewrite (H id c E') in E'. congruence. }
    rewrite Hm, map_size_empty. lia.
Qed.

Lemma registered_size (st : Loop) :
  checks_registered st -> (size (timers st) <= 1)%nat.
Proof.
  intros Hreg. destruct (cleanup st) as [id0|] eqn:Ec.
  - apply (single_key_size _ id0). intros id captured H.
    destruct (Hreg id captured H) as [Hc _]. congruence.
  - apply (single_key_size _ 0%nat). intros id captured H.
    destruct (Hreg id captured H) as [Hc _]. congruence.
Qed.

Lemma registered_fire_clears (st : Loop) (id : nat) (captured : list Z) :
  checks_registered st -> timers st !! id = Some captured ->
  delete id (timers st) = ∅.
Proof.
  intros Hreg Ht. apply map_eq. intros id'. rewrite lookup_empty.
  destruct (decide (id = id')) as [->|Hne]; [apply lookup_delete_eq|].
  rewrite lookup_delete_ne by exact Hne.
  destruct (timers st !! id') as [c|] eqn:E; [|reflexivity].
  destruct (Hreg id captured Ht) as [H1 _].
  destruct (Hreg id' c E) as [H2 _]. congruence.
Qed.

(** X15: in every state the loop can reach, a pending check that scans
    the raster sets the status to success exactly when the decoder
    returned the payload the check was started for, and to failed
    otherwise; after it no check is pending and the payload on show is the
    same.  Once the effects of the committed render have run, the payload
    the check was started for is the payload on show. *)
Theorem check_verdict (instance : bool) (evs : list Event) (id : nat)
    (captured : list Z) (code : option (list Z)) :
  let st := run (mount instance) evs in
  let st' := step st (TimerFires id (Scanned code)) in
  timers st !! id = Some captured ->
  (standardQrValidationStatus st' = Success <-> code = Some captured) /\
  (standardQrValidationStatus st' = Failed <-> code <> Some captured) /\
  timers st' = ∅ /\
  qrValue st' = qrValue st /\
  (effects_due st = false -> captured = qrValue st).
Proof.
  intros st st' Ht.
  destruct (reachable_invariants instance evs) as (Hreg & Hfresh & _).
  fold st in Hreg, Hfresh.
  assert (Hst : st' = {| qrValue := qrValue st; instance := Validation.instance st;
                         standardQrValidationStatus :=
                           validation_callback captured (Scanned code);
                         timers := delete id (timers st);
                         next_timer := next_timer st; cleanup := cleanup st;
                         effects_due := effects_due st |}).
  { subst st'. cbn [step]. rewrite Ht. reflexivity. }
  rewrite Hst. cbn [standardQrValidationStatus timers qrValue validation_callback].
  split; [|split; [|split; [exact (registered_fire_clears st id captured Hreg Ht)|
                            split; [reflexivity|]]]].
  - destruct code as [d|]; [|split; discriminate].
    destruct (str_eqb d captured) eqn:E.
    + apply str_eqb_eq in E. subst d. tauto.
    + split; [discriminate|]. intros [= ->]. rewrite str_eqb_refl in E. discriminate.
  - destruct code as [d|]; [|split; [discriminate | reflexivity]].
    destruct (str_eqb d captured) eqn:E.
    + apply str_eqb_eq in E. subst d. split; [discriminate|]. intros H. contradiction.
    + split; [|reflexivity]. intros _ [= ->]. rewrite str_eqb_refl in E. discriminate.
  - intros Hdue. exact (Hfresh Hdue id captured Ht).
Qed.

Lemma check_verdict_witness :
  let st := run (mount true) [Commit (lit "abc"); Flush] in
  let st' := step st (TimerFires 1%nat (Scanned (Some (lit "abc")))) in
  (standardQrValidationStatus st' = Success <-> Some (lit "abc") = Some (lit "abc")) /\
  (standardQrValidationStatus st' = Failed <-> Some (lit "abc") <> Some (lit "abc")) /\
  timers st' = ∅ /\
  qrValue st' = qrValue st /\
  (effects_due st = false -> lit "abc" = qrValue st).
Proof.
  apply (check_verdict true [Commit (lit "abc"); Flush] 1%nat (lit "abc")
           (Some (lit "abc"))).
  vm_compute. reflexivity.
Defined.

Lemma no_instance_quiet (evs : list Event) :
  timers (run (mount false) evs) = ∅ /\
  standardQrValidationStatus (run (mount false) evs) = Idle.
Proof.
  induction evs as [|ev evs [IHt IHs]] using rev_ind.
  - split; reflexivity.
  - rewrite run_app. cbn [run foldl].
    pose proof (run_instance false evs) as Hi.
    pose proof (reachable_invariants false evs) as (Hreg & _ & _).
    assert (Hflush : timers (flush (run (mount false) evs)) = ∅ /\
                     standardQrValidationStatus (flush (run (mount false) evs)) = Idle).
    { destruct (flush_settled (run (mount false) evs)) as [->|Hdue];
        [split; assumption|].
      destruct (flush_due _ Hreg Hdue)
        as (_ & _ & _ & [(_ & Ht & Hs & _)|((_ & Hinst) & _)]);
        [split; assumption | congruence]. }
    destruct ev as [value| |id c]; cbn [step].
    + cbn [commit timers standardQrValidationStatus]. exact Hflush.
    + exact Hflush.
    + rewrite IHt, lookup_empty. split; assumption.
Qed.

(** X16: in every state the loop can reach at most one check is
    pending, and none once the effects of a render with an empty payload
    have run; without a QR instance no check is ever set and the status
    stays idle. *)
Theorem at_most_one_check_pending (instance : bool) (evs : list Event) :
  let st := run (mount instance) evs in
  (size (timers st) <= 1)%nat /\
  (effects_due st = false -> qrValue st = [] -> timers st = ∅) /\
  (instance = false -> timers st = ∅ /\ standardQrValidationStatus st = Idle).
Proof.
  intros st. pose proof (reachable_invariants instance evs) as Hinv. fold st in Hinv.
  split; [exact (registered_size st (proj1 Hinv))|].
  split; [exact (no_check_when_empty st Hinv)|].
  intros ->. exact (no_instance_quiet evs).
Qed.

(** X17: a change to another non-empty payload does not reset the
    verdict.  With a QR instance, in every state the loop can reach, once
    the new payload is committed and its effects have run with no check
    run in between, the status is the one the loop had with its earlier
    effects run, now beside the new payload, exactly one check is pending,
    and when it runs the status is the outcome for the new payload. *)
Theorem verdict_outlives_payload_change (evs : list Event) (value : list Z) :
  let st := run (mount true) evs in
  let st' := run st [Commit value; Flush] in
  value <> [] ->
  qrValue st' = value /\
  standardQrValidationStatus (step st (Commit value))
  = standardQrValidationStatus (step st Flush) /\
  standardQrValidationStatus st' = standardQrValidationStatus (step st Flush) /\
  (effects_due st = false ->
   standardQrValidationStatus st' = standardQrValidationStatus st) /\
  exists id,
    timers st' = {[id := value]} /\
    forall c,
      standardQrValidationStatus (step st' (TimerFires id c))
      = validation_callback value c.
Proof.
  intros st st' Hne.
  pose proof (reachable_invariants true evs) as Hinv. fold st in Hinv.
  pose proof (run_instance true evs) as Hi. fold st in Hi.
  destruct (committed_and_flushed st value Hinv) as (_ & _ & Hq & _ & Hcase).
  fold st' in Hq, Hcase.
  destruct Hcase as [([Hc|Hc] & _)|(_ & Ht & Hs)]; [contradiction | congruence|].
  split; [exact Hq|]. split; [reflexivity|]. split; [exact Hs|].
  split.
  { intros Hdue. rewrite Hs. unfold flush. rewrite Hdue. reflexivity. }
  eexists. split; [exact Ht|]. intros c.
  refine (proj1 (fire_verdict st' _ value c _)). rewrite Ht. apply lookup_singleton_eq.
Qed.

Lemma verdict_outlives_payload_change_witness :
  let st :=
    run (mount true) [TimerFires 0%nat (Scanned (Some (lit "https://ai.google.dev")))] in
  let st' := run st [Commit (lit "other"); Flush] in
  qrValue st' = lit "other" /\
  standardQrValidationStatus (step st (Commit (lit "other")))
  = standardQrValidationStatus (step st Flush) /\
  standardQrValidationStatus st' = standardQrValidationStatus (step st Flush) /\
  (effects_due st = false ->
   standardQrValidationStatus st' = standardQrValidationStatus st) /\
  exists id,
    timers st' = {[id := lit "other"]} /\
    forall c,
      standardQrValidationStatus (step st' (TimerFires id c))
      = validation_callback (lit "other") c.
Proof.
  apply (verdict_outlives_payload_change
           [TimerFires 0%nat (Scanned (Some (lit "https://ai.google.dev")))]
           (lit "other")).
  discriminate.
Defined.

End VerdictFacts.

(** ** The course of an export *)

Section ExportRunFacts.

Import QrGenerator ExportPipeline.

Ltac run_export gen :=
  match goal with
  | |- context [fst ?x] =>
      let v := eval vm_compute in (fst x) in change (fst x) with v
  end;
  try match goal with
      | |- context [gen ?files] => destruct (gen files) as [content|egen] eqn:Hgen
      end;
  cbv beta iota.

(** X18: an export in which no stage rejects starts exactly one
    download, named 'qr-master-pro-export.zip', of what generateAsync made of
    the archive; the archive holds one file for each stage that resolved to
    a blob, under the stage's file name and in the order of the stages,
    and nothing for a stage that resolved to null; the only setError call
    clears the error, the percentages run up to 100, and the closing
    timeout is set. *)
Theorem export_success (qrValue : list Z) (aiQrImage : option (list Z))
    (cap : Capabilities) :
  qrValue <> [] ->
  first_failure aiQrImage cap = None ->
  let r := export_run qrValue aiQrImage cap in
  exists content,
    generateAsync cap (zip r) = Ok content /\
    downloads r = [("qr-master-pro-export.zip"%string, content)] /\
    (fun file => (fst file, Ok (Some (snd file)))) <$> zip r
    = List.filter (fun blob => match snd blob with Ok (Some _) => true | _ => false end)
                  (resolved_blobs aiQrImage cap) /\
    error_calls r = [None] /\
    percentages r = (if truthy aiQrImage then [0; 10; 30; 60; 90; 100]
                     else [0; 10; 30; 90; 100]) /\
    invoked r = (if truthy aiQrImage then [StagePng; StageSvg; StageAi; StageCompress]
                 else [StagePng; StageSvg; StageCompress]) /\
    reset_pending r = true.
Proof.
  intros Hq Hfail r. subst r. unfold export_run, percentages, resolved_blobs.
  destruct qrValue as [|q qs]; [contradiction|].
  destruct cap as [png svg ai gen]. cbn [raw_png raw_svg fetched_ai generateAsync].
  destruct png as [pngBlob|epng], svg as [svgBlob|esvg], ai as [aiBlob|eai],
    aiQrImage as [[|i img]|];
    try destruct pngBlob; try destruct svgBlob; try destruct aiBlob;
    vm_compute in Hfail; try discriminate Hfail;
    match type of Hfail with
    | context [gen ?files] =>
        destruct (gen files) as [content|egen] eqn:Hgen; [|discriminate Hfail]
    end;
    match goal with
    | |- context [fst ?x] =>
        let v := eval vm_compute in (fst x) in change (fst x) with v
    end;
    rewrite ?Hgen; cbv beta iota;
    exists content; cbn [zip downloads error_calls progress_calls invoked reset_pending
                         truthy];
    (split; [exact Hgen|]); repeat split.
Qed.

Lemma export_success_witness :
  let r := export_run (lit "payload") (Some (lit "data:image/png;base64,AA")) all_resolve in
  exists content,
    generateAsync all_resolve (zip r) = Ok content /\
    downloads r = [("qr-master-pro-export.zip"%string, content)] /\
    (fun file => (fst file, Ok (Some (snd file)))) <$> zip r
    = List.filter (fun blob => match snd blob with Ok (Some _) => true | _ => false end)
                  (resolved_blobs (Some (lit "data:image/png;base64,AA")) all_resolve) /\
    error_calls r = [None] /\
    percentages r = [0; 10; 30; 60; 90; 100] /\
    invoked r = [StagePng; StageSvg; StageAi; StageCompress] /\
    reset_pending r = true.
Proof.
  apply (export_success (lit "payload") (Some (lit "data:image/png;base64,AA"))
           all_resolve).
  - discriminate.
  - reflexivity.
Defined.

(** X19: in every export, whatever resolves or rejects, the
    percentages shown are taken in order from 0, 10, 30, 60, 90, 100, so
    they only go up; 100 is shown
    exactly when a download is started, and at most one is; nothing is
    shown, and no closing timeout is set, exactly when the payload is
    empty or there is no QR instance, and then the one effect is the
    request to generate a code first. *)
Theorem export_progress_increases (qrValue : list Z) (instance : bool)
    (aiQrImage : option (list Z)) (cap : Capabilities) :
  let r := fst (handleBatchExport qrValue instance aiQrImage cap start) in
  sublist (percentages r) [0; 10; 30; 60; 90; 100] /\
  (In 100 (percentages r) <-> downloads r <> []) /\
  (length (downloads r) <= 1)%nat /\
  (percentages r = [] <-> qrValue = [] \/ instance = false) /\
  (reset_pending r = true <-> percentages r <> []) /\
  (percentages r = [] ->
   r = fst (setError (Some (Literal "Please generate a QR code first.")) start)).
Proof.
  intros r. subst r. unfold percentages.
  destruct cap as [png svg ai gen].
  assert (Hguard :
    forall r : Run,
      r = fst (setError (Some (Literal "Please generate a QR code first.")) start) ->
      forall guard : Prop, guard ->
      sublist (fst <$> progress_calls r) [0; 10; 30; 60; 90; 100] /\
      (In 100 (fst <$> progress_calls r) <-> downloads r <> []) /\
      (length (downloads r) <= 1)%nat /\
      (fst <$> progress_calls r = [] <-> guard) /\
      (reset_pending r = true <-> fst <$> progress_calls r <> []) /\
      (fst <$> progress_calls r = [] ->
       r = fst (setError (Some (Literal "Please generate a QR code first.")) start))).
  { intros r -> guard Hg. cbn.
    split; [apply sublist_nil_l|].
    split; [split; [intros [] | intros H; exfalso; apply H; reflexivity]|].
    split; [lia|]. split; [tauto|].
    split; [split; [discriminate | intros H; exfalso; apply H; reflexivity]|].
    reflexivity. }
  destruct qrValue as [|q qs]; [apply Hguard; [reflexivity | left; reflexivity]|].
  destruct instance; [|apply Hguard; [reflexivity | right; reflexivity]].
  clear Hguard.
  destruct png as [pngBlob|epng], svg as [svgBlob|esvg], ai as [aiBlob|eai],
    aiQrImage as [[|i img]|];
    try destruct pngBlob; try destruct svgBlob; try destruct aiBlob;
    run_export gen;
    cbn [progress_calls downloads reset_pending fmap list_fmap fst length];
    (split; [repeat first [apply sublist_nil | apply sublist_skip | apply sublist_cons]|]);
    (split; [split; [intros H; try discriminate;
                     repeat (destruct H as [H|H]; [discriminate H|]); destruct H
                    | intros H; try (exfalso; apply H; reflexivity);
                      cbn [In]; repeat first [left; reflexivity | right]]|]);
    (split; [lia|]);
    (split; [split; [intros H; discriminate H | intros [H|H]; discriminate H]|]);
    (split; [split; [intros _ H; discriminate H | reflexivity]|]);
    intros H; discriminate H.
Qed.

End ExportRunFacts.

(** ** Reading a blob as base64 *)

Section BlobFacts.

Import Base64 BlobReader.

Lemma split_at_first (sep : Z) (head tail : list Z) :
  ~ In sep head -> split sep (head ++ sep :: tail) = head :: split sep tail.
Proof.
  induction head as [|c head IH]; intros H.
  - cbn [app split]. rewrite Z.eqb_refl. reflexivity.
  - cbn [app split]. destruct (Z.eqb_spec c sep) as [->|_].
    + exfalso. apply H. left. reflexivity.
    + rewrite IH; [reflexivity|]. intros Hin. apply H. right. exact Hin.
Qed.

Lemma b64_alphabet_without_comma (s : list Z) :
  Forall (fun c => b64_alphabet c = true) s -> ~ In 44 s.
Proof.
  intros H Hin. rewrite List.Forall_forall in H. specialize (H 44 Hin).
  discriminate H.
Qed.

(** X20: blobToBase64 resolves with what follows the first comma of
    the data URL: for a URL 'data:', a media type without comma, ';base64,'
    and the base64 of the octets, that is exactly the base64 of the octets;
    for a result without any comma it resolves with undefined; a read
    error rejects with a value that is not an Error. *)
Theorem blob_base64_of_data_url (mediaType bytes : list Z) :
  ~ In 44 mediaType ->
  Forall octet bytes ->
  blobToBase64 (Loaded (lit "data:" ++ mediaType ++ lit ";base64," ++ b64_encode bytes))
  = Ok (Some (b64_encode bytes)) /\
  btoa bytes = Ok (b64_encode bytes) /\
  (forall result, ~ In 44 result -> blobToBase64 (Loaded result) = Ok None) /\
  blobToBase64 ReadFailed = Throw NotAnError.
Proof.
  intros Hm Hb. split; [|split; [apply btoa_octets, Hb|split; [|reflexivity]]].
  - unfold blobToBase64, onloadend.
    change (lit "data:" ++ mediaType ++ lit ";base64," ++ b64_encode bytes)
      with (lit "data:" ++ mediaType ++ lit ";base64" ++ 44 :: b64_encode bytes).
    rewrite !app_assoc. rewrite split_at_first.
    + rewrite split_without
        by (apply b64_alphabet_without_comma, b64_encode_alphabet, Hb).
      reflexivity.
    + intros Hin. apply in_app_iff in Hin. destruct Hin as [Hin|Hin].
      * apply in_app_iff in Hin. destruct Hin as [Hin|Hin]; [|exact (Hm Hin)].
        vm_compute in Hin. intuition discriminate.
      * vm_compute in Hin. intuition discriminate.
  - intros result H. unfold blobToBase64, onloadend. rewrite split_without by exact H.
    reflexivity.
Qed.

Lemma blob_base64_of_data_url_witness :
  blobToBase64 (Loaded (lit "data:" ++ lit "image/png" ++ lit ";base64,"
                        ++ b64_encode [137; 80; 78; 71]))
  = Ok (Some (b64_encode [137; 80; 78; 71])) /\
  btoa [137; 80; 78; 71] = Ok (b64_encode [137; 80; 78; 71]) /\
  (forall result, ~ In 44 result -> blobToBase64 (Loaded result) = Ok None) /\
  blobToBase64 ReadFailed = Throw NotAnError.
Proof.
  apply (blob_base64_of_data_url (lit "image/png") [137; 80; 78; 71]).
  - vm_compute. intuition discriminate.
  - repeat constructor; unfold octet; lia.
Defined.

End BlobFacts.

(** ** The scanner *)

Section ScannerFacts.

Import QrScanner.

Lemma step_unreadable (pipeline : list Z -> ImageScan) (s : Scanner) (ev : Event) :
  failed_upload_unreadable pipeline s ->
  failed_upload_unreadable pipeline (step pipeline s ev).
Proof.
  intros [Hup Hrep].
  destruct ev as [|camera| |code|imageDataUrl| |index]; cbn [step].
  - split; [intros u H; discriminate H | exact Hrep].
  - unfold cameraSettles. destruct (cameras s); split; assumption.
  - split; assumption.
  - unfold tick. destruct (isScanning s); [|split; assumption].
    destruct code; split; assumption.
  - unfold handleFileChange.
    destruct (negb (truthy (Some imageDataUrl))); [split; assumption|].
    destruct (scanImage (pipeline imageDataUrl)) eqn:E; split; try exact Hrep.
    + intros u H. discriminate H.
    + intros u H. cbn [failedUpload] in H. injection H as <-. exact E.
  - unfold attemptAiRepair. destruct (failedUpload s) as [[|c u]|] eqn:Ef.
    + split; [|exact Hrep]. intros u' H. cbn [failedUpload] in H.
      apply Hup. exact H.
    + split.
      * intros u' H. cbn [failedUpload] in H. apply Hup. exact H.
      * cbn [repairs]. apply Forall_app. split; [exact Hrep|].
        constructor; [|constructor]. apply Hup. reflexivity.
    + split; [|exact Hrep]. intros u' H. discriminate H.
  - unfold repairSettles. destruct (repairs s !! index) as [image|] eqn:Ei;
      [|split; assumption].
    assert (Hdel : Forall (fun u => scanImage (pipeline u) = None)
                          (delete index (repairs s))).
    { apply Forall_delete, Hrep. }
    unfold repairQrCodeWithAI. cbv zeta.
    destruct (scanImage (pipeline image)) eqn:E.
    + split; [intros u H; discriminate H | exact Hdel].
    + split; [exact Hup | exact Hdel].
Qed.

Lemma run_unreadable (pipeline : list Z -> ImageScan) (evs : list Event) :
  failed_upload_unreadable pipeline (run pipeline evs).
Proof.
  unfold run. induction evs as [|ev evs IH] using rev_ind.
  - split; [intros u H; discriminate H | constructor].
  - rewrite foldl_app. cbn [foldl]. apply step_unreadable, IH.
Qed.

(** X21: the repair of the scanner never recovers a code.  As long as
    loading and decoding an image gives the same outcome for the same data
    URL, in every state the scanner can reach, with camera starts, frames,
    uploads and other repairs coming at any time between the start of a
    repair and its end: the image a repair under way works on is one in
    which no code was found, so when the repair ends it sets no scanned
    data, leaves the scanned data and the failed upload as they are at that
    time, and reports that the repair could not recover the code.  A repair
    asked for without a failed upload starts nothing and only asks for
    one. *)
Theorem ai_repair_never_recovers (pipeline : list Z -> ImageScan)
    (evs : list Event) (index : nat) (image : list Z) :
  let s := run pipeline evs in
  let s' := step pipeline s (RepairSettles index) in
  repairs s !! index = Some image ->
  scanImage (pipeline (repairQrCodeWithAI image)) = None /\
  scannedData s' = scannedData s /\
  failedUpload s' = failedUpload s /\
  error s'
  = Some "AI Repair could not recover the QR code. This is a demo feature."%string /\
  isAiRepairing s' = false /\
  repairs s' = delete index (repairs s) /\
  (truthy (failedUpload s) = false ->
   repairs (step pipeline s Repair) = repairs s /\
   scannedData (step pipeline s Repair) = scannedData s /\
   error (step pipeline s Repair)
   = Some "Please upload a damaged QR code image before attempting repair."%string).
Proof.
  intros s s' Hi.
  destruct (run_unreadable pipeline evs) as [_ Hrep]. fold s in Hrep.
  assert (Hscan : scanImage (pipeline image) = None).
  { exact (Forall_lookup_1 _ _ _ _ Hrep Hi). }
  split; [exact Hscan|].
  subst s'. cbn [step]. unfold repairSettles. rewrite Hi.
  unfold repairQrCodeWithAI. cbv zeta. rewrite Hscan.
  repeat split.
  all: cbn [step]; unfold attemptAiRepair;
    destruct (failedUpload s) as [[|c u]|]; try reflexivity; discriminate.
Qed.

Lemma ai_repair_never_recovers_witness :
  let s := run nothing_found [Upload (lit "data:image/png;base64,AA"); Repair;
                              StartScan; CameraSettles Plays;
                              Frame (Some (lit "seen"))] in
  let s' := step nothing_found s (RepairSettles 0%nat) in
  scanImage (nothing_found (repairQrCodeWithAI (lit "data:image/png;base64,AA"))) = None /\
  scannedData s' = scannedData s /\
  failedUpload s' = failedUpload s /\
  error s'
  = Some "AI Repair could not recover the QR code. This is a demo feature."%string /\
  isAiRepairing s' = false /\
  repairs s' = delete 0%nat (repairs s) /\
  (truthy (failedUpload s) = false ->
   repairs (step nothing_found s Repair) = repairs s /\
   scannedData (step nothing_found s Repair) = scannedData s /\
   error (step nothing_found s Repair)
   = Some "Please upload a damaged QR code image before attempting repair."%string).
Proof.
  apply (ai_repair_never_recovers nothing_found
           [Upload (lit "data:image/png;base64,AA"); Repair; StartScan;
            CameraSettles Plays; Frame (Some (lit "seen"))]
           0%nat (lit "data:image/png;base64,AA")).
  vm_compute. reflexivity.
Defined.

End ScannerFacts.
